(** * BankruptcyWatch address tool: a shallow embedding of [challenge.py]

    The script parses address files in three formats (XML, TSV, TXT), merges
    the records and prints them sorted by ZIP code.  This development embeds
    the parsers, the ZIP normaliser, the dispatcher and the driver as Rocq
    functions and proves properties of them.

    Modelling conventions.
    - A Python [str] is a [list ascii]: a sequence of code points below 256.
      On that range the regular-expression class [\d] is [0-9], and both
      [\s] and [str.strip] use the white-space set of [str.isspace].
    - A Python [dict] is an association list in insertion order, as
      [json.dumps] prints it; assignment to an existing key updates in place.
    - [re] is a backtracking matcher over a small pattern syntax; the
      patterns of the script are written in that syntax.
    - The file system and the external XML parser are an explicit [world],
      which also says whether [output.json] can be opened for writing;
      [print], [json.dump] and [sys.exit] are a state-and-exit monad.
    - The arguments of a run are the positional arguments of the command
      line: none of them starts with a dash (options are the business of
      [argparse] alone).  Without any, [argparse] ends the run with status
      2. *)

From Stdlib Require Import Ascii String.
From Stdlib Require Import List Bool Arith Lia.
From Stdlib Require Import Permutation Sorted.
Import ListNotations.

(* ================================================================== *)
(** * Python strings *)

Definition str := list ascii.

Definition py (s : string) : str := list_ascii_of_string s.
Arguments py s%_string.

(** [a == b] *)
Fixpoint str_eqb (a b : str) : bool :=
  match a, b with
  | [], [] => true
  | x :: a', y :: b' => Ascii.eqb x y && str_eqb a' b'
  | _, _ => false
  end.

(** Character classes on code points below 256. *)
Definition code (c : ascii) : nat := nat_of_ascii c.

Definition between (lo hi : nat) (c : ascii) : bool :=
  (lo <=? code c) && (code c <=? hi).

(** [str.isspace], also the class [\s]: TAB..CR, FS..US, space, NEL, NBSP. *)
Definition is_space (c : ascii) : bool :=
  between 9 13 c || between 28 32 c || (code c =? 133) || (code c =? 160).

Definition not_space (c : ascii) : bool := negb (is_space c).

(** The class [\d]. *)
Definition is_digit (c : ascii) : bool := between 48 57 c.

(** The class [[A-Za-z]]. *)
Definition is_letter (c : ascii) : bool := between 65 90 c || between 97 122 c.

Definition tab : ascii := ascii_of_nat 9.
Definition nl : ascii := ascii_of_nat 10.

Definition is_char (a : ascii) (c : ascii) : bool := Ascii.eqb c a.

(** [str.strip()] *)
Fixpoint lstrip (s : str) : str :=
  match s with
  | c :: s' => if is_space c then lstrip s' else s
  | [] => []
  end.

Definition rstrip (s : str) : str := rev (lstrip (rev s)).

Definition strip (s : str) : str := rstrip (lstrip s).

(** Truth value of a string: [if s], [not s]. *)
Definition truthy (s : str) : bool :=
  match s with [] => false | _ => true end.

(** A string is blank when it has no character outside white space. *)
Definition is_blank (s : str) : bool := forallb is_space s.

(** [s.split(sep)] for a one-character separator: never the empty list. *)
Fixpoint split_on (sep : ascii) (s : str) : list str :=
  match s with
  | [] => [[]]
  | c :: s' =>
      if Ascii.eqb c sep then [] :: split_on sep s'
      else match split_on sep s' with
           | w :: ws => (c :: w) :: ws
           | [] => [[c]]
           end
  end.

(** [sep.join(parts)] *)
Fixpoint join (sep : str) (parts : list str) : str :=
  match parts with
  | [] => []
  | [p] => p
  | p :: ps => p ++ sep ++ join sep ps
  end.

(* ================================================================== *)
(** * Python dictionaries, in insertion order *)

Module Dict.

Definition t := list (str * str).

Definition empty : t := [].

(** [d.get(k)] *)
Fixpoint get (k : str) (d : t) : option str :=
  match d with
  | [] => None
  | (k', v) :: d' => if str_eqb k' k then Some v else get k d'
  end.

(** [k in d] *)
Definition mem (k : str) (d : t) : bool :=
  match get k d with Some _ => true | None => false end.

(** [d[k] = v] *)
Fixpoint set (k v : str) (d : t) : t :=
  match d with
  | [] => [(k, v)]
  | (k', v') :: d' =>
      if str_eqb k' k then (k', v) :: d' else (k', v') :: set k v d'
  end.

(** [d.get(k, default)] *)
Definition get_default (k dflt : str) (d : t) : str :=
  match get k d with Some v => v | None => dflt end.

(** [len(d)] *)
Definition len (d : t) : nat := length d.

Definition keys (d : t) : list str := map fst d.

(** Every value stored in the dictionary satisfies [P]. *)
Definition values_all (P : str -> Prop) (d : t) : Prop :=
  Forall (fun kv => P (snd kv)) d.

End Dict.

(* ================================================================== *)
(** * Regular expressions: a backtracking matcher *)

Module Re.

(** The pattern syntax the script needs.  Every starred sub-pattern in the
    script is a character class, so [Star] takes a class; it is greedy. *)
Inductive re : Type :=
| Eps
| Cls (p : ascii -> bool)
| Seq (r1 r2 : re)
| Alt (r1 r2 : re)
| Star (p : ascii -> bool)
| Group (n : nat) (r : re).

Definition Plus (p : ascii -> bool) : re := Seq (Cls p) (Star p).
Definition Opt (r : re) : re := Alt r Eps.

Fixpoint Rep (n : nat) (r : re) : re :=
  match n with
  | 0 => Eps
  | 1 => r
  | S n' => Seq r (Rep n' r)
  end.

Fixpoint Lit (s : str) : re :=
  match s with
  | [] => Eps
  | [c] => Cls (is_char c)
  | c :: s' => Seq (Cls (is_char c)) (Lit s')
  end.

(** Captured groups: group number to captured text. *)
Definition caps := list (nat * str).

Fixpoint cap_get (n : nat) (c : caps) : option str :=
  match c with
  | [] => None
  | (m, v) :: c' => if Nat.eqb m n then Some v else cap_get n c'
  end.

Definition cap_set (n : nat) (v : str) (c : caps) : caps := (n, v) :: c.

Section Exec.
Variable A : Type.

(** Greedy iteration of a class: longest first, then shorter. *)
Fixpoint star (p : ascii -> bool) (s : str) (k : str -> option A) : option A :=
  match s with
  | c :: s' =>
      if p c then
        match star p s' k with
        | Some v => Some v
        | None => k s
        end
      else k s
  | [] => k s
  end.

(** [exec r s c k]: match [r] at the head of [s] with groups [c], then
    continue with [k] on the rest; alternatives in priority order. *)
Fixpoint exec (r : re) (s : str) (c : caps)
         (k : str -> caps -> option A) : option A :=
  match r with
  | Eps => k s c
  | Cls p =>
      match s with
      | a :: s' => if p a then k s' c else None
      | [] => None
      end
  | Seq r1 r2 => exec r1 s c (fun s1 c1 => exec r2 s1 c1 k)
  | Alt r1 r2 =>
      match exec r1 s c k with
      | Some v => Some v
      | None => exec r2 s c k
      end
  | Star p => star p s (fun s' => k s' c)
  | Group n r1 =>
      exec r1 s c
           (fun s1 c1 => k s1 (cap_set n (firstn (length s - length s1) s) c1))
  end.
End Exec.
Arguments star {A} p s k.
Arguments exec {A} r s c k.

(** A match object: the groups and the text after the match. *)
Record match_obj : Type := { m_caps : caps; m_rest : str }.

(** [m.group(n)] *)
Definition group (m : match_obj) (n : nat) : option str := cap_get n (m_caps m).

(** A match anchored at the head of [s]. *)
Definition match_at (r : re) (s : str) : option match_obj :=
  exec r s [] (fun s' c => Some {| m_caps := c; m_rest := s' |}).

(** [re.search(r, s)]: the leftmost start position that matches. *)
Fixpoint search (r : re) (s : str) : option match_obj :=
  match match_at r s with
  | Some m => Some m
  | None =>
      match s with
      | [] => None
      | _ :: s' => search r s'
      end
  end.

(** What a pattern matches: [matches r x c c'] says that [r] matches the
    text [x] and turns the groups [c] into [c']. *)
Inductive matches : re -> str -> caps -> caps -> Prop :=
| matches_eps c : matches Eps [] c c
| matches_cls p a c : p a = true -> matches (Cls p) [a] c c
| matches_seq r1 r2 x1 x2 c c1 c2 :
    matches r1 x1 c c1 -> matches r2 x2 c1 c2 ->
    matches (Seq r1 r2) (x1 ++ x2) c c2
| matches_alt_l r1 r2 x c c' : matches r1 x c c' -> matches (Alt r1 r2) x c c'
| matches_alt_r r1 r2 x c c' : matches r2 x c c' -> matches (Alt r1 r2) x c c'
| matches_star p x c : forallb p x = true -> matches (Star p) x c c
| matches_group n r x c c' :
    matches r x c c' -> matches (Group n r) x c (cap_set n x c').

(** The text [s] has an occurrence of the pattern somewhere. *)
Definition occurs (r : re) (s : str) : Prop :=
  exists pre x post c, s = pre ++ x ++ post /\ matches r x [] c.

End Re.

(* ================================================================== *)
(** * The ZIP normaliser *)

(** The pattern [(\d{5})]. *)
Definition re_zip5 : Re.re := Re.Group 1 (Re.Rep 5 (Re.Cls is_digit)).

Definition fallback_key : str := py "00000".

(** The text of a group that took part in the match. *)
Definition group_text (m : Re.match_obj) (n : nat) : str :=
  match Re.group m n with Some g => g | None => [] end.

Definition normalize_zip_code (zip_code : str) : str :=
  if negb (truthy zip_code) then fallback_key
  else match Re.search re_zip5 zip_code with
       | Some m => group_text m 1
       | None => fallback_key
       end.

(* ================================================================== *)
(** * Address records *)

Definition address := Dict.t.

Definition k_name : str := py "name".
Definition k_organization : str := py "organization".
Definition k_street : str := py "street".
Definition k_city : str := py "city".
Definition k_county : str := py "county".
Definition k_state : str := py "state".
Definition k_zip : str := py "zip".

(** [filter_map f l]: the loop [for x in l: ... continue ... append]. *)
Fixpoint filter_map {A B : Type} (f : A -> option B) (l : list A) : list B :=
  match l with
  | [] => []
  | x :: l' =>
      match f x with
      | Some y => y :: filter_map f l'
      | None => filter_map f l'
      end
  end.

(* ================================================================== *)
(** * The markup parser: [parse_xml_file] *)

Module ET.

(** An [xml.etree.ElementTree] element: tag, text and child elements. *)
#[warnings="-register-all"]
Inductive element : Type :=
| Element (tag : str) (text : option str) (children : list element).

Definition tag (e : element) : str := let (t, _, _) := e in t.
Definition text (e : element) : option str := let (_, x, _) := e in x.
Definition children (e : element) : list element := let (_, _, c) := e in c.

(** [e.find(tag)]: the first child with that tag. *)
Definition find (t : str) (e : element) : option element :=
  List.find (fun c => str_eqb (tag c) t) (children e).

(** [e.findall(tag)]: the children with that tag, in document order. *)
Definition findall (t : str) (e : element) : list element :=
  List.filter (fun c => str_eqb (tag c) t) (children e).

End ET.

(** [el is not None and el.text]: the text when both hold. *)
Definition xml_text (el : option ET.element) : option str :=
  match el with
  | Some e =>
      match ET.text e with
      | Some t => if truthy t then Some t else None
      | None => None
      end
  | None => None
  end.

(** One optional component: [x = record.find(tag); if x is not None and
    x.text: address[key] = x.text.strip()]. *)
Definition xml_component (record : ET.element) (tag key : str) (a : address)
  : address :=
  match xml_text (ET.find tag record) with
  | Some t => Dict.set key (strip t) a
  | None => a
  end.

(** The body of the loop over [record] elements; [None] is [continue]. *)
Definition xml_record (record : ET.element) : option address :=
  let a := Dict.empty in
  let name := ET.find k_name record in
  let org := ET.find k_organization record in
  let identity :=
    match xml_text name with
    | Some t => Some (Dict.set k_name (strip t) a)
    | None =>
        match xml_text org with
        | Some t => Some (Dict.set k_organization (strip t) a)
        | None => None
        end
    end in
  match identity with
  | None => None
  | Some a =>
      let a := xml_component record k_street k_street a in
      let a := xml_component record k_city k_city a in
      let a := xml_component record k_county k_county a in
      let a := xml_component record k_state k_state a in
      let a := xml_component record k_zip k_zip a in
      Some a
  end.

Definition xml_records (root : ET.element) : list address :=
  filter_map xml_record (ET.findall (py "record") root).

(* ================================================================== *)
(** * The tabular parser: [parse_tsv_file] *)

Definition NA : str := py "N/A".
Definition NMN : str := py "N/M/N".

(** [file.readlines()]: the lines, each with its newline. *)
Fixpoint readlines (s : str) : list str :=
  match s with
  | [] => []
  | c :: s' =>
      if Ascii.eqb c nl then [c] :: readlines s'
      else match readlines s' with
           | l :: ls => (c :: l) :: ls
           | [] => [[c]]
           end
  end.

(** [for j, value in enumerate(fields): if j < len(header):
    column_data[header[j]] = value.strip()] *)
Fixpoint fill_columns (header fields : list str) (cd : Dict.t) : Dict.t :=
  match header, fields with
  | h :: hs, v :: vs => fill_columns hs vs (Dict.set h (strip v) cd)
  | _, _ => cd
  end.

Definition column_data (header fields : list str) : Dict.t :=
  fill_columns header fields Dict.empty.

(** [k in column_data and column_data[k] and column_data[k] != sentinel] *)
Definition present (cd : Dict.t) (k sentinel : str) : option str :=
  match Dict.get k cd with
  | Some v => if truthy v && negb (str_eqb v sentinel) then Some v else None
  | None => None
  end.

Definition tsv_copy (cd : Dict.t) (col key : str) (a : address) : address :=
  match present cd col NA with
  | Some v => Dict.set key v a
  | None => a
  end.

(** The record built from one row's [column_data]. *)
Definition tsv_address (cd : Dict.t) : address :=
  let a := Dict.empty in
  let a :=
    match present cd k_organization NA with
    | Some o => Dict.set k_organization o a
    | None =>
        match Dict.get (py "first") cd, Dict.get (py "last") cd with
        | Some first, Some last =>
            let name_parts :=
              [first]
                ++ match present cd (py "middle") NMN with
                   | Some m => [m]
                   | None => []
                   end
                ++ [last] in
            Dict.set k_name (join (py " ") name_parts) a
        | _, _ => a
        end
    end in
  let a := tsv_copy cd (py "address") k_street a in
  let a := tsv_copy cd k_city k_city a in
  let a := tsv_copy cd k_county k_county a in
  let a := tsv_copy cd k_state k_state a in
  match present cd k_zip NA with
  | Some zip_code =>
      let zip_code :=
        match present cd (py "zip4") NA with
        | Some z4 => zip_code ++ py "-" ++ z4
        | None => zip_code
        end in
      Dict.set k_zip zip_code a
  | None => a
  end.

(** [('name' in address or 'organization' in address) and len(address) > 1] *)
Definition tsv_accept (a : address) : bool :=
  (Dict.mem k_name a || Dict.mem k_organization a) && (1 <? Dict.len a).

(** [fields = line.strip().split('\t')] *)
Definition tsv_fields (line : str) : list str := split_on tab (strip line).

(** The body of the loop over data lines; [None] is a line that adds no
    record (blank, or rejected by the acceptance test). *)
Definition tsv_row (header : list str) (line : str) : option address :=
  if negb (truthy (strip line)) then None
  else
    let a := tsv_address (column_data header (tsv_fields line)) in
    if tsv_accept a then Some a else None.

(** [parse_tsv_file] after [readlines]; [None] is the empty-file failure. *)
Definition tsv_records (lines : list str) : option (list address) :=
  match lines with
  | [] => None
  | first :: rest =>
      let header := split_on tab (strip first) in
      Some (filter_map (tsv_row header) rest)
  end.

(* ================================================================== *)
(** * The free-text parser: [parse_txt_file] *)

Module Split.
Import Re.

(** [re.split(r, s)] for a pattern without groups.  [skip] counts the
    characters of the current match still to be consumed; [cur] is the
    piece being collected, reversed.  The separator of the script matches
    at least two characters; a match of no character is passed over. *)
Fixpoint split_aux (r : re) (skip : nat) (cur : str) (s : str) : list str :=
  match s with
  | [] => [rev cur]
  | c :: s' =>
      match skip with
      | S n => split_aux r n cur s'
      | 0 =>
          match match_at r s with
          | Some m =>
              match length s - length (m_rest m) with
              | S n => rev cur :: split_aux r n [] s'
              | 0 => split_aux r 0 (c :: cur) s'
              end
          | None => split_aux r 0 (c :: cur) s'
          end
      end
  end.

Definition split (r : re) (s : str) : list str := split_aux r 0 [] s.

End Split.

Definition is_comma (c : ascii) : bool := is_char ","%char c.
Definition not_comma (c : ascii) : bool := negb (is_comma c).
Definition is_dash (c : ascii) : bool := is_char "-"%char c.
Definition is_nl (c : ascii) : bool := is_char nl c.

(** The pattern [\n\s*\n]. *)
Definition re_blank_sep : Re.re :=
  Re.Seq (Re.Cls is_nl) (Re.Seq (Re.Star is_space) (Re.Cls is_nl)).

(** The pattern [(Inc\.|LLC|Ltd\.|\bLLC\b|Company|Corp\.|Corporation)].
    The alternative [\bLLC\b] can match only where the earlier alternative
    [LLC] matches, and the script tests the result of [re.search] for truth
    only, so the alternative is left out. *)
Definition re_org : Re.re :=
  Re.Group 1
    (Re.Alt (Re.Lit (py "Inc."))
    (Re.Alt (Re.Lit (py "LLC"))
    (Re.Alt (Re.Lit (py "Ltd."))
    (Re.Alt (Re.Lit (py "Company"))
    (Re.Alt (Re.Lit (py "Corp."))
            (Re.Lit (py "Corporation"))))))).

(** The location pattern, in its five parts:
    [([^,]+),\s*]  then, optionally, [([^,]+),\s*]  then
    [([A-Za-z]{2}|[A-Za-z]+)]  then  [\s+]  then  [(\d{5}(?:-\d{4})?)]. *)
Definition re_county_part : Re.re :=
  Re.Seq (Re.Group 2 (Re.Plus not_comma))
         (Re.Seq (Re.Cls is_comma) (Re.Star is_space)).

Definition re_state : Re.re :=
  Re.Group 3 (Re.Alt (Re.Rep 2 (Re.Cls is_letter)) (Re.Plus is_letter)).

Definition re_zip : Re.re :=
  Re.Group 4
    (Re.Seq (Re.Rep 5 (Re.Cls is_digit))
            (Re.Opt (Re.Seq (Re.Cls is_dash) (Re.Rep 4 (Re.Cls is_digit))))).

Definition re_location : Re.re :=
  Re.Seq (Re.Group 1 (Re.Plus not_comma))
  (Re.Seq (Re.Cls is_comma)
  (Re.Seq (Re.Star is_space)
  (Re.Seq (Re.Opt re_county_part)
  (Re.Seq re_state
  (Re.Seq (Re.Plus is_space)
          re_zip))))).

Definition is_match (m : option Re.match_obj) : bool :=
  match m with Some _ => true | None => false end.

(** The city, county, state and ZIP assignments for the last line. *)
Definition txt_location (last_line : str) (a : address) : address :=
  match Re.search re_location last_line with
  | Some m =>
      let a := Dict.set k_city (strip (group_text m 1)) a in
      let a :=
        match Re.group m 2 with
        | Some g => if truthy g then Dict.set k_county (strip g) a else a
        | None => a
        end in
      let a := Dict.set k_state (strip (group_text m 3)) a in
      Dict.set k_zip (strip (group_text m 4)) a
  | None => a
  end.

(** The assignments for one paragraph, given its stripped lines. *)
Definition txt_address (first_line : str) (lines : list str) : address :=
  let a := Dict.empty in
  let a :=
    if is_match (Re.search re_org first_line)
    then Dict.set k_organization first_line a
    else Dict.set k_name first_line a in
  let a :=
    if 2 <=? length lines then Dict.set k_street (nth 1 lines []) a
    else a in
  if 3 <=? length lines then txt_location (last lines []) a
  else a.

(** The body of the loop over paragraphs; [None] is [continue]. *)
Definition txt_record (record : str) : option address :=
  if negb (truthy (strip record)) then None
  else
    let lines := map strip (split_on nl (strip record)) in
    match lines with
    | [] => None
    | first_line :: _ => Some (txt_address first_line lines)
    end.

Definition txt_records (content : str) : list address :=
  filter_map txt_record (Split.split re_blank_sep content).

(* ================================================================== *)
(** * The world outside the script, and its effects *)

(** What [ET.parse] does with a file. *)
Inductive xml_result : Type :=
| XmlTree (root : ET.element)
| XmlParseError            (* raises [ET.ParseError] *)
| XmlOtherError.           (* raises anything else, an [OSError] for one *)

(** A regular file: its text as [open(path, 'r', encoding='utf-8')] reads
    it ([None] when opening or decoding raises) and what [ET.parse] yields. *)
Record file : Type := { f_text : option str; f_xml : xml_result }.

(** The file system as the script meets it.  [file_at w path] is the
    regular file at a path, [None] when [os.path.isfile] is false there; a
    world is applied to a path for short.  [output_writable w] says whether
    [open("output.json", "w")] and the write that follows succeed. *)
Record world : Type := {
  file_at :> str -> option file;
  output_writable : bool
}.

(** Diagnostics on [sys.stderr]. *)
Inductive diag : Type :=
| ErrXmlParse (path : str)
| ErrTsvEmpty (path : str)
| ErrTsv (path : str)
| ErrTxt (path : str)
| ErrUnsupported (ext : str)
| ErrNotFound (path : str)
| ErrUsage.                (* the usage message of [argparse] *)

(** Lines on [sys.stdout]. *)
Inductive out_line : Type :=
| OutJson (records : list address)
| OutSuccess (count : nat).

Record io : Type := {
  stdout : list out_line;
  stderr : list diag;
  output_json : option (list address)    (* the file [output.json] *)
}.

Definition io0 : io := {| stdout := []; stderr := []; output_json := None |}.

(** How a computation ends: a value, [sys.exit(code)], or an exception
    nothing catches (the interpreter prints a traceback, status 1). *)
Inductive res (A : Type) : Type :=
| Ret (a : A)
| Exit (code : nat)
| Uncaught.
Arguments Ret {A} a.
Arguments Exit {A} code.
Arguments Uncaught {A}.

Definition M (A : Type) : Type := io -> res A * io.

Definition ret {A} (a : A) : M A := fun s => (Ret a, s).

Definition bind {A B} (m : M A) (f : A -> M B) : M B :=
  fun s =>
    match m s with
    | (Ret a, s') => f a s'
    | (Exit c, s') => (Exit c, s')
    | (Uncaught, s') => (Uncaught, s')
    end.

Notation "x <- m ;; f" := (bind m (fun x => f))
  (at level 61, m at next level, right associativity).
Notation "m ;;; f" := (bind m (fun _ => f))
  (at level 61, right associativity).

Definition sys_exit {A} (code : nat) : M A := fun s => (Exit code, s).
Definition raise {A} : M A := fun s => (Uncaught, s).

Definition eprint (d : diag) : M unit :=
  fun s => (Ret tt, {| stdout := stdout s; stderr := stderr s ++ [d];
                       output_json := output_json s |}).

Definition print (l : out_line) : M unit :=
  fun s => (Ret tt, {| stdout := stdout s ++ [l]; stderr := stderr s;
                       output_json := output_json s |}).

(** [with open("output.json", "w") as f: json.dump(records, f, indent=2)]:
    nothing catches what [open] or the write raises. *)
Definition write_output_json (w : world) (records : list address) : M unit :=
  if output_writable w
  then fun s => (Ret tt, {| stdout := stdout s; stderr := stderr s;
                            output_json := Some records |})
  else raise.

Section Parsers.
Variable w : world.

(** [parse_xml_file]: only [ET.ParseError] is caught. *)
Definition parse_xml_file (filepath : str) : M (option (list address)) :=
  match w filepath with
  | Some f =>
      match f_xml f with
      | XmlTree root => ret (Some (xml_records root))
      | XmlParseError => eprint (ErrXmlParse filepath) ;;; ret None
      | XmlOtherError => raise
      end
  | None => raise
  end.

(** [parse_tsv_file]: every exception is caught. *)
Definition parse_tsv_file (filepath : str) : M (option (list address)) :=
  match w filepath with
  | Some {| f_text := Some content |} =>
      match tsv_records (readlines content) with
      | Some addresses => ret (Some addresses)
      | None => eprint (ErrTsvEmpty filepath) ;;; ret None
      end
  | _ => eprint (ErrTsv filepath) ;;; ret None
  end.

(** [parse_txt_file]: every exception is caught. *)
Definition parse_txt_file (filepath : str) : M (option (list address)) :=
  match w filepath with
  | Some {| f_text := Some content |} => ret (Some (txt_records content))
  | _ => eprint (ErrTxt filepath) ;;; ret None
  end.
End Parsers.

(* ================================================================== *)
(** * The dispatcher: [parse_file] *)

Definition is_dot (c : ascii) : bool := is_char "."%char c.
Definition is_slash (c : ascii) : bool := is_char "/"%char c.

(** The part of [s] from its last dot on, if it has a dot. *)
Fixpoint from_last_dot (s : str) : option str :=
  match s with
  | [] => None
  | c :: s' =>
      match from_last_dot s' with
      | Some e => Some e
      | None => if is_dot c then Some s else None
      end
  end.

Fixpoint drop_dots (s : str) : str :=
  match s with
  | c :: s' => if is_dot c then drop_dots s' else s
  | [] => []
  end.

(** The second component of [os.path.splitext]: the extension starts at the
    last dot of the last path component, leading dots of which are skipped. *)
Definition splitext_ext (path : str) : str :=
  let base := last (split_on "/"%char path) [] in
  match from_last_dot (drop_dots base) with
  | Some e => e
  | None => []
  end.

(** [str.lower()] on one code point below 256. *)
Definition lower_char (c : ascii) : ascii :=
  if between 65 90 c || (between 192 222 c && negb (code c =? 215))
  then ascii_of_nat (code c + 32) else c.

Definition lower (s : str) : str := map lower_char s.

Definition parse_file (w : world) (filepath : str)
  : M (option (list address)) :=
  let ext := lower (splitext_ext filepath) in
  if str_eqb ext (py ".xml") then parse_xml_file w filepath
  else if str_eqb ext (py ".tsv") then parse_tsv_file w filepath
  else if str_eqb ext (py ".txt") then parse_txt_file w filepath
  else eprint (ErrUnsupported ext) ;;; ret None.

(* ================================================================== *)
(** * The driver: [main] *)

(** Comparison of strings, code point by code point. *)
Fixpoint str_compare (a b : str) : comparison :=
  match a, b with
  | [], [] => Eq
  | [], _ :: _ => Lt
  | _ :: _, [] => Gt
  | x :: a', y :: b' =>
      match Nat.compare (code x) (code y) with
      | Eq => str_compare a' b'
      | o => o
      end
  end.

Definition str_ltb (a b : str) : bool :=
  match str_compare a b with Lt => true | _ => false end.

Definition str_leb (a b : str) : bool := negb (str_ltb b a).

Section Sorted.
Variable A : Type.
Variable key : A -> str.

(** [x] goes before the first element whose key is not below its own. *)
Fixpoint insert (x : A) (l : list A) : list A :=
  match l with
  | [] => [x]
  | y :: l' => if str_ltb (key y) (key x) then y :: insert x l' else x :: l
  end.

(** [sorted(l, key=key)]: the stable sort of [l], by insertion from the
    right. *)
Definition sorted (l : list A) : list A := fold_right insert [] l.
End Sorted.
Arguments insert {A} key x l.
Arguments sorted {A} key l.

(** [lambda x: normalize_zip_code(x.get('zip', ''))] *)
Definition sort_key (x : address) : str :=
  normalize_zip_code (Dict.get_default k_zip [] x).

(** The existence check: the first path that is not a file stops the run. *)
Fixpoint check_files (w : world) (files : list str) : M unit :=
  match files with
  | [] => ret tt
  | filepath :: rest =>
      match w filepath with
      | Some _ => check_files w rest
      | None => eprint (ErrNotFound filepath) ;;; sys_exit 1
      end
  end.

(** The parsing loop, with [all_addresses] as accumulator. *)
Fixpoint parse_all (w : world) (files : list str) (all_addresses : list address)
  : M (list address) :=
  match files with
  | [] => ret all_addresses
  | filepath :: rest =>
      addresses <- parse_file w filepath ;;
      match addresses with
      | None => sys_exit 1
      | Some addresses => parse_all w rest (all_addresses ++ addresses)
      end
  end.

(** [args = parser.parse_args()] with [nargs='+']: without a file,
    [argparse] prints its usage message and exits with status 2. *)
Definition parse_args (files : list str) : M unit :=
  match files with
  | [] => eprint ErrUsage ;;; sys_exit 2
  | _ :: _ => ret tt
  end.

Definition main (w : world) (files : list str) : M unit :=
  parse_args files ;;;
  check_files w files ;;;
  all_addresses <- parse_all w files [] ;;
  let sorted_addresses := sorted sort_key all_addresses in
  print (OutJson sorted_addresses) ;;;
  write_output_json w sorted_addresses ;;;
  print (OutSuccess (length sorted_addresses)) ;;;
  sys_exit 0.

(** Running the script on a world with the given arguments. *)
Definition run (w : world) (files : list str) : res unit * io :=
  main w files io0.

(* ================================================================== *)
(** * Notions used to state the properties *)

(** [w] is a digit window of [s] at offset [i]: five digits in a row that
    start at position [i], whatever follows them. *)
Definition window_at (s : str) (i : nat) (w : str) : Prop :=
  exists pre post,
    s = pre ++ w ++ post /\ length pre = i /\ length w = 5 /\
    forallb is_digit w = true.

(** The maximal runs of decimal digits of a string, from left to right;
    [cur] is the run being read, reversed. *)
Fixpoint digit_runs (cur : str) (s : str) : list str :=
  match s with
  | [] => match cur with [] => [] | _ => [rev cur] end
  | c :: s' =>
      if is_digit c then digit_runs (c :: cur) s'
      else match cur with
           | [] => digit_runs [] s'
           | _ => rev cur :: digit_runs [] s'
           end
  end.

(** The sort key as the specification words it: the first run of exactly
    five decimal digits, the fallback key when there is none. *)
Definition spec_zip_key (s : str) : str :=
  match find (fun r => length r =? 5) (digit_runs [] s) with
  | Some r => r
  | None => fallback_key
  end.

(** The order on sort keys: Python's [<=] on strings. *)
Definition str_le (a b : str) : Prop := str_leb a b = true.

Definition key_le {A : Type} (key : A -> str) (x y : A) : Prop :=
  str_le (key x) (key y).

(** The elements with a given key, in the order the list has them. *)
Definition with_key {A : Type} (key : A -> str) (k : str) (l : list A)
  : list A :=
  filter (fun x => str_eqb (key x) k) l.

(** Identity fields of a record. *)
Definition is_identity_key (k : str) : bool :=
  str_eqb k k_name || str_eqb k k_organization.

Definition has_identity (a : address) : bool :=
  Dict.mem k_name a || Dict.mem k_organization a.

Definition both_identities (a : address) : bool :=
  Dict.mem k_name a && Dict.mem k_organization a.

(** The record has a field that is not an identity field. *)
Definition has_other_field (a : address) : bool :=
  existsb (fun k => negb (is_identity_key k)) (Dict.keys a).

(** The three input formats, and the records a parser returns on some
    input of its format. *)
Inductive format : Type := Markup | Tabular | FreeText.

Inductive emitted_by : format -> address -> Prop :=
| emitted_xml root a : In a (xml_records root) -> emitted_by Markup a
| emitted_tsv lines rs a :
    tsv_records lines = Some rs -> In a rs -> emitted_by Tabular a
| emitted_txt content a : In a (txt_records content) -> emitted_by FreeText a.

(** [join(sep, cells)] followed by a newline: one line of a tabular file. *)
Definition tsv_line (cells : list str) : str := join [tab] cells ++ [nl].

(** Inputs used as examples. *)
Definition jane_doe_root : ET.element :=
  ET.Element (py "addresses") None
    [ET.Element (py "record") None
       [ET.Element k_name (Some (py "Jane Doe")) [];
        ET.Element k_zip (Some (py "12345")) []]].

Definition jane_doe : address := [(k_name, py "Jane Doe"); (k_zip, py "12345")].

Definition john_smith_header : list str :=
  [k_organization; py "first"; py "middle"; py "last"; k_zip; py "zip4"].

Definition john_smith_line : str :=
  tsv_line [py "N/A"; py "John"; py "N/M/N"; py "Smith"; py "90210"; py "1234"].

Definition john_smith : address :=
  [(k_name, py "John Smith"); (k_zip, py "90210-1234")].

(** A string with at least one character that is not white space. *)
Definition non_blank (v : str) : Prop := is_blank v = false.

(** The pair [(k, v)] is a field of the record element: the first child
    with tag [k] has a text that is not empty, and [v] is that text
    stripped.  The value is then non-blank exactly when the text is not all
    white space. *)
Definition markup_field (record : ET.element) (kv : str * str) : Prop :=
  exists el t,
    ET.find (fst kv) record = Some el /\ ET.text el = Some t /\
    truthy t = true /\ snd kv = strip t /\ (non_blank (snd kv) <-> non_blank t).

(** A markup file whose only [name] has white-space text, and a tabular
    file whose only row has empty [first] and [last] columns. *)
Definition blank_name_root : ET.element :=
  ET.Element (py "addresses") None
    [ET.Element (py "record") None [ET.Element k_name (Some (py " ")) []]].

Definition blank_name_record : address := [(k_name, py "")].

Definition blank_name_lines : list str :=
  [tsv_line [k_city; py "first"; py "last"; k_zip];
   tsv_line [py "Springfield"; py ""; py ""; py "12345"]].

Definition blank_name_row_record : address :=
  [(k_name, py " "); (k_city, py "Springfield"); (k_zip, py "12345")].

(** Every value of [column_data] is a stripped string. *)
Definition stripped (v : str) : Prop := exists raw, v = strip raw.

(** What the tabular parser guarantees of a stored pair, for a row with
    column data [cd]: the value is not empty; it is non-blank, unless it is
    the [name] of a row whose [first] and [last] columns are empty and whose
    [middle] column is not usable, which is a single space. *)
Definition tsv_value_ok (cd : Dict.t) (kv : str * str) : Prop :=
  snd kv <> [] /\
  (fst kv <> k_name -> non_blank (snd kv)) /\
  (fst kv = k_name ->
   non_blank (snd kv) \/
   (snd kv = py " " /\
    Dict.get (py "first") cd = Some [] /\ Dict.get (py "last") cd = Some [] /\
    present cd (py "middle") NMN = None)).

(** A computation that neither prints on standard output nor writes
    [output.json]. *)
Definition quiet {A : Type} (m : M A) : Prop :=
  forall s, stdout (snd (m s)) = stdout s /\
            output_json (snd (m s)) = output_json s.

(** How [parse_file] ends on a path; it does not depend on what was
    printed before. *)
Definition parse_outcome (w : world) (filepath : str)
  : res (option (list address)) :=
  fst (parse_file w filepath io0).

(** The records of a file that parses cleanly, [None] for a file that
    fails to parse: [parse_file] returns [None] or raises. *)
Definition parses (w : world) (filepath : str) : option (list address) :=
  match parse_outcome w filepath with
  | Ret (Some addresses) => Some addresses
  | _ => None
  end.

(** The run signals failure: exit status 1, by [sys.exit(1)] or by an
    exception that nothing catches. *)
Definition failure (r : res unit) : Prop := r = Exit 1 \/ r = Uncaught.


(** A world in which every path is a readable, empty file that is not
    well-formed XML. *)
Definition empty_files : world :=
  {| file_at := fun _ => Some {| f_text := Some []; f_xml := XmlParseError |};
     output_writable := true |}.

(** The shape of a location: what the location pattern matches.  A
    segment is a non-empty text without comma, a word a non-empty text of
    letters, a ZIP code five digits with, optionally, a dash and four more. *)
Definition segment (g : str) : Prop := g <> [] /\ forallb not_comma g = true.

Definition word (g : str) : Prop := g <> [] /\ forallb is_letter g = true.

Definition digits (n : nat) (d : str) : Prop :=
  length d = n /\ forallb is_digit d = true.

Definition zip_shape (z : str) : Prop :=
  exists d5, digits 5 d5 /\
             (z = d5 \/ exists d4, digits 4 d4 /\ z = d5 ++ py "-" ++ d4).

(** The optional county part: nothing, or a segment, a comma and white
    space. *)
Definition county_part (txt : str) (county : option str) : Prop :=
  (txt = [] /\ county = None) \/
  (exists g ws, segment g /\ is_blank ws = true /\
                txt = g ++ py "," ++ ws /\ county = Some g).

(** [location x city county state zip]: the text [x] is a city segment, a
    comma, white space, the optional county part, a state word, white space
    and a ZIP code. *)
Inductive location : str -> str -> option str -> str -> str -> Prop :=
| location_intro city ws1 txt county state ws2 zip :
    segment city -> is_blank ws1 = true -> county_part txt county ->
    word state -> ws2 <> [] -> is_blank ws2 = true -> zip_shape zip ->
    location (city ++ py "," ++ ws1 ++ txt ++ state ++ ws2 ++ zip)
             city county state zip.

(** The groups after a match of the location pattern. *)
Definition location_caps (city : str) (county : option str) (state zip : str)
  : Re.caps :=
  Re.cap_set 4 zip
    (Re.cap_set 3 state
       (match county with
        | Some g => Re.cap_set 2 g (Re.cap_set 1 city [])
        | None => Re.cap_set 1 city []
        end)).

(** The record after the location assignments for those groups. *)
Definition with_location (city : str) (county : option str) (state zip : str)
           (a : address) : address :=
  let a := Dict.set k_city (strip city) a in
  let a := match county with
           | Some g => Dict.set k_county (strip g) a
           | None => a
           end in
  Dict.set k_zip zip (Dict.set k_state state a).

(** The line has a location somewhere in it. *)
Definition has_location (l : str) : Prop :=
  exists pre x post city county state zip,
    l = pre ++ x ++ post /\ location x city county state zip.

(** The location that the search reads in a line [l = pre ++ x ++ post]:
    no location of the line starts before it; it has a county if some
    location that starts at the same place has one; and its ZIP code takes
    the dash and the four digits when the line goes on with them. *)
Definition first_location (l pre x post city : str) (county : option str)
           (state zip : str) : Prop :=
  l = pre ++ x ++ post /\
  location x city county state zip /\
  (forall pre' x' post' city' county' state' zip',
     l = pre' ++ x' ++ post' -> location x' city' county' state' zip' ->
     length pre <= length pre') /\
  (county = None ->
   forall x' post' city' g state' zip',
     l = pre ++ x' ++ post' -> ~ location x' city' (Some g) state' zip') /\
  (digits 5 zip ->
   forall d4 rest, digits 4 d4 -> post <> py "-" ++ d4 ++ rest).

(** A paragraph of a text file, from its lines. *)
Definition paragraph (lines : list str) : str := join [nl] lines.

Definition acme_paragraph : str :=
  paragraph [py "Acme Inc."; py "123 Main St"; py "Springfield, IL 62704"].

Definition acme : address :=
  [(k_organization, py "Acme Inc."); (k_street, py "123 Main St");
   (k_city, py "Springfield"); (k_state, py "IL"); (k_zip, py "62704")].

(** A paragraph whose last line has two commas before the location. *)
Definition three_commas_paragraph : str :=
  paragraph [py "J. Doe"; py "1 Elm St"; py "A, B, C, IL 62704"].

Definition three_commas : address :=
  [(k_name, py "J. Doe"); (k_street, py "1 Elm St"); (k_city, py "B");
   (k_county, py "C"); (k_state, py "IL"); (k_zip, py "62704")].

(** The lines of a text: the pieces between newlines. *)
Definition lines_of (content : str) : list str := split_on nl content.

(** The paragraphs of a list of lines: its maximal runs of lines that are
    not blank; [cur] is the run being read, reversed. *)
Fixpoint paragraphs_acc (cur : list str) (ls : list str) : list (list str) :=
  match ls with
  | [] => match cur with [] => [] | _ => [rev cur] end
  | l :: ls' =>
      if is_blank l then
        match cur with
        | [] => paragraphs_acc [] ls'
        | _ => rev cur :: paragraphs_acc [] ls'
        end
      else paragraphs_acc (l :: cur) ls'
  end.

Definition paragraphs (ls : list str) : list (list str) := paragraphs_acc [] ls.

(** The record of a paragraph: the free-text assignments on its lines,
    each stripped. *)
Definition record_of_paragraph (par : list str) : address :=
  let lines := map strip par in
  txt_address (hd [] lines) lines.

Definition non_blank_line (l : str) : bool := negb (is_blank l).

(** A line without newline. *)
Definition no_nl (l : str) : Prop := forallb (fun c => negb (is_nl c)) l = true.

(** A blank line that a newline follows: there are lines after it. *)
Definition blank_followed (l : str) (rest : list str) : bool :=
  is_blank l && match rest with [] => false | _ => true end.

(** The lines left after the blank lines that the separator swallows. *)
Fixpoint sep_drop (ls : list str) : list str :=
  match ls with
  | [] => []
  | l :: ls' => if blank_followed l ls' then sep_drop ls' else ls
  end.

(** [re.split] with the blank-line separator, told line by line: [cur] is
    the piece being collected, and [in_sep] says that the last newline took
    part in a separator. *)
Fixpoint pieces (in_sep : bool) (cur : str) (ls : list str) : list str :=
  match ls with
  | [] => [cur]
  | l :: ls' =>
      if blank_followed l ls' then
        if in_sep then pieces true cur ls' else cur :: pieces true [] ls'
      else
        if in_sep then pieces false l ls'
        else pieces false (cur ++ nl :: l) ls'
  end.

(** What the separator pattern does after its first newline and the white
    space: it needs a newline. *)
Definition sep_tail (s : str) : option Re.match_obj :=
  match s with
  | a :: s' =>
      if is_nl a then Some {| Re.m_caps := []; Re.m_rest := s' |} else None
  | [] => None
  end.

(** ** Notions for the further properties *)

(** [l1] is [l2] with some elements left out. *)
Fixpoint is_subseq (l1 l2 : list str) : bool :=
  match l1, l2 with
  | [], _ => true
  | _ :: _, [] => false
  | x :: l1', y :: l2' =>
      if str_eqb x y then is_subseq l1' l2' else is_subseq l1 l2'
  end.

(** The keys of a record in the order the parsers assign them, for a given
    identity key. *)
Definition field_order (identity : str) : list str :=
  [identity; k_street; k_city; k_county; k_state; k_zip].

(** The first key is an identity key, and the keys follow the order in
    which the parsers assign them. *)
Definition ordered_keys (a : address) : Prop :=
  exists identity,
    (identity = k_name \/ identity = k_organization) /\
    hd_error (Dict.keys a) = Some identity /\
    is_subseq (Dict.keys a) (field_order identity) = true.

(** The value of the last column named [k], among the columns that have
    both a header and a value. *)
Fixpoint last_value (k : str) (header fields : list str) : option str :=
  match header, fields with
  | h :: hs, v :: vs =>
      match last_value k hs vs with
      | Some x => Some x
      | None => if str_eqb h k then Some v else None
      end
  | _, _ => None
  end.

(** The markers of an organization in the first line of a paragraph. *)
Definition org_markers : list str :=
  [py "Inc."; py "LLC"; py "Ltd."; py "Company"; py "Corp."; py "Corporation"].

Definition has_org_marker (s : str) : Prop :=
  exists m pre post, In m org_markers /\ s = pre ++ m ++ post.

(** The first argument that is not a file. *)
Definition first_missing (w : world) (files : list str) : option str :=
  find (fun p => match w p with None => true | Some _ => false end) files.

(** Example inputs for the further properties. *)
Definition shadowed_org_record : ET.element :=
  ET.Element (py "record") None
    [ET.Element k_name (Some (py " ")) [];
     ET.Element k_organization (Some (py "Acme")) []].

Definition two_line_lines : list str :=
  [py "Acme Inc."; py "Springfield, IL 62704"].

Definition one_file_world (name content : str) : world :=
  {| file_at := fun p =>
       if str_eqb p name
       then Some {| f_text := Some content; f_xml := XmlParseError |}
       else None;
     output_writable := true |}.






(** A text without the character [a]. *)
Definition no_char (a : ascii) (s : str) : Prop :=
  forallb (fun c => negb (is_char a c)) s = true.

(** [name] is the last component of [path]: the path is the name, or a
    directory, a slash and the name. *)
Definition file_name (path name : str) : Prop :=
  no_char "/"%char name /\
  (path = name \/ exists dir, path = dir ++ "/"%char :: name).


(** Where a run of characters of a class ends. *)
Definition stops (p : ascii -> bool) (s : str) : Prop :=
  match s with
  | [] => True
  | c :: _ => p c = false
  end.

(* ================================================================== *)
(** * Basic facts *)

Lemma str_eqb_eq a b : str_eqb a b = true <-> a = b.
Proof.
  revert b; induction a as [|x a IH]; intros [|y b]; cbn;
    try (split; [discriminate|congruence]); [tauto|].
  rewrite andb_true_iff, Ascii.eqb_eq, IH. split; [intros [-> ->]|intros [= -> ->]]; auto.
Qed.

Lemma str_eqb_refl a : str_eqb a a = true.
Proof. now apply str_eqb_eq. Qed.

Lemma str_eqb_neq a b : str_eqb a b = false <-> a <> b.
Proof.
  rewrite <- str_eqb_eq. destruct (str_eqb a b); split; congruence.
Qed.

Lemma str_eqb_sym a b : str_eqb a b = str_eqb b a.
Proof.
  destruct (str_eqb a b) eqn:E; symmetry.
  - apply str_eqb_eq in E. subst. apply str_eqb_refl.
  - apply str_eqb_neq. apply str_eqb_neq in E. congruence.
Qed.

Lemma firstn_length_diff (x r : str) :
  firstn (length (x ++ r) - length r) (x ++ r) = x.
Proof.
  rewrite length_app, Nat.add_sub.
  rewrite firstn_app, Nat.sub_diag, firstn_all. simpl. apply app_nil_r.
Qed.

Lemma app_same_length (a b x y : str) :
  length a = length b -> a ++ x = b ++ y -> a = b.
Proof.
  revert b. induction a as [|c a IH]; intros [|c' b] Hl H;
    try discriminate; [reflexivity|].
  injection Hl as Hl. injection H as -> H. f_equal. now apply IH.
Qed.

(* ================================================================== *)
(** * The ZIP normaliser *)

Section ZipKey.
Import Re.

Lemma match_at_zip5_some s m :
  match_at re_zip5 s = Some m ->
  exists w, s = w ++ m_rest m /\ length w = 5 /\
            forallb is_digit w = true /\ group m 1 = Some w.
Proof.
  unfold match_at, re_zip5. cbn [exec Rep].
  destruct s as [|a [|b [|c [|d [|e rest]]]]]; cbn [exec];
    repeat match goal with
           | |- context [if is_digit ?x then _ else _] =>
               destruct (is_digit x) eqn:?
           end; try discriminate.
  intros [= <-]. exists [a; b; c; d; e]. cbn [m_rest].
  repeat split.
  - cbn [forallb].
    repeat match goal with H : is_digit _ = true |- _ => rewrite H; clear H end.
    reflexivity.
  - unfold group, cap_set. cbn [m_caps cap_get Nat.eqb].
    f_equal. apply (firstn_length_diff [a; b; c; d; e] rest).
Qed.

Lemma match_at_zip5_none s w post :
  match_at re_zip5 s = None ->
  s = w ++ post -> length w = 5 -> forallb is_digit w = true -> False.
Proof.
  intros Hm -> Hlen Hd.
  destruct w as [|a [|b [|c [|d [|e [|? ?]]]]]]; try discriminate Hlen.
  cbn [forallb] in Hd.
  repeat (apply andb_prop in Hd; destruct Hd as [? Hd]).
  unfold match_at, re_zip5 in Hm. cbn [exec Rep app] in Hm.
  repeat match goal with
         | H : is_digit _ = true |- _ => rewrite H in Hm; clear H
         end.
  discriminate.
Qed.

Lemma window_at_cons c s j w :
  window_at (c :: s) (S j) w <-> window_at s j w.
Proof.
  unfold window_at; split.
  - intros ([|c' pre] & post & Hs & Hl & Hw); [discriminate|].
    injection Hs as -> ->. injection Hl as <-. now exists pre, post.
  - intros (pre & post & -> & <- & Hw). now exists (c :: pre), post.
Qed.

Lemma window_at_length s j w : window_at s j w -> j + 5 <= length s.
Proof.
  intros (pre & post & -> & <- & Hl & _). rewrite !length_app. lia.
Qed.

(** [re.search] with the pattern of the normaliser: the leftmost digit
    window, or no match when the string has no window. *)
Lemma search_zip5 s :
  match search re_zip5 s with
  | Some m =>
      exists i w, window_at s i w /\
                  (forall j w', window_at s j w' -> i <= j) /\
                  group m 1 = Some w
  | None => forall j w', ~ window_at s j w'
  end.
Proof.
  induction s as [|c s IH].
  - cbn. intros j w' Hw. apply window_at_length in Hw. cbn in Hw. lia.
  - cbn [search]. destruct (match_at re_zip5 (c :: s)) as [m|] eqn:Hm.
    + apply match_at_zip5_some in Hm as (w & Hs & Hl & Hd & Hg).
      exists 0, w. repeat split; [| lia | exact Hg].
      exists [], (m_rest m). now rewrite Hs.
    + destruct (search re_zip5 s) as [m|].
      * destruct IH as (i & w & Hw & Hmin & Hg).
        exists (S i), w. repeat split; [now apply window_at_cons | | exact Hg].
        intros [|j] w' Hw'.
        -- destruct Hw' as ([|? ?] & post & Hs & Hl & Hl5 & Hd);
             [|discriminate].
           exfalso. exact (match_at_zip5_none (c :: s) w' post Hm Hs Hl5 Hd).
        -- apply window_at_cons in Hw'. apply Hmin in Hw'. lia.
      * intros [|j] w' Hw'.
        -- destruct Hw' as ([|? ?] & post & Hs & Hl & Hl5 & Hd);
             [|discriminate].
           exact (match_at_zip5_none (c :: s) w' post Hm Hs Hl5 Hd).
        -- apply window_at_cons in Hw'. exact (IH _ _ Hw').
Qed.
End ZipKey.

(** C1 (as amended).  [normalize_zip_code] is a total function on strings:
    it returns the leftmost five digits in a row of its argument, whether or
    not more digits follow them, and the fallback key ["00000"] exactly when
    the argument has no five digits in a row (the empty string included). *)
Theorem normalize_zip_code_first_window (s : str) :
  (exists i w, window_at s i w /\
               (forall j w', window_at s j w' -> i <= j) /\
               normalize_zip_code s = w)
  \/ ((forall j w', ~ window_at s j w') /\ normalize_zip_code s = fallback_key).
Proof.
  unfold normalize_zip_code.
  pose proof (search_zip5 s) as H.
  destruct s as [|c s].
  - right. split; [exact H | reflexivity].
  - cbn [truthy negb]. unfold group_text.
    destruct (Re.search re_zip5 (c :: s)) as [m|].
    + destruct H as (i & w & Hw & Hmin & Hg). left. exists i, w.
      rewrite Hg. auto.
    + right. auto.
Qed.

(** C1 (as stated) fails: on ["123456"] there is no run of exactly five
    digits, so the stated key is the fallback, but the script returns the
    first five digits of the six. *)
Lemma normalize_zip_code_longer_run :
  normalize_zip_code (py "123456") = py "12345" /\
  spec_zip_key (py "123456") = py "00000" /\
  normalize_zip_code (py "123456") <> spec_zip_key (py "123456").
Proof.
  split; [vm_compute; reflexivity | split; [vm_compute; reflexivity |]].
  vm_compute. discriminate.
Qed.

(* ================================================================== *)
(** * The order on keys and the stable sort *)

Lemma str_compare_refl a : str_compare a a = Eq.
Proof.
  induction a as [|x a IH]; cbn; [reflexivity|].
  now rewrite Nat.compare_refl.
Qed.

Lemma str_compare_antisym a b : str_compare b a = CompOpp (str_compare a b).
Proof.
  revert b; induction a as [|x a IH]; intros [|y b]; cbn; try reflexivity.
  rewrite (Nat.compare_antisym (code x) (code y)).
  destruct (code x ?= code y); cbn; auto.
Qed.

Lemma str_compare_eq a b : str_compare a b = Eq -> a = b.
Proof.
  revert b; induction a as [|x a IH]; intros [|y b]; cbn; try discriminate; auto.
  destruct (code x ?= code y) eqn:E; try discriminate.
  apply Nat.compare_eq in E. intros H. f_equal; [|now apply IH].
  unfold code in E.
  rewrite <- (ascii_nat_embedding x), <- (ascii_nat_embedding y). now f_equal.
Qed.

Lemma str_compare_lt_trans a b c :
  str_compare a b = Lt -> str_compare b c = Lt -> str_compare a c = Lt.
Proof.
  revert b c; induction a as [|x a IH]; intros [|y b] [|z c]; cbn;
    try discriminate; auto.
  destruct (Nat.compare_spec (code x) (code y));
    destruct (Nat.compare_spec (code y) (code z)); try discriminate; intros;
    destruct (Nat.compare_spec (code x) (code z)); try lia; eauto.
Qed.

Lemma str_ltb_irrefl a : str_ltb a a = false.
Proof. unfold str_ltb. now rewrite str_compare_refl. Qed.

Lemma str_ltb_le a b : str_ltb a b = true -> str_le a b.
Proof.
  unfold str_le, str_leb, str_ltb. rewrite (str_compare_antisym a b).
  destruct (str_compare a b); cbn; congruence.
Qed.

Lemma str_le_refl a : str_le a a.
Proof. unfold str_le, str_leb. now rewrite str_ltb_irrefl. Qed.

Lemma str_le_trans a b c : str_le a b -> str_le b c -> str_le a c.
Proof.
  unfold str_le, str_leb, str_ltb. intros Hab Hbc.
  rewrite (str_compare_antisym a b) in Hab.
  rewrite (str_compare_antisym b c) in Hbc.
  rewrite (str_compare_antisym a c).
  destruct (str_compare a b) eqn:Eab; try discriminate;
    destruct (str_compare b c) eqn:Ebc; try discriminate.
  - apply str_compare_eq in Eab, Ebc. subst. now rewrite str_compare_refl.
  - apply str_compare_eq in Eab. subst. now rewrite Ebc.
  - apply str_compare_eq in Ebc. subst. now rewrite Eab.
  - now rewrite (str_compare_lt_trans _ _ _ Eab Ebc).
Qed.

Lemma str_le_total a b : str_le a b \/ str_le b a.
Proof.
  unfold str_le, str_leb, str_ltb. rewrite (str_compare_antisym a b).
  destruct (str_compare a b); cbn; auto.
Qed.

Lemma str_le_antisym a b : str_le a b -> str_le b a -> a = b.
Proof.
  unfold str_le, str_leb, str_ltb. rewrite (str_compare_antisym a b).
  destruct (str_compare a b) eqn:E; cbn; try discriminate.
  intros _ _. now apply str_compare_eq.
Qed.

Section SortedFacts.
Variable A : Type.
Variable key : A -> str.

Local Abbreviation key_le := (key_le key).
Local Abbreviation with_key := (with_key key).

Lemma insert_perm x l : Permutation (x :: l) (insert key x l).
Proof.
  induction l as [|y l IH]; cbn; [reflexivity|].
  destruct (str_ltb (key y) (key x)); [|reflexivity].
  rewrite perm_swap. now constructor.
Qed.

Lemma sorted_perm l : Permutation l (sorted key l).
Proof.
  induction l as [|x l IH]; cbn; [constructor|].
  rewrite <- insert_perm. now constructor.
Qed.

Lemma insert_sorted x l :
  StronglySorted key_le l -> StronglySorted key_le (insert key x l).
Proof.
  induction 1 as [|y l Hs IH Hy]; cbn.
  - repeat constructor.
  - destruct (str_ltb (key y) (key x)) eqn:E.
    + constructor; [exact IH|].
      rewrite <- insert_perm. constructor; [|exact Hy].
      now apply str_ltb_le.
    + assert (Hxy : key_le x y)
        by (unfold key_le, str_le, str_leb; now rewrite E).
      constructor; [now constructor|].
      constructor; [exact Hxy|].
      eapply Forall_impl; [|exact Hy].
      intros z Hz. exact (str_le_trans _ _ _ Hxy Hz).
Qed.

Lemma sorted_sorted l : StronglySorted key_le (sorted key l).
Proof.
  induction l as [|x l IH]; cbn; [constructor|]. now apply insert_sorted.
Qed.

Lemma insert_with_key k x l :
  with_key k (insert key x l) = with_key k (x :: l).
Proof.
  induction l as [|y l IH]; [reflexivity|].
  cbn [insert]. destruct (str_ltb (key y) (key x)) eqn:E; [|reflexivity].
  unfold with_key in *. cbn [filter] in *. rewrite IH.
  destruct (str_eqb (key x) k) eqn:Ex; [|reflexivity].
  destruct (str_eqb (key y) k) eqn:Ey; [|reflexivity].
  apply str_eqb_eq in Ex, Ey. rewrite Ex, Ey, str_ltb_irrefl in E.
  discriminate.
Qed.

Lemma sorted_with_key k l : with_key k (sorted key l) = with_key k l.
Proof.
  induction l as [|x l IH]; [reflexivity|].
  cbn [sorted fold_right]. rewrite insert_with_key.
  unfold with_key in *. cbn [filter]. fold (sorted key l). now rewrite IH.
Qed.
End SortedFacts.

(** C2.  The driver's sort, [sorted(all_addresses, key=...)], returns a
    permutation of the record list that is non-decreasing in the normalised
    ZIP key over the whole list and stable: for every key, the fallback key
    included, the records with that key keep their relative order. *)
Theorem sorted_addresses_stable_sort (all_addresses : list address) :
  let out := sorted sort_key all_addresses in
  Permutation all_addresses out /\
  StronglySorted (key_le sort_key) out /\
  (forall k, with_key sort_key k out = with_key sort_key k all_addresses).
Proof.
  cbn zeta. split; [apply sorted_perm|]. split; [apply sorted_sorted|].
  intros k. apply sorted_with_key.
Qed.

(* ================================================================== *)
(** * Dictionaries *)

Module DictFacts.
Import Dict.

Lemma get_set k k' v d :
  get k (set k' v d) = if str_eqb k' k then Some v else get k d.
Proof.
  induction d as [|[k0 v0] d IH]; cbn; [reflexivity|].
  destruct (str_eqb k0 k') eqn:E0; cbn.
  - apply str_eqb_eq in E0. subst k0. now destruct (str_eqb k' k).
  - rewrite IH. destruct (str_eqb k0 k) eqn:E1; [|reflexivity].
    apply str_eqb_eq in E1. subst k0. now rewrite str_eqb_sym, E0.
Qed.

Lemma mem_set k k' v d : mem k (set k' v d) = str_eqb k' k || mem k d.
Proof. unfold mem. rewrite get_set. now destruct (str_eqb k' k). Qed.

Lemma mem_set_same k v d : mem k (set k v d) = true.
Proof. now rewrite mem_set, str_eqb_refl. Qed.

Lemma len_set k v d :
  len (set k v d) = if mem k d then len d else S (len d).
Proof.
  unfold len, mem. induction d as [|[k0 v0] d IH]; cbn; [reflexivity|].
  destruct (str_eqb k0 k); cbn; [reflexivity|].
  rewrite IH. now destruct (get k d).
Qed.

Lemma keys_set k v d :
  keys (set k v d) = if mem k d then keys d else keys d ++ [k].
Proof.
  unfold keys, mem. induction d as [|[k0 v0] d IH]; cbn; [reflexivity|].
  destruct (str_eqb k0 k); cbn; [reflexivity|].
  rewrite IH. now destruct (get k d).
Qed.

Lemma mem_keys k d : mem k d = true <-> In k (keys d).
Proof.
  unfold mem, keys. induction d as [|[k0 v0] d IH]; cbn.
  - split; [discriminate|tauto].
  - destruct (str_eqb k0 k) eqn:E.
    + apply str_eqb_eq in E. tauto.
    + apply str_eqb_neq in E. rewrite IH. tauto.
Qed.

Lemma values_all_set (P : str -> Prop) k v d :
  P v -> values_all P d -> values_all P (set k v d).
Proof.
  unfold values_all. intros Hv. induction 1 as [|[k0 v0] d H0 Hd IH]; cbn.
  - now repeat constructor.
  - destruct (str_eqb k0 k); constructor; auto.
Qed.

End DictFacts.

(* ================================================================== *)
(** * Identity fields of emitted records *)

Lemma In_filter_map {A B : Type} (f : A -> option B) (l : list A) (y : B) :
  In y (filter_map f l) <-> exists x, In x l /\ f x = Some y.
Proof.
  induction l as [|x l IH]; cbn.
  - split; [tauto | intros (x & [] & _)].
  - destruct (f x) as [y'|] eqn:E; cbn; rewrite IH; split.
    + intros [<- | (x' & Hin & Hf)]; eauto.
    + intros (x' & [<- | Hin] & Hf); [left; congruence | eauto].
    + intros (x' & Hin & Hf); eauto.
    + intros (x' & [<- | Hin] & Hf); [congruence | eauto].
Qed.

Lemma both_identities_set k v a :
  is_identity_key k = false ->
  both_identities (Dict.set k v a) = both_identities a.
Proof.
  unfold is_identity_key, both_identities. intros H.
  apply orb_false_elim in H as [Hn Ho].
  now rewrite !DictFacts.mem_set, Hn, Ho.
Qed.

Lemma has_identity_set k v a :
  is_identity_key k = false ->
  has_identity (Dict.set k v a) = has_identity a.
Proof.
  unfold is_identity_key, has_identity. intros H.
  apply orb_false_elim in H as [Hn Ho].
  now rewrite !DictFacts.mem_set, Hn, Ho.
Qed.

Lemma xml_component_both record tag key a :
  is_identity_key key = false ->
  both_identities (xml_component record tag key a) = both_identities a.
Proof.
  intros H. unfold xml_component.
  destruct (xml_text _); [now apply both_identities_set | reflexivity].
Qed.

Lemma xml_record_exclusive record a :
  xml_record record = Some a -> both_identities a = false.
Proof.
  unfold xml_record.
  destruct (xml_text (ET.find k_name record)) as [t|];
    [|destruct (xml_text (ET.find k_organization record)) as [t|];
      [|discriminate]];
    intros [= <-]; rewrite !xml_component_both by reflexivity; reflexivity.
Qed.

Lemma tsv_copy_both cd col key a :
  is_identity_key key = false ->
  both_identities (tsv_copy cd col key a) = both_identities a.
Proof.
  intros H. unfold tsv_copy.
  destruct (present _ _ _); [now apply both_identities_set | reflexivity].
Qed.

Lemma tsv_address_exclusive cd : both_identities (tsv_address cd) = false.
Proof.
  unfold tsv_address.
  assert (H : forall a, both_identities a = false ->
    both_identities
      match present cd k_zip NA with
      | Some zip_code =>
          Dict.set k_zip
            match present cd (py "zip4") NA with
            | Some z4 => zip_code ++ py "-" ++ z4
            | None => zip_code
            end a
      | None => a
      end = false).
  { intros a Ha. destruct (present cd k_zip NA); [|exact Ha].
    now rewrite both_identities_set. }
  apply H. rewrite !tsv_copy_both by reflexivity.
  destruct (present cd k_organization NA); [reflexivity|].
  destruct (Dict.get (py "first") cd); [|reflexivity].
  destruct (Dict.get (py "last") cd); reflexivity.
Qed.

Lemma tsv_row_some header line a :
  tsv_row header line = Some a ->
  a = tsv_address (column_data header (tsv_fields line)) /\
  tsv_accept a = true /\ truthy (strip line) = true.
Proof.
  unfold tsv_row. destruct (truthy (strip line)); cbn [negb]; [|discriminate].
  destruct (tsv_accept _) eqn:E; [|discriminate].
  intros [= <-]. auto.
Qed.

Lemma txt_location_both last_line a :
  both_identities (txt_location last_line a) = both_identities a.
Proof.
  unfold txt_location. destruct (Re.search re_location last_line) as [m|];
    [|reflexivity].
  destruct (Re.group m 2) as [g|]; [destruct (truthy g)|];
    now rewrite !both_identities_set by reflexivity.
Qed.

Lemma txt_address_exclusive first_line lines :
  both_identities (txt_address first_line lines) = false.
Proof.
  unfold txt_address.
  destruct (3 <=? _); [rewrite txt_location_both|];
    (destruct (2 <=? _); [rewrite both_identities_set by reflexivity|]);
    destruct (is_match _); reflexivity.
Qed.

Lemma txt_record_some record a :
  txt_record record = Some a ->
  exists first_line rest,
    map strip (split_on nl (strip record)) = first_line :: rest /\
    a = txt_address first_line (first_line :: rest).
Proof.
  unfold txt_record. destruct (negb (truthy (strip record))); [discriminate|].
  destruct (map strip (split_on nl (strip record))) as [|first_line rest];
    [discriminate|].
  intros [= <-]. now exists first_line, rest.
Qed.

Lemma txt_record_exclusive record a :
  txt_record record = Some a -> both_identities a = false.
Proof.
  intros H. apply txt_record_some in H as (f & rest & _ & ->).
  apply txt_address_exclusive.
Qed.

(** C3.  No record that the markup, the tabular or the free-text parser
    returns has both the [name] key and the [organization] key. *)
Theorem emitted_identity_exclusive (f : format) (a : address) :
  emitted_by f a ->
  Dict.mem k_name a && Dict.mem k_organization a = false.
Proof.
  intros [root a' Hin | lines rs a' Hrs Hin | content a' Hin].
  - apply In_filter_map in Hin as (r & _ & Hr).
    exact (xml_record_exclusive _ _ Hr).
  - destruct lines as [|first rest]; [discriminate|].
    injection Hrs as <-.
    apply In_filter_map in Hin as (line & _ & Hr).
    apply tsv_row_some in Hr as (-> & _). apply tsv_address_exclusive.
  - apply In_filter_map in Hin as (r & _ & Hr).
    exact (txt_record_exclusive _ _ Hr).
Qed.

Lemma jane_doe_emitted : emitted_by Markup jane_doe.
Proof. apply (emitted_xml jane_doe_root). now left. Qed.

Lemma emitted_identity_exclusive_witness :
  emitted_by Markup jane_doe /\
  Dict.mem k_name jane_doe && Dict.mem k_organization jane_doe = false.
Proof.
  split; [exact jane_doe_emitted|].
  exact (emitted_identity_exclusive Markup jane_doe jane_doe_emitted).
Defined.

(* ================================================================== *)
(** * The tabular parser: acceptance *)

Lemma keys_set_nodup k v d :
  NoDup (Dict.keys d) -> NoDup (Dict.keys (Dict.set k v d)).
Proof.
  intros H. rewrite DictFacts.keys_set.
  destruct (Dict.mem k d) eqn:E; [exact H|].
  apply NoDup_rev in H. rewrite <- (rev_involutive (_ ++ _)).
  apply NoDup_rev. rewrite rev_app_distr. cbn. constructor; [|exact H].
  rewrite <- in_rev. intros Hin. apply DictFacts.mem_keys in Hin. congruence.
Qed.

Lemma tsv_copy_nodup cd col key a :
  NoDup (Dict.keys a) -> NoDup (Dict.keys (tsv_copy cd col key a)).
Proof.
  intros H. unfold tsv_copy.
  destruct (present _ _ _); [now apply keys_set_nodup | exact H].
Qed.

Lemma tsv_address_nodup cd : NoDup (Dict.keys (tsv_address cd)).
Proof.
  unfold tsv_address.
  destruct (present cd k_zip NA); [apply keys_set_nodup|];
    repeat apply tsv_copy_nodup;
    (destruct (present cd k_organization NA);
     [|destruct (Dict.get (py "first") cd);
       [destruct (Dict.get (py "last") cd)|]]);
    repeat constructor; cbn; tauto.
Qed.

Lemma two_distinct_members {A : Type} (x y : A) (l : list A) :
  In x l -> In y l -> x <> y -> 2 <= length l.
Proof.
  destruct l as [|a [|b l]]; cbn; try tauto; [|lia].
  intros [<-|[]] [<-|[]] H. now destruct H.
Qed.

Lemma is_identity_key_cases k :
  is_identity_key k = true -> k = k_name \/ k = k_organization.
Proof.
  unfold is_identity_key. intros H. apply orb_prop in H.
  destruct H as [H|H]; apply str_eqb_eq in H; auto.
Qed.

(** On a record with distinct keys and at most one identity field, the
    acceptance test of the tabular parser says: an identity field and a field
    besides. *)
Lemma tsv_accept_spec (a : address) :
  NoDup (Dict.keys a) -> both_identities a = false ->
  tsv_accept a = has_identity a && has_other_field a.
Proof.
  intros Hnd Hex. unfold tsv_accept. fold (has_identity a).
  destruct (has_identity a) eqn:Hid; [cbn [andb]|reflexivity].
  unfold Dict.len. change (length a) with (length a).
  replace (length a) with (length (Dict.keys a))
    by (unfold Dict.keys; apply length_map).
  destruct (has_other_field a) eqn:Ho.
  - apply Nat.ltb_lt. unfold has_other_field in Ho.
    apply existsb_exists in Ho as (k2 & Hk2 & Hn2).
    apply negb_true_iff in Hn2.
    unfold has_identity in Hid. apply orb_prop in Hid.
    destruct Hid as [H1|H1]; apply DictFacts.mem_keys in H1;
      (eapply two_distinct_members; [exact H1 | exact Hk2 |]);
      intros <-; discriminate Hn2.
  - apply Nat.ltb_ge. unfold has_other_field in Ho.
    destruct (Dict.keys a) as [|k1 [|k2 l]] eqn:Hk; cbn; try lia.
    exfalso. cbn [existsb] in Ho.
    apply orb_false_elim in Ho as [H1 Ho].
    apply orb_false_elim in Ho as [H2 _].
    apply negb_false_iff in H1, H2.
    apply is_identity_key_cases in H1, H2.
    assert (Hne : k1 <> k2).
    { inversion Hnd as [|? ? Hni _]. intros ->. apply Hni. now left. }
    assert (Hm1 : Dict.mem k1 a = true)
      by (apply DictFacts.mem_keys; rewrite Hk; now left).
    assert (Hm2 : Dict.mem k2 a = true)
      by (apply DictFacts.mem_keys; rewrite Hk; right; now left).
    unfold both_identities in Hex.
    destruct H1 as [-> | ->], H2 as [-> | ->]; try congruence;
      rewrite Hm1, Hm2 in Hex; discriminate.
Qed.

(** C5.  For a data line that is not blank, the tabular parser emits the
    record it built exactly when that record has an identity field ([name] or
    [organization]) and a field besides; a record with the [name] key alone
    is not emitted. *)
Theorem tsv_row_acceptance (header : list str) (line : str) :
  truthy (strip line) = true ->
  let a := tsv_address (column_data header (tsv_fields line)) in
  (tsv_row header line = Some a <->
     has_identity a = true /\ has_other_field a = true) /\
  (tsv_row header line = None <->
     ~ (has_identity a = true /\ has_other_field a = true)) /\
  (Dict.keys a = [k_name] -> tsv_row header line = None).
Proof.
  intros Hline a.
  assert (Hrow : tsv_row header line =
                 if has_identity a && has_other_field a then Some a else None).
  { unfold tsv_row. rewrite Hline. cbn [negb]. fold a.
    rewrite (tsv_accept_spec a);
      [reflexivity | apply tsv_address_nodup | apply tsv_address_exclusive]. }
  rewrite Hrow. split; [|split].
  - destruct (has_identity a), (has_other_field a); cbn;
      intuition (try discriminate; try congruence).
  - destruct (has_identity a), (has_other_field a); cbn;
      intuition (try discriminate; try congruence).
  - intros Hk. unfold has_other_field. rewrite Hk. cbn.
    now rewrite andb_false_r.
Qed.

Lemma tsv_row_acceptance_witness :
  truthy (strip (tsv_line [py "John"; py "Smith"])) = true /\
  tsv_row [py "first"; py "last"; k_city] (tsv_line [py "John"; py "Smith"])
  = None.
Proof.
  split; [reflexivity|].
  pose proof (tsv_row_acceptance [py "first"; py "last"; k_city]
                (tsv_line [py "John"; py "Smith"]) eq_refl) as H.
  cbv zeta in H. destruct H as (_ & _ & H). apply H. reflexivity.
Defined.

(* ================================================================== *)
(** * The tabular parser: a row with sentinels and a split ZIP code *)

Lemma column_data_blank_line header k v :
  Dict.get k (column_data header [[]]) = Some v -> v = [].
Proof.
  destruct header as [|h hs]; cbn; [discriminate|].
  destruct hs; cbn; destruct (str_eqb h k); congruence.
Qed.

(** C6.  A row whose columns give organization [N/A], first [John], middle
    [N/M/N], last [Smith], zip [90210] and zip4 [1234], and no street, city,
    county or state, yields exactly the record with name ["John Smith"] and
    zip ["90210-1234"]. *)
Theorem tsv_row_john_smith (header : list str) (line : str) :
  let cd := column_data header (tsv_fields line) in
  Dict.get k_organization cd = Some (py "N/A") ->
  Dict.get (py "first") cd = Some (py "John") ->
  Dict.get (py "middle") cd = Some (py "N/M/N") ->
  Dict.get (py "last") cd = Some (py "Smith") ->
  Dict.get k_zip cd = Some (py "90210") ->
  Dict.get (py "zip4") cd = Some (py "1234") ->
  present cd (py "address") NA = None ->
  present cd k_city NA = None ->
  present cd k_county NA = None ->
  present cd k_state NA = None ->
  tsv_row header line = Some john_smith.
Proof.
  intros cd Horg Hfirst Hmid Hlast Hzip Hzip4 Hstreet Hcity Hcounty Hstate.
  assert (Hline : truthy (strip line) = true).
  { destruct (strip line) eqn:E; [|reflexivity].
    unfold cd, tsv_fields in Horg. rewrite E in Horg.
    apply column_data_blank_line in Horg. discriminate. }
  unfold tsv_row. rewrite Hline. cbn [negb]. fold cd.
  assert (Ha : tsv_address cd = john_smith).
  { unfold tsv_address, tsv_copy.
    rewrite Hstreet, Hcity, Hcounty, Hstate.
    unfold present. rewrite Horg, Hfirst, Hmid, Hlast, Hzip, Hzip4.
    reflexivity. }
  rewrite Ha. reflexivity.
Qed.

Lemma tsv_row_john_smith_witness :
  tsv_row john_smith_header john_smith_line = Some john_smith.
Proof.
  apply (tsv_row_john_smith john_smith_header john_smith_line);
    vm_compute; reflexivity.
Defined.

(* ================================================================== *)
(** * White space and [strip] *)

Lemma is_blank_app a b : is_blank (a ++ b) = is_blank a && is_blank b.
Proof. apply forallb_app. Qed.

Lemma is_blank_rev s : is_blank (rev s) = is_blank s.
Proof.
  induction s as [|c s IH]; [reflexivity|].
  cbn [rev]. rewrite is_blank_app, IH. cbn. rewrite andb_true_r. apply andb_comm.
Qed.

Lemma truthy_rev s : truthy (rev s) = truthy s.
Proof.
  destruct s as [|c s]; [reflexivity|]. cbn.
  destruct (rev s ++ [c]) eqn:E; [|reflexivity].
  now apply app_eq_nil in E as [_ E].
Qed.

Lemma is_blank_lstrip s : is_blank (lstrip s) = is_blank s.
Proof.
  induction s as [|c s IH]; [reflexivity|].
  cbn. destruct (is_space c) eqn:E; [exact IH|]. cbn. now rewrite E.
Qed.

Lemma truthy_lstrip s : truthy (lstrip s) = negb (is_blank s).
Proof.
  induction s as [|c s IH]; [reflexivity|].
  cbn. destruct (is_space c); [exact IH | reflexivity].
Qed.

Lemma is_blank_rstrip s : is_blank (rstrip s) = is_blank s.
Proof. unfold rstrip. now rewrite is_blank_rev, is_blank_lstrip, is_blank_rev. Qed.

Lemma truthy_rstrip s : truthy (rstrip s) = negb (is_blank s).
Proof. unfold rstrip. now rewrite truthy_rev, truthy_lstrip, is_blank_rev. Qed.

Lemma is_blank_strip s : is_blank (strip s) = is_blank s.
Proof. unfold strip. now rewrite is_blank_rstrip, is_blank_lstrip. Qed.

Lemma truthy_strip s : truthy (strip s) = negb (is_blank s).
Proof. unfold strip. now rewrite truthy_rstrip, is_blank_lstrip. Qed.

(** A stripped string that is not empty is not blank. *)
Lemma strip_truthy_non_blank raw :
  truthy (strip raw) = true -> non_blank (strip raw).
Proof.
  unfold non_blank. rewrite truthy_strip, is_blank_strip.
  now destruct (is_blank raw).
Qed.

(* ================================================================== *)
(** * Field values of markup and tabular records *)

Lemma Forall_set (Q : str * str -> Prop) k v d :
  Q (k, v) -> Forall Q d -> Forall Q (Dict.set k v d).
Proof.
  intros Hv. induction 1 as [|[k0 v0] d H0 Hd IH]; cbn.
  - now repeat constructor.
  - destruct (str_eqb k0 k) eqn:E; constructor; auto.
    apply str_eqb_eq in E. now subst.
Qed.

Lemma get_In k v d : Dict.get k d = Some v -> In (k, v) d.
Proof.
  induction d as [|[k0 v0] d IH]; cbn; [discriminate|].
  destruct (str_eqb k0 k) eqn:E; [|auto].
  apply str_eqb_eq in E. intros [= ->]. left. now subst.
Qed.

Lemma xml_text_field record k t :
  xml_text (ET.find k record) = Some t -> markup_field record (k, strip t).
Proof.
  unfold xml_text, markup_field. cbn [fst snd].
  destruct (ET.find k record) as [el|]; [|discriminate].
  destruct (ET.text el) as [t'|] eqn:Et; [|discriminate].
  destruct (truthy t') eqn:E; [|discriminate]. intros [= <-].
  exists el, t'. split; [reflexivity|]. split; [exact Et|].
  split; [exact E|]. split; [reflexivity|].
  unfold non_blank. now rewrite is_blank_strip.
Qed.

Lemma xml_component_values record k a :
  Forall (markup_field record) a ->
  Forall (markup_field record) (xml_component record k k a).
Proof.
  intros H. unfold xml_component.
  destruct (xml_text _) as [t|] eqn:E; [|exact H].
  apply Forall_set; [|exact H]. now apply xml_text_field.
Qed.

Lemma xml_record_values record a :
  xml_record record = Some a -> Forall (markup_field record) a.
Proof.
  unfold xml_record.
  destruct (xml_text (ET.find k_name record)) as [t|] eqn:En;
    [|destruct (xml_text (ET.find k_organization record)) as [t|] eqn:Eo;
      [|discriminate]];
    intros [= <-]; repeat apply xml_component_values;
    (constructor; [|constructor]); now apply xml_text_field.
Qed.

Lemma fill_columns_stripped header fields cd :
  Dict.values_all stripped cd ->
  Dict.values_all stripped (fill_columns header fields cd).
Proof.
  revert fields cd. induction header as [|h hs IH]; intros [|v vs] cd H;
    cbn; auto.
  apply IH. apply DictFacts.values_all_set; [now exists v | exact H].
Qed.

Lemma present_non_blank header fields col sentinel v :
  present (column_data header fields) col sentinel = Some v -> non_blank v.
Proof.
  unfold present.
  destruct (Dict.get col _) as [v'|] eqn:E; [|discriminate].
  destruct (truthy v') eqn:Et; cbn [andb]; [|discriminate].
  destruct (negb _); [|discriminate]. intros [= <-].
  apply get_In in E.
  pose proof (fill_columns_stripped header fields Dict.empty (Forall_nil _))
    as H.
  unfold Dict.values_all in H. rewrite Forall_forall in H.
  specialize (H _ E). cbn [snd] in H. destruct H as [raw ->].
  now apply strip_truthy_non_blank.
Qed.

Lemma non_blank_value_ok cd k v : non_blank v -> tsv_value_ok cd (k, v).
Proof.
  intros H. split; [|auto]. cbn. intros ->. discriminate H.
Qed.

Lemma column_data_stripped header fields k v :
  Dict.get k (column_data header fields) = Some v -> stripped v.
Proof.
  intros E. apply get_In in E.
  pose proof (fill_columns_stripped header fields Dict.empty (Forall_nil _))
    as H.
  unfold Dict.values_all in H. rewrite Forall_forall in H.
  exact (H _ E).
Qed.

Lemma stripped_blank v : stripped v -> is_blank v = true -> v = [].
Proof.
  intros [raw ->] H. pose proof (truthy_strip raw) as Ht.
  rewrite is_blank_strip in H. rewrite H in Ht. now destruct (strip raw).
Qed.

(** The composed name is blank only when it is the joining space alone. *)
Lemma tsv_name_value header fields first last :
  let cd := column_data header fields in
  Dict.get (py "first") cd = Some first ->
  Dict.get (py "last") cd = Some last ->
  tsv_value_ok cd
    (k_name,
     join (py " ")
       ([first]
          ++ match present cd (py "middle") NMN with
             | Some m => [m]
             | None => []
             end ++ [last])).
Proof.
  intros cd Hf Hl. split; [|split; [cbn; congruence|]]; cbn [fst snd].
  - destruct (present cd (py "middle") NMN); cbn;
      intros H; apply app_eq_nil in H as [_ H]; discriminate.
  - intros _.
    destruct (present cd (py "middle") NMN) as [m|] eqn:Em.
    + left. apply present_non_blank in Em. unfold non_blank in *.
      cbn [app join]. rewrite !is_blank_app, Em.
      now rewrite !andb_false_r.
    + cbn [app join].
      destruct (is_blank first) eqn:Bf; [destruct (is_blank last) eqn:Bl|].
      * right.
        pose proof (stripped_blank first (column_data_stripped _ _ _ _ Hf) Bf).
        pose proof (stripped_blank last (column_data_stripped _ _ _ _ Hl) Bl).
        subst first last. auto.
      * left. unfold non_blank. rewrite !is_blank_app, Bl.
        now rewrite !andb_false_r.
      * left. unfold non_blank. now rewrite is_blank_app, Bf.
Qed.

Lemma tsv_address_values header fields :
  Forall (tsv_value_ok (column_data header fields))
         (tsv_address (column_data header fields)).
Proof.
  set (cd := column_data header fields).
  assert (Hp : forall col s v, present cd col s = Some v -> non_blank v)
    by (intros col s v; apply present_non_blank).
  assert (Hcopy : forall col key a,
             Forall (tsv_value_ok cd) a ->
             Forall (tsv_value_ok cd) (tsv_copy cd col key a)).
  { intros col key a Ha. unfold tsv_copy.
    destruct (present cd col NA) as [v|] eqn:E; [|exact Ha].
    apply Forall_set; [|exact Ha]. apply non_blank_value_ok. eauto. }
  unfold tsv_address.
  assert (Hid : Forall (tsv_value_ok cd)
    match present cd k_organization NA with
    | Some o => Dict.set k_organization o Dict.empty
    | None =>
        match Dict.get (py "first") cd, Dict.get (py "last") cd with
        | Some first, Some last =>
            Dict.set k_name
              (join (py " ")
                 ([first]
                    ++ match present cd (py "middle") NMN with
                       | Some m => [m]
                       | None => []
                       end ++ [last])) Dict.empty
        | _, _ => Dict.empty
        end
    end).
  { destruct (present cd k_organization NA) as [o|] eqn:Eo.
    - apply Forall_set; [|constructor]. apply non_blank_value_ok. eauto.
    - destruct (Dict.get (py "first") cd) as [first|] eqn:Ef; [|constructor].
      destruct (Dict.get (py "last") cd) as [last|] eqn:El; [|constructor].
      apply Forall_set; [|constructor].
      exact (tsv_name_value header fields first last Ef El). }
  destruct (present cd k_zip NA) as [z|] eqn:Ez.
  - apply Forall_set; [|auto]. apply non_blank_value_ok.
    assert (Hz : non_blank z) by eauto.
    destruct (present cd (py "zip4") NA); [|exact Hz].
    unfold non_blank in *. now rewrite is_blank_app, Hz.
  - auto.
Qed.

(** C4 (as amended).  A record of the markup parser is the record of one
    [record] element of the file, and each of its fields is the stripped
    text of the first child of that element with the tag of the field, a
    text that is not empty; the field is non-blank exactly when that text
    has a character that is not white space.  A record of the tabular parser
    is the record of one data line of the file, and none of its fields is
    the empty string; every field is non-blank, except that the [name] of a
    row whose [first] and [last] columns are empty and whose [middle] column
    is not usable is a single space. *)
Theorem emitted_field_values (a : address) :
  (forall root, In a (xml_records root) ->
     exists record,
       In record (ET.findall (py "record") root) /\
       xml_record record = Some a /\
       forall k v, In (k, v) a -> markup_field record (k, v)) /\
  (forall lines rs, tsv_records lines = Some rs -> In a rs ->
     exists first line,
       hd_error lines = Some first /\ In line (tl lines) /\
       tsv_row (split_on tab (strip first)) line = Some a /\
       forall k v, In (k, v) a ->
         v <> [] /\
         (k <> k_name -> non_blank v) /\
         (k = k_name ->
          non_blank v \/
          (v = py " " /\
           Dict.get (py "first")
             (column_data (split_on tab (strip first)) (tsv_fields line))
           = Some [] /\
           Dict.get (py "last")
             (column_data (split_on tab (strip first)) (tsv_fields line))
           = Some [] /\
           present (column_data (split_on tab (strip first)) (tsv_fields line))
             (py "middle") NMN = None))).
Proof.
  split.
  - intros root Hin. apply In_filter_map in Hin as (r & Hr & Hrec).
    exists r. split; [exact Hr|]. split; [exact Hrec|].
    apply xml_record_values in Hrec. rewrite Forall_forall in Hrec.
    intros k v Hkv. exact (Hrec _ Hkv).
  - intros lines rs Hrs Hin. destruct lines as [|first rest]; [discriminate|].
    injection Hrs as <-.
    apply In_filter_map in Hin as (line & Hl & Hr).
    exists first, line. split; [reflexivity|]. split; [exact Hl|].
    split; [exact Hr|].
    apply tsv_row_some in Hr as (-> & _).
    pose proof (tsv_address_values (split_on tab (strip first)) (tsv_fields line))
      as H.
    rewrite Forall_forall in H. intros k v Hkv. exact (H _ Hkv).
Qed.

Lemma emitted_field_values_witness :
  (exists record,
     In record (ET.findall (py "record") jane_doe_root) /\
     xml_record record = Some jane_doe /\
     forall k v, In (k, v) jane_doe -> markup_field record (k, v)) /\
  (forall k v, In (k, v) john_smith -> v <> [] /\ (k <> k_name -> non_blank v)).
Proof.
  split.
  - exact (proj1 (emitted_field_values jane_doe) jane_doe_root
             (or_introl eq_refl)).
  - destruct (proj2 (emitted_field_values john_smith)
                [tsv_line john_smith_header; john_smith_line] [john_smith]
                eq_refl (or_introl eq_refl))
      as (first & line & _ & _ & _ & H).
    intros k v Hkv. destruct (H k v Hkv) as (H1 & H2 & _). now split.
Defined.

(** C4 (as stated) fails for both parsers: a [name] element whose text is
    one space is stored as the empty string, and a row with empty [first] and
    [last] columns is stored with the name [" "]. *)
Lemma blank_values_emitted :
  (emitted_by Markup blank_name_record /\
   In (k_name, py "") blank_name_record /\ is_blank (py "") = true) /\
  (emitted_by Tabular blank_name_row_record /\
   In (k_name, py " ") blank_name_row_record /\ is_blank (py " ") = true).
Proof.
  split; (split; [|split; [now left | reflexivity]]).
  - apply (emitted_xml blank_name_root). now left.
  - apply (emitted_tsv blank_name_lines [blank_name_row_record]);
      [reflexivity | now left].
Qed.

(* ================================================================== *)
(** * The tabular parser: stripping before splitting *)

Lemma lstrip_blank s : is_blank s = true -> lstrip s = [].
Proof.
  induction s as [|c s IH]; [reflexivity|]. cbn.
  destruct (is_space c); [exact IH | discriminate].
Qed.

Lemma lstrip_blank_app pre s : is_blank pre = true -> lstrip (pre ++ s) = lstrip s.
Proof.
  induction pre as [|c pre IH]; [reflexivity|]. cbn.
  destruct (is_space c); [exact IH | discriminate].
Qed.

Lemma lstrip_app_non_blank s t :
  is_blank s = false -> lstrip (s ++ t) = lstrip s ++ t.
Proof.
  induction s as [|c s IH]; [discriminate|]. cbn.
  destruct (is_space c); [exact IH | reflexivity].
Qed.

Lemma rstrip_app_blank s post :
  is_blank post = true -> rstrip (s ++ post) = rstrip s.
Proof.
  intros H. unfold rstrip. rewrite rev_app_distr, lstrip_blank_app; [reflexivity|].
  now rewrite is_blank_rev.
Qed.

(** White space around a string does not change what [strip] returns. *)
Lemma strip_surrounded pre s post :
  is_blank pre = true -> is_blank post = true ->
  strip (pre ++ s ++ post) = strip s.
Proof.
  intros Hpre Hpost. unfold strip. rewrite lstrip_blank_app by exact Hpre.
  destruct (is_blank s) eqn:Hs.
  - rewrite (lstrip_blank s Hs), lstrip_blank; [reflexivity|].
    now rewrite is_blank_app, Hs.
  - rewrite lstrip_app_non_blank by exact Hs. now apply rstrip_app_blank.
Qed.

Lemma is_blank_tabs k : is_blank (repeat tab k) = true.
Proof. induction k as [|k IH]; [reflexivity | exact IH]. Qed.

Lemma split_on_cons_tab s : split_on tab (tab :: s) = [] :: split_on tab s.
Proof. reflexivity. Qed.

Lemma split_on_tabs_app k s :
  split_on tab (repeat tab k ++ s) = repeat [] k ++ split_on tab s.
Proof.
  induction k as [|k IH]; [reflexivity|].
  cbn [repeat app]. now rewrite split_on_cons_tab, IH.
Qed.

Lemma split_on_not_nil sep s : split_on sep s <> [].
Proof.
  destruct s as [|c s]; cbn; [discriminate|].
  destruct (Ascii.eqb c sep); [discriminate|].
  destruct (split_on sep s); discriminate.
Qed.

Lemma split_on_app_tabs s k :
  split_on tab (s ++ repeat tab k) = split_on tab s ++ repeat [] k.
Proof.
  induction s as [|c s IH].
  - cbn [app]. rewrite <- (app_nil_r (repeat tab k)), split_on_tabs_app.
    cbn [split_on]. clear. induction k as [|k IH]; [reflexivity|].
    cbn. now rewrite IH.
  - cbn [app split_on]. rewrite IH.
    destruct (Ascii.eqb c tab); [reflexivity|].
    destruct (split_on tab s) eqn:E; [|reflexivity].
    now apply split_on_not_nil in E.
Qed.

Lemma lstrip_idem s : lstrip (lstrip s) = lstrip s.
Proof.
  induction s as [|c s IH]; [reflexivity|]. cbn.
  destruct (is_space c) eqn:E; [exact IH|]. cbn. now rewrite E.
Qed.

Lemma lstrip_decompose s :
  exists pre, is_blank pre = true /\ s = pre ++ lstrip s.
Proof.
  induction s as [|c s (pre & Hb & Hs)]; [now exists []|]. cbn.
  destruct (is_space c) eqn:E; [|now exists []].
  exists (c :: pre). split.
  - change (is_space c && is_blank pre = true). now rewrite E, Hb.
  - cbn. congruence.
Qed.

Lemma rstrip_decompose s :
  exists post, is_blank post = true /\ s = rstrip s ++ post.
Proof.
  destruct (lstrip_decompose (rev s)) as (pre & Hb & Hs).
  exists (rev pre). rewrite is_blank_rev. split; [exact Hb|].
  unfold rstrip. rewrite <- rev_app_distr, <- Hs. symmetry. apply rev_involutive.
Qed.

(** A string is its stripped form with white space before and after. *)
Lemma strip_decompose s :
  exists pre post,
    is_blank pre = true /\ is_blank post = true /\ s = pre ++ strip s ++ post.
Proof.
  destruct (lstrip_decompose s) as (pre & Hpre & Hs).
  destruct (rstrip_decompose (lstrip s)) as (post & Hpost & Hl).
  exists pre, post. repeat split; auto. unfold strip. congruence.
Qed.

Lemma strip_idem s : strip (strip s) = strip s.
Proof.
  destruct (strip_decompose s) as (pre & post & Hpre & Hpost & Hs).
  rewrite Hs at 2. symmetry. now apply strip_surrounded.
Qed.













(* ================================================================== *)
(** * The driver: all or nothing *)

Lemma quiet_ret {A : Type} (a : A) : quiet (ret a).
Proof. intros s. now split. Qed.

Lemma quiet_eprint d : quiet (eprint d).
Proof. intros s. now split. Qed.

Lemma quiet_exit {A : Type} c : quiet (@sys_exit A c).
Proof. intros s. now split. Qed.

Lemma quiet_raise {A : Type} : quiet (@raise A).
Proof. intros s. now split. Qed.

Lemma quiet_bind {A B : Type} (m : M A) (f : A -> M B) :
  quiet m -> (forall a, quiet (f a)) -> quiet (bind m f).
Proof.
  intros Hm Hf s. unfold bind. specialize (Hm s).
  destruct (m s) as [[a|c|] s']; cbn [snd] in *; [|exact Hm|exact Hm].
  destruct (Hf a s') as [H1 H2]. destruct Hm as [H3 H4]. split; congruence.
Qed.

Lemma quiet_parse_file (w : world) filepath : quiet (parse_file w filepath).
Proof.
  unfold parse_file, parse_xml_file, parse_tsv_file, parse_txt_file.
  repeat match goal with
         | |- quiet (if ?b then _ else _) => destruct b
         | |- quiet (match ?x with _ => _ end) => destruct x
         | |- quiet (bind _ _) => apply quiet_bind; [|intros ?]
         | |- _ => first [apply quiet_ret | apply quiet_eprint | apply quiet_raise]
         end.
Qed.

Lemma parse_file_outcome (w : world) filepath s :
  fst (parse_file w filepath s) = parse_outcome w filepath.
Proof.
  unfold parse_outcome, parse_file, parse_xml_file, parse_tsv_file,
    parse_txt_file.
  repeat match goal with
         | |- context [if ?b then _ else _] => destruct b
         | |- context [match ?x with _ => _ end] => destruct x
         end; reflexivity.
Qed.

Lemma quiet_check_files (w : world) files : quiet (check_files w files).
Proof.
  induction files as [|p files IH]; cbn; [apply quiet_ret|].
  destruct (w p); [exact IH|].
  apply quiet_bind; [apply quiet_eprint | intros _; apply quiet_exit].
Qed.

Lemma check_files_result (w : world) files s :
  fst (check_files w files s) = Ret tt \/ fst (check_files w files s) = Exit 1.
Proof.
  revert s. induction files as [|p files IH]; intros s; cbn; [now left|].
  destruct (w p); [apply IH | now right].
Qed.


Lemma quiet_parse_all (w : world) files acc : quiet (parse_all w files acc).
Proof.
  revert acc. induction files as [|p files IH]; intros acc; cbn;
    [apply quiet_ret|].
  apply quiet_bind; [apply quiet_parse_file|].
  intros [rs|]; [apply IH | apply quiet_exit].
Qed.

Lemma parse_all_failure (w : world) files acc s :
  (exists p, In p files /\ parses w p = None) ->
  fst (parse_all w files acc s) = Exit 1 \/
  fst (parse_all w files acc s) = Uncaught.
Proof.
  revert acc s. induction files as [|p files IH]; intros acc s (q & Hin & Hq);
    [destruct Hin|].
  cbn [parse_all]. unfold bind.
  pose proof (parse_file_outcome w p s) as Ho.
  destruct (parse_file w p s) as [r s1]. cbn [fst] in Ho. subst r.
  destruct (parse_outcome w p) as [[rs|]|c|] eqn:Ep.
  - apply IH. destruct Hin as [<- | Hin]; [|now exists q].
    unfold parses in Hq. rewrite Ep in Hq. discriminate.
  - now left.
  - pose proof (parse_file_outcome w p io0) as Hc.
    unfold parse_file, parse_xml_file, parse_tsv_file, parse_txt_file in Hc.
    exfalso. revert Hc. rewrite Ep.
    repeat match goal with
           | |- context [if ?b then _ else _] => destruct b
           | |- context [match ?x with _ => _ end] => destruct x
           end; discriminate.
  - now right.
Qed.


(** With an argument at least, the run is the body of [main] after
    [parse_args]. *)
Lemma run_nonempty (w : world) (files : list str) :
  files <> [] ->
  run w files =
  (check_files w files ;;;
   all_addresses <- parse_all w files [] ;;
   print (OutJson (sorted sort_key all_addresses)) ;;;
   write_output_json w (sorted sort_key all_addresses) ;;;
   print (OutSuccess (length (sorted sort_key all_addresses))) ;;;
   sys_exit 0) io0.
Proof. destruct files; [congruence | reflexivity]. Qed.

(** C9.  If some input file fails to parse ([parse_file] returns [None] or
    raises: malformed XML, a tabular file without lines, a file that cannot
    be read, an extension other than [.xml], [.tsv], [.txt]), the run signals
    failure, prints nothing on standard output and does not write
    [output.json], whatever the other files are. *)
Theorem run_all_or_nothing (w : world) (files : list str) :
  (exists p, In p files /\ parses w p = None) ->
  failure (fst (run w files)) /\
  stdout (snd (run w files)) = [] /\
  output_json (snd (run w files)) = None.
Proof.
  intros Hfail.
  assert (Hne : files <> []).
  { destruct Hfail as (p & Hin & _). now destruct files. }
  rewrite (run_nonempty w files Hne). unfold bind.
  destruct (quiet_check_files w files io0) as [Hc1 Hc2].
  pose proof (check_files_result w files io0) as Hc.
  destruct (check_files w files io0) as [r1 s1].
  cbn [fst snd stdout output_json io0] in *.
  destruct Hc as [-> | ->]; [|unfold failure; auto].
  destruct (quiet_parse_all w files [] s1) as [Hp1 Hp2].
  pose proof (parse_all_failure w files [] s1 Hfail) as Hp.
  destruct (parse_all w files [] s1) as [r2 s2]. cbn [fst snd] in *.
  destruct Hp as [-> | ->]; cbn [fst snd]; unfold failure;
    repeat split; auto; congruence.
Qed.

Lemma run_all_or_nothing_witness :
  (exists p, In p [py "a.txt"; py "b.csv"] /\ parses empty_files p = None) /\
  failure (fst (run empty_files [py "a.txt"; py "b.csv"])) /\
  stdout (snd (run empty_files [py "a.txt"; py "b.csv"])) = [] /\
  output_json (snd (run empty_files [py "a.txt"; py "b.csv"])) = None.
Proof.
  assert (H : exists p, In p [py "a.txt"; py "b.csv"] /\
                        parses empty_files p = None).
  { exists (py "b.csv"). split; [right; now left | reflexivity]. }
  split; [exact H|].
  exact (run_all_or_nothing empty_files [py "a.txt"; py "b.csv"] H).
Defined.


(* ================================================================== *)
(** * The matcher and what patterns match *)

Module ReFacts.
Import Re.

Lemma star_sound {A : Type} p s (k : str -> option A) v :
  star p s k = Some v ->
  exists x s', s = x ++ s' /\ forallb p x = true /\ k s' = Some v.
Proof.
  induction s as [|a s IH]; cbn.
  - intros H. now exists [], [].
  - destruct (p a) eqn:Ea; [|intros H; now exists [], (a :: s)].
    destruct (star p s k) as [v'|] eqn:Es.
    + intros [= ->]. destruct (IH eq_refl) as (x & s' & -> & Hx & Hk).
      exists (a :: x), s'. cbn. now rewrite Ea.
    + intros H. now exists [], (a :: s).
Qed.

Lemma star_complete {A : Type} p x s' (k : str -> option A) :
  forallb p x = true -> k s' <> None -> star p (x ++ s') k <> None.
Proof.
  intros Hx Hk. induction x as [|a x IH]; cbn.
  - destruct s' as [|b s']; [exact Hk|]. cbn.
    destruct (p b); [|exact Hk]. now destruct (star p s' k).
  - cbn in Hx. apply andb_prop in Hx as [Ha Hx]. rewrite Ha.
    specialize (IH Hx). now destruct (star p (x ++ s') k).
Qed.

(** Soundness: a successful run matched a prefix of the text and passed
    the rest and the groups to its continuation. *)
Lemma exec_sound {A : Type} r :
  forall s c (k : str -> caps -> option A) v,
    exec r s c k = Some v ->
    exists x s' c', s = x ++ s' /\ matches r x c c' /\ k s' c' = Some v.
Proof.
  induction r as [|p|r1 IH1 r2 IH2|r1 IH1 r2 IH2|p|n r IH]; intros s c k v; cbn.
  - intros H. exists [], s, c. repeat split; [constructor | exact H].
  - destruct s as [|a s]; [discriminate|].
    destruct (p a) eqn:Ea; [|discriminate].
    intros H. exists [a], s, c. repeat split; [now constructor | exact H].
  - intros H. apply IH1 in H as (x1 & s1 & c1 & -> & H1 & H).
    apply IH2 in H as (x2 & s2 & c2 & -> & H2 & H).
    exists (x1 ++ x2), s2, c2. rewrite app_assoc.
    repeat split; [econstructor; eassumption | exact H].
  - destruct (exec r1 s c k) as [v'|] eqn:E1.
    + intros [= ->]. apply IH1 in E1 as (x & s' & c' & -> & H1 & H).
      exists x, s', c'. repeat split; [now apply matches_alt_l | exact H].
    + intros H. apply IH2 in H as (x & s' & c' & -> & H2 & H).
      exists x, s', c'. repeat split; [now apply matches_alt_r | exact H].
  - intros H. apply star_sound in H as (x & s' & -> & Hx & H).
    exists x, s', c. repeat split; [now constructor | exact H].
  - intros H. apply IH in H as (x & s' & c' & -> & H1 & H).
    rewrite firstn_length_diff in H.
    exists x, s', (cap_set n x c'). repeat split; [now constructor | exact H].
Qed.

(** Completeness: the run tries every way in which the pattern matches. *)
Lemma exec_complete {A : Type} r x c c' :
  matches r x c c' ->
  forall s' (k : str -> caps -> option A),
    k s' c' <> None -> exec r (x ++ s') c k <> None.
Proof.
  induction 1 as [c|p a c Ha|r1 r2 x1 x2 c c1 c2 _ IH1 _ IH2
                 |r1 r2 x c c' _ IH|r1 r2 x c c' _ IH|p x c Hx
                 |n r x c c' _ IH]; intros s' k Hk; cbn.
  - exact Hk.
  - now rewrite Ha.
  - rewrite <- app_assoc. apply IH1. now apply IH2.
  - specialize (IH s' k Hk). now destruct (exec r1 (x ++ s') c k).
  - specialize (IH s' k Hk). now destruct (exec r1 (x ++ s') c k).
  - now apply star_complete.
  - apply IH. now rewrite firstn_length_diff.
Qed.

Lemma match_at_sound r s m :
  match_at r s = Some m ->
  exists x, s = x ++ m_rest m /\ matches r x [] (m_caps m).
Proof.
  unfold match_at. intros H.
  apply exec_sound in H as (x & s' & c' & -> & Hm & [= <-]).
  now exists x.
Qed.

Lemma search_sound r s m :
  search r s = Some m ->
  exists pre x, s = pre ++ x ++ m_rest m /\ matches r x [] (m_caps m).
Proof.
  induction s as [|a s IH]; cbn [search].
  - destruct (match_at r []) as [m'|] eqn:E; [|discriminate].
    intros [= ->]. apply match_at_sound in E as (x & Hs & Hm). now exists [], x.
  - destruct (match_at r (a :: s)) as [m'|] eqn:E.
    + intros [= ->]. apply match_at_sound in E as (x & Hs & Hm).
      now exists [], x.
    + intros H. apply IH in H as (pre & x & -> & Hm). now exists (a :: pre), x.
Qed.

Lemma search_complete r s : occurs r s -> search r s <> None.
Proof.
  intros (pre & x & post & c & -> & Hm).
  induction pre as [|a pre IH].
  - cbn [app].
    assert (H : match_at r (x ++ post) <> None)
      by (unfold match_at; eapply exec_complete; [exact Hm | discriminate]).
    destruct (x ++ post); cbn [search];
      destruct (match_at r _); congruence.
  - cbn [app search]. now destruct (match_at r (a :: pre ++ x ++ post)).
Qed.

(** [re.search] finds a match exactly when the pattern occurs in the text. *)
Lemma search_occurs r s : search r s <> None <-> occurs r s.
Proof.
  split; [|apply search_complete].
  destruct (search r s) as [m|] eqn:E; [|congruence].
  intros _. apply search_sound in E as (pre & x & -> & Hm).
  now exists pre, x, (m_rest m), (m_caps m).
Qed.

End ReFacts.

(* ================================================================== *)
(** * The location pattern *)

Section LocationPattern.
Import Re.

Lemma inv_eps x c c' : matches Eps x c c' -> x = [] /\ c' = c.
Proof. inversion 1; auto. Qed.

Lemma inv_cls p x c c' :
  matches (Cls p) x c c' -> exists a, x = [a] /\ p a = true /\ c' = c.
Proof. inversion 1; subst; eauto. Qed.

Lemma inv_seq r1 r2 x c c' :
  matches (Seq r1 r2) x c c' ->
  exists x1 x2 c1, x = x1 ++ x2 /\ matches r1 x1 c c1 /\ matches r2 x2 c1 c'.
Proof. inversion 1; subst; eauto 7. Qed.

Lemma inv_alt r1 r2 x c c' :
  matches (Alt r1 r2) x c c' -> matches r1 x c c' \/ matches r2 x c c'.
Proof. inversion 1; subst; auto. Qed.

Lemma inv_star p x c c' :
  matches (Star p) x c c' -> forallb p x = true /\ c' = c.
Proof. inversion 1; auto. Qed.

Lemma inv_group n r x c c' :
  matches (Group n r) x c c' ->
  exists c1, matches r x c c1 /\ c' = cap_set n x c1.
Proof. inversion 1; subst; eauto. Qed.

Lemma inv_plus p x c c' :
  matches (Plus p) x c c' -> (x <> [] /\ forallb p x = true) /\ c' = c.
Proof.
  intros H. apply inv_seq in H as (x1 & x2 & c1 & -> & H1 & H2).
  apply inv_cls in H1 as (a & -> & Ha & ->).
  apply inv_star in H2 as (Hx & ->).
  cbn. rewrite Ha, Hx. repeat split. discriminate.
Qed.

Lemma plus_matches p x c :
  x <> [] -> forallb p x = true -> matches (Plus p) x c c.
Proof.
  destruct x as [|a x]; [congruence|]. cbn. intros _ H.
  apply andb_prop in H as [Ha Hx].
  apply (matches_seq (Cls p) (Star p) [a] x c c c); now constructor.
Qed.

Lemma inv_rep p n : forall x c c',
  matches (Rep n (Cls p)) x c c' ->
  (length x = n /\ forallb p x = true) /\ c' = c.
Proof.
  induction n as [|n IH]; intros x c c' H.
  - apply inv_eps in H as [-> ->]. auto.
  - destruct n as [|n].
    + apply inv_cls in H as (a & -> & Ha & ->). cbn. now rewrite Ha.
    + change (Rep (S (S n)) (Cls p)) with (Seq (Cls p) (Rep (S n) (Cls p))) in H.
      apply inv_seq in H as (x1 & x2 & c1 & -> & H1 & H2).
      apply inv_cls in H1 as (a & -> & Ha & ->).
      apply IH in H2 as ((Hl & Hx) & ->).
      cbn [app length forallb]. now rewrite Ha, Hx, Hl.
Qed.

Lemma rep_matches p n : forall x c,
  length x = n -> forallb p x = true -> matches (Rep n (Cls p)) x c c.
Proof.
  induction n as [|n IH]; intros [|a x] c Hl Hx; try discriminate.
  - constructor.
  - cbn in Hx. apply andb_prop in Hx as [Ha Hx]. injection Hl as Hl.
    destruct n as [|n].
    + destruct x; [|discriminate]. now constructor.
    + change (Rep (S (S n)) (Cls p)) with (Seq (Cls p) (Rep (S n) (Cls p))).
      apply (matches_seq (Cls p) _ [a] x c c c); [now constructor | now apply IH].
Qed.

Lemma inv_comma x c c' :
  matches (Cls is_comma) x c c' -> x = py "," /\ c' = c.
Proof.
  intros H. apply inv_cls in H as (a & -> & Ha & ->).
  apply Ascii.eqb_eq in Ha. now subst.
Qed.

Lemma inv_zip x c c' :
  matches re_zip x c c' -> zip_shape x /\ c' = cap_set 4 x c.
Proof.
  unfold re_zip. intros H. apply inv_group in H as (c1 & H & ->).
  apply inv_seq in H as (d5 & x2 & c2 & -> & H5 & H).
  apply inv_rep in H5 as (Hd5 & ->).
  apply inv_alt in H as [H|H].
  - apply inv_seq in H as (x3 & d4 & c3 & -> & Hdash & H4).
    apply inv_cls in Hdash as (a & -> & Ha & ->).
    apply Ascii.eqb_eq in Ha. subst a.
    apply inv_rep in H4 as (Hd4 & ->).
    split; [|reflexivity]. exists d5. split; [exact Hd5|]. right. now exists d4.
  - apply inv_eps in H as [-> ->]. rewrite app_nil_r.
    split; [|reflexivity]. exists d5. split; [exact Hd5|]. now left.
Qed.

Lemma inv_state x c c' :
  matches re_state x c c' -> word x /\ c' = cap_set 3 x c.
Proof.
  unfold re_state. intros H. apply inv_group in H as (c1 & H & ->).
  apply inv_alt in H as [H|H].
  - apply (inv_rep is_letter 2) in H as ((Hl & Hx) & ->).
    split; [|reflexivity]. split; [|exact Hx]. intros ->. discriminate.
  - apply inv_plus in H as (Hw & ->). now split.
Qed.

Lemma inv_county_part x c c' :
  matches (Opt re_county_part) x c c' ->
  exists county, county_part x county /\
                 c' = match county with
                      | Some g => cap_set 2 g c
                      | None => c
                      end.
Proof.
  intros H. apply inv_alt in H as [H|H].
  - unfold re_county_part in H.
    apply inv_seq in H as (g & x2 & c1 & -> & Hg & H).
    apply inv_group in Hg as (c2 & Hg & ->).
    apply inv_plus in Hg as (Hseg & ->).
    apply inv_seq in H as (x3 & ws & c3 & -> & Hc & Hws).
    apply inv_comma in Hc as (-> & ->).
    apply inv_star in Hws as (Hws & ->).
    exists (Some g). split; [|reflexivity]. right. now exists g, ws.
  - apply inv_eps in H as [-> ->]. exists None. split; [now left | reflexivity].
Qed.

Lemma location_sound x c :
  matches re_location x [] c ->
  exists city county state zip,
    location x city county state zip /\
    c = location_caps city county state zip.
Proof.
  unfold re_location. intros H.
  apply inv_seq in H as (city & x1 & c1 & -> & Hcity & H).
  apply inv_group in Hcity as (c0 & Hcity & ->).
  apply inv_plus in Hcity as (Hseg & ->).
  apply inv_seq in H as (x2 & x3 & c2 & -> & Hc & H).
  apply inv_comma in Hc as (-> & ->).
  apply inv_seq in H as (ws1 & x4 & c3 & -> & Hws1 & H).
  apply inv_star in Hws1 as (Hws1 & ->).
  apply inv_seq in H as (txt & x5 & c4 & -> & Hcounty & H).
  apply inv_county_part in Hcounty as (county & Hcounty & ->).
  apply inv_seq in H as (state & x6 & c5 & -> & Hstate & H).
  apply inv_state in Hstate as (Hword & ->).
  apply inv_seq in H as (ws2 & zip & c6 & -> & Hws2 & Hzip).
  apply inv_plus in Hws2 as ((Hne & Hws2) & ->).
  apply inv_zip in Hzip as (Hzip & ->).
  exists city, county, state, zip. split.
  - now constructor.
  - unfold location_caps. now destruct county.
Qed.

Lemma county_part_matches txt county c :
  county_part txt county ->
  matches (Opt re_county_part) txt c
          match county with Some g => cap_set 2 g c | None => c end.
Proof.
  intros [[-> ->] | (g & ws & [Hg1 Hg2] & Hws & -> & ->)].
  - apply matches_alt_r. constructor.
  - apply matches_alt_l. unfold re_county_part.
    eapply matches_seq; [apply matches_group; now apply plus_matches|].
    eapply (matches_seq _ _ (py ",")); [now apply matches_cls|].
    now apply matches_star.
Qed.

Lemma zip_matches z c : zip_shape z -> matches re_zip z c (cap_set 4 z c).
Proof.
  intros (d5 & [Hl5 Hd5] & [-> | (d4 & [Hl4 Hd4] & ->)]);
    unfold re_zip; apply matches_group.
  - rewrite <- (app_nil_r d5). eapply matches_seq; [now apply rep_matches|].
    apply matches_alt_r. constructor.
  - eapply matches_seq; [now apply rep_matches|].
    apply matches_alt_l.
    eapply (matches_seq _ _ (py "-")); [now apply matches_cls|].
    now apply rep_matches.
Qed.

Lemma location_complete x city county state zip :
  location x city county state zip ->
  matches re_location x [] (location_caps city county state zip).
Proof.
  intros [city' ws1 txt county' state' ws2 zip' [Hc1 Hc2] Hws1 Hcounty
            [Hs1 Hs2] Hne Hws2 Hzip].
  unfold re_location, location_caps.
  eapply matches_seq;
    [apply matches_group; now apply plus_matches|].
  eapply (matches_seq _ _ (py ","));
    [now apply matches_cls|].
  eapply matches_seq; [now apply matches_star|].
  eapply matches_seq; [apply county_part_matches; exact Hcounty|].
  eapply matches_seq.
  { unfold re_state. apply matches_group. apply matches_alt_r.
    now apply plus_matches. }
  eapply matches_seq; [now apply plus_matches|].
  now apply zip_matches.
Qed.

(** [re.search] with the location pattern succeeds exactly on the lines
    that have a location. *)
Lemma search_location_iff l :
  search re_location l <> None <-> has_location l.
Proof.
  rewrite ReFacts.search_occurs. split.
  - intros (pre & x & post & c & -> & Hm).
    apply location_sound in Hm as (city & county & state & zip & Hl & _).
    now exists pre, x, post, city, county, state, zip.
  - intros (pre & x & post & city & county & state & zip & -> & Hl).
    apply location_complete in Hl. eexists pre, x, post, _. eauto.
Qed.

End LocationPattern.

(* ================================================================== *)
(** * The free-text parser: the location fields *)

Lemma lstrip_no_space s : forallb not_space s = true -> lstrip s = s.
Proof.
  destruct s as [|c s]; [reflexivity|]. cbn. unfold not_space at 1.
  now destruct (is_space c).
Qed.

Lemma forallb_rev {A : Type} (p : A -> bool) l : forallb p (rev l) = forallb p l.
Proof.
  induction l as [|x l IH]; [reflexivity|].
  cbn. rewrite forallb_app, IH. cbn. rewrite andb_true_r. apply andb_comm.
Qed.

Lemma strip_no_space s : forallb not_space s = true -> strip s = s.
Proof.
  intros H. unfold strip, rstrip. rewrite (lstrip_no_space s H).
  rewrite lstrip_no_space by now rewrite forallb_rev.
  apply rev_involutive.
Qed.

Lemma forallb_impl {A : Type} (p q : A -> bool) l :
  (forall x, p x = true -> q x = true) ->
  forallb p l = true -> forallb q l = true.
Proof.
  intros Hpq. induction l as [|x l IH]; [reflexivity|]. cbn.
  intros H. apply andb_prop in H as [Hx Hl]. now rewrite (Hpq x Hx), IH.
Qed.

Lemma letter_not_space c : is_letter c = true -> not_space c = true.
Proof. destruct c as [[] [] [] [] [] [] [] []]; vm_compute; congruence. Qed.

Lemma digit_not_space c : is_digit c = true -> not_space c = true.
Proof. destruct c as [[] [] [] [] [] [] [] []]; vm_compute; congruence. Qed.

Lemma strip_word g : word g -> strip g = g.
Proof.
  intros [_ H]. apply strip_no_space.
  exact (forallb_impl _ _ g letter_not_space H).
Qed.

Lemma strip_zip z : zip_shape z -> strip z = z.
Proof.
  intros (d5 & [_ H5] & Hz). apply strip_no_space.
  apply (forallb_impl _ _ d5 digit_not_space) in H5.
  destruct Hz as [-> | (d4 & [_ H4] & ->)]; [exact H5|].
  apply (forallb_impl _ _ d4 digit_not_space) in H4.
  rewrite !forallb_app, H5, H4. reflexivity.
Qed.

(** What [txt_location] does, by the outcome of the search. *)
Lemma txt_location_spec l a :
  match Re.search re_location l with
  | None => txt_location l a = a
  | Some m =>
      exists pre x city county state zip,
        l = pre ++ x ++ Re.m_rest m /\ location x city county state zip /\
        txt_location l a = with_location city county state zip a
  end.
Proof.
  unfold txt_location.
  destruct (Re.search re_location l) as [m|] eqn:E; [|reflexivity].
  apply ReFacts.search_sound in E as (pre & x & Hl & Hm).
  apply location_sound in Hm as (city & county & state & zip & Hloc & Hc).
  exists pre, x, city, county, state, zip. repeat split; [exact Hl | exact Hloc|].
  unfold group_text, Re.group. rewrite Hc. unfold with_location.
  inversion Hloc as [? ? ? ? ? ? ? Hcity _ Hcounty Hword _ _ Hzip]; subst.
  destruct county as [g|]; cbn [location_caps Re.cap_get Re.cap_set Nat.eqb];
    rewrite (strip_word _ Hword), (strip_zip _ Hzip); [|reflexivity].
  destruct Hcounty as [[_ [=]] | (g' & ws & [Hg _] & _ & _ & [= ->])].
  destruct g' as [|? ?]; [congruence | reflexivity].
Qed.

Ltac eval_key_tests :=
  repeat match goal with
         | |- context [str_eqb ?a ?b] =>
             let v := eval vm_compute in (str_eqb a b) in
             progress change (str_eqb a b) with v
         end.

Lemma with_location_fields city county state zip a :
  let a' := with_location city county state zip a in
  Dict.get k_city a' = Some (strip city) /\
  Dict.get k_county a'
  = match county with Some g => Some (strip g) | None => Dict.get k_county a end /\
  Dict.get k_state a' = Some state /\
  Dict.get k_zip a' = Some zip.
Proof.
  unfold with_location. destruct county as [g|];
    rewrite !DictFacts.get_set; eval_key_tests; cbn [negb]; auto.
Qed.

(** The record before the location assignments has none of the four
    location fields. *)
Lemma txt_address_base first_line lines :
  3 <= length lines ->
  exists base,
    txt_address first_line lines = txt_location (last lines []) base /\
    Dict.get k_city base = None /\ Dict.get k_county base = None /\
    Dict.get k_state base = None /\ Dict.get k_zip base = None.
Proof.
  intros H. unfold txt_address.
  assert (H3 : (3 <=? length lines) = true) by (apply Nat.leb_le; lia).
  assert (H2 : (2 <=? length lines) = true) by (apply Nat.leb_le; lia).
  rewrite H3, H2. eexists. split; [reflexivity|].
  destruct (is_match _); repeat split.
Qed.

(* ================================================================== *)
(** * The location that the search reads *)

Section FirstLocation.
Import Re.

(** The final continuation of [match_at]. *)
Local Abbreviation kf := (fun s c => Some {| m_caps := c; m_rest := s |}).

(** The search stops at the first start position with a match. *)
Lemma search_leftmost r s m :
  search r s = Some m ->
  exists pre s',
    s = pre ++ s' /\ match_at r s' = Some m /\
    forall pre' s'', s = pre' ++ s'' -> length pre' < length pre ->
                     match_at r s'' = None.
Proof.
  induction s as [|a s IH]; cbn [search].
  - destruct (match_at r []) as [m'|] eqn:E; [|discriminate].
    intros [= ->]. exists [], []. repeat split; auto.
    intros pre' s'' _ H. cbn in H. lia.
  - destruct (match_at r (a :: s)) as [m'|] eqn:E.
    + intros [= ->]. exists [], (a :: s). repeat split; auto.
      intros pre' s'' _ H. cbn in H. lia.
    + intros H. apply IH in H as (pre & s' & -> & Hm & Hmin).
      exists (a :: pre), s'. split; [reflexivity|]. split; [exact Hm|].
      intros [|b pre'] s'' Heq Hlt; cbn [app] in Heq.
      * now subst s''.
      * injection Heq as -> Heq. apply (Hmin pre' s'' Heq). cbn in Hlt. lia.
Qed.

Lemma exec_seq_sound {A : Type} r1 r2 s c (k : str -> caps -> option A) v :
  exec (Seq r1 r2) s c k = Some v ->
  exists x s' c',
    s = x ++ s' /\ matches r1 x c c' /\ exec r2 s' c' k = Some v.
Proof.
  intros H. change (exec r1 s c (fun s1 c1 => exec r2 s1 c1 k) = Some v) in H.
  now apply ReFacts.exec_sound in H.
Qed.

Lemma exec_alt_cases {A : Type} r1 r2 s c (k : str -> caps -> option A) v :
  exec (Alt r1 r2) s c k = Some v ->
  exec r1 s c k = Some v \/ (exec r1 s c k = None /\ exec r2 s c k = Some v).
Proof.
  intros H.
  change (match exec r1 s c k with
          | Some v0 => Some v0
          | None => exec r2 s c k
          end = Some v) in H.
  destruct (exec r1 s c k); auto.
Qed.

Lemma span_eq (p : ascii -> bool) a : forall b u v,
  forallb p a = true -> forallb p u = true -> stops p b -> stops p v ->
  a ++ b = u ++ v -> a = u /\ b = v.
Proof.
  induction a as [|x a IH]; intros b [|y u] v Ha Hu Hb Hv H; cbn in *.
  - auto.
  - subst b. cbn in Hb. apply andb_prop in Hu as [Hy _]. congruence.
  - subst v. cbn in Hv. apply andb_prop in Ha as [Hx _]. congruence.
  - injection H as -> H. apply andb_prop in Ha as [_ Ha].
    apply andb_prop in Hu as [_ Hu].
    destruct (IH b u v Ha Hu Hb Hv H) as [-> ->]. auto.
Qed.

Lemma span_unique (p : ascii -> bool) a : forall b u v c,
  forallb p a = true -> forallb p u = true -> p c = false ->
  a ++ b = u ++ c :: v -> exists t, b = t ++ c :: v /\ u = a ++ t.
Proof.
  induction a as [|x a IH]; intros b u v c Ha Hu Hc H; cbn in *.
  - now exists u.
  - destruct u as [|y u]; cbn in *.
    + injection H as -> _. apply andb_prop in Ha as [Hx _]. congruence.
    + injection H as -> H. apply andb_prop in Ha as [_ Ha].
      apply andb_prop in Hu as [_ Hu].
      destruct (IH b u v c Ha Hu Hc H) as (t & -> & ->). now exists t.
Qed.

Lemma space_not_comma c : is_space c = true -> not_comma c = true.
Proof.
  destruct c as [[] [] [] [] [] [] [] []]; vm_compute; congruence.
Qed.

Lemma letter_not_comma c : is_letter c = true -> not_comma c = true.
Proof.
  destruct c as [[] [] [] [] [] [] [] []]; vm_compute; congruence.
Qed.

Lemma space_not_letter c : is_space c = true -> is_letter c = false.
Proof.
  destruct c as [[] [] [] [] [] [] [] []]; vm_compute; congruence.
Qed.

Lemma blank_not_comma ws : is_blank ws = true -> forallb not_comma ws = true.
Proof. apply forallb_impl, space_not_comma. Qed.

Lemma inv_county x c c' :
  matches re_county_part x c c' ->
  exists g ws,
    segment g /\ is_blank ws = true /\ x = g ++ py "," ++ ws /\
    c' = cap_set 2 g c.
Proof.
  unfold re_county_part. intros H.
  apply inv_seq in H as (g & x2 & c1 & -> & Hg & H).
  apply inv_group in Hg as (c2 & Hg & ->).
  apply inv_plus in Hg as (Hseg & ->).
  apply inv_seq in H as (x3 & ws & c3 & -> & Hc & Hws).
  apply inv_comma in Hc as (-> & ->).
  apply inv_star in Hws as (Hws & ->).
  now exists g, ws.
Qed.

(** The rest of the pattern after the optional county part. *)
Local Abbreviation re_rest := (Seq re_state (Seq (Plus is_space) re_zip)).

Lemma inv_rest x c c' :
  matches re_rest x c c' ->
  exists state ws2 zip,
    x = state ++ ws2 ++ zip /\ word state /\
    ws2 <> [] /\ is_blank ws2 = true /\ zip_shape zip /\
    c' = cap_set 4 zip (cap_set 3 state c).
Proof.
  intros H.
  apply inv_seq in H as (state & x6 & c5 & -> & Hstate & H).
  apply inv_state in Hstate as (Hword & ->).
  apply inv_seq in H as (ws2 & zip & c6 & -> & Hws2 & Hzip).
  apply inv_plus in Hws2 as ((Hne & Hws2) & ->).
  apply inv_zip in Hzip as (Hzip & ->).
  now exists state, ws2, zip.
Qed.

Lemma rest_matches state ws2 zip c :
  word state -> ws2 <> [] -> is_blank ws2 = true -> zip_shape zip ->
  matches re_rest (state ++ ws2 ++ zip) c (cap_set 4 zip (cap_set 3 state c)).
Proof.
  intros [Hs1 Hs2] Hne Hws2 Hzip.
  eapply matches_seq.
  { unfold re_state. apply matches_group. apply matches_alt_r.
    now apply plus_matches. }
  eapply matches_seq; [now apply plus_matches|].
  now apply zip_matches.
Qed.

(** The pattern up to the county part: the groups so far and the text that
    is left. *)
Lemma match_at_location_head s m :
  match_at re_location s = Some m ->
  exists city ws1 s3,
    s = city ++ py "," ++ ws1 ++ s3 /\ segment city /\ is_blank ws1 = true /\
    exec (Seq (Opt re_county_part) re_rest) s3 (cap_set 1 city []) kf = Some m.
Proof.
  unfold match_at, re_location. intros H.
  apply exec_seq_sound in H as (city & s1 & c1 & -> & Hcity & H).
  apply inv_group in Hcity as (c0 & Hcity & ->).
  apply inv_plus in Hcity as (Hseg & ->).
  apply exec_seq_sound in H as (x2 & s2 & c2 & -> & Hc & H).
  apply inv_comma in Hc as (-> & ->).
  apply exec_seq_sound in H as (ws1 & s3 & c3 & -> & Hws1 & H).
  apply inv_star in Hws1 as (Hws1 & ->).
  exists city, ws1, s3. destruct Hseg. repeat split; auto.
Qed.

(** The optional county part is tried first. *)
Lemma match_at_location_county s m :
  match_at re_location s = Some m ->
  cap_get 2 (m_caps m) = None ->
  forall x' post' city' g state' zip',
    s = x' ++ post' -> ~ location x' city' (Some g) state' zip'.
Proof.
  intros H Hcap x' post' city' g state' zip' Hs Hloc.
  apply match_at_location_head in H
    as (city & ws1 & s3 & Es & [Hc1 Hc2] & Hws1 & H).
  set (c3 := cap_set 1 city []) in *.
  change (exec (Opt re_county_part) s3 c3
            (fun s4 c4 => exec re_rest s4 c4 kf) = Some m) in H.
  apply exec_alt_cases in H as [H | [Hnone H]].
  - apply ReFacts.exec_sound in H as (x4 & s4 & c4 & -> & H4 & H).
    apply inv_county in H4 as (g4 & ws4 & _ & _ & _ & ->).
    apply ReFacts.exec_sound in H as (x5 & s5 & c5 & -> & H5 & [= <-]).
    apply inv_rest in H5 as (st & w2 & z & _ & _ & _ & _ & _ & ->).
    cbn in Hcap. discriminate.
  - change (exec re_rest s3 c3 kf = Some m) in H.
    apply ReFacts.exec_sound in H as (x5 & s5 & c5 & -> & H5 & _).
    apply inv_rest in H5 as (st & w2 & z & -> & [Hst1 Hst2] & _).
    rewrite Es in Hs. clear Es.
    inversion Hloc as [city0 ws0 txt county0 state0 ws2 zip0 [Hd1 Hd2] Hws0
                         Hcounty Hword Hne2 Hws2 Hzip Hx]; subst.
    destruct Hcounty as [[_ [=]] | (g' & ws & [Hg1 Hg2] & Hws & -> & [= ->])].
    (* the city ends at the same comma *)
    assert (E1 : city = city' /\
                 py "," ++ ws1 ++ (st ++ w2 ++ z) ++ s5 =
                 py "," ++ ws0 ++ (g' ++ py "," ++ ws) ++ state' ++ ws2 ++
                 zip' ++ post').
    { apply (span_eq not_comma); auto; try reflexivity.
      rewrite Hs. now rewrite <- !app_assoc. }
    destruct E1 as [<- E1]. injection E1 as E1.
    (* the county of the other location reaches into the state *)
    assert (E2 : exists t,
               (st ++ w2 ++ z) ++ s5 =
               t ++ ","%char :: ws ++ state' ++ ws2 ++ zip' ++ post' /\
               ws0 ++ g' = ws1 ++ t).
    { apply (span_unique not_comma).
      - now apply blank_not_comma.
      - now rewrite forallb_app, Hg2, (blank_not_comma ws0 Hws0).
      - reflexivity.
      - rewrite E1. now rewrite <- !app_assoc. }
    destruct E2 as (t & E2 & Et).
    assert (Ht : segment t).
    { split.
      - intros ->. destruct st as [|a st]; [now destruct Hst1|].
        cbn in E2. injection E2 as -> _. cbn in Hst2. discriminate.
      - assert (Hall : forallb not_comma (ws1 ++ t) = true).
        { now rewrite <- Et, forallb_app, Hg2, (blank_not_comma ws0 Hws0). }
        rewrite forallb_app in Hall. now apply andb_prop in Hall as [_ Hall]. }
    assert (Hc : exec re_county_part
                   ((t ++ py "," ++ ws) ++ state' ++ ws2 ++ zip' ++ post') c3
                   (fun s4 c4 => exec re_rest s4 c4 kf) <> None).
    { apply (ReFacts.exec_complete re_county_part (t ++ py "," ++ ws) c3
               (cap_set 2 t c3)).
      - destruct Ht as [Ht1 Ht2]. unfold re_county_part.
        eapply matches_seq; [apply matches_group; now apply plus_matches|].
        eapply (matches_seq _ _ (py ",")); [now apply matches_cls|].
        now apply matches_star.
      - rewrite !app_assoc. rewrite <- (app_assoc state').
        eapply ReFacts.exec_complete; [|discriminate].
        now apply rest_matches. }
    rewrite E2 in Hnone. apply Hc. rewrite <- Hnone. f_equal.
    now rewrite <- !app_assoc.
Qed.

(** The ZIP code takes the dash and the four digits when they are there. *)
Lemma exec_zip_longest s c m :
  exec re_zip s c kf = Some m ->
  (exists z, cap_get 4 (m_caps m) = Some z /\ length z = 10) \/
  (forall d4 rest, digits 4 d4 -> m_rest m <> py "-" ++ d4 ++ rest).
Proof.
  unfold re_zip. intros H.
  change (exec (Seq (Rep 5 (Cls is_digit))
                    (Opt (Seq (Cls is_dash) (Rep 4 (Cls is_digit))))) s c
            (fun s1 c1 =>
               kf s1 (cap_set 4 (firstn (length s - length s1) s) c1))
          = Some m) in H.
  apply exec_seq_sound in H as (d5 & s7 & c7 & -> & H5 & H).
  apply inv_rep in H5 as ((Hl5 & _) & ->).
  apply exec_alt_cases in H as [H | [Hnone H]].
  - left. apply ReFacts.exec_sound in H as (x & s8 & c8 & -> & Hx & [= <-]).
    apply inv_seq in Hx as (x3 & d4 & c3 & -> & Hdash & H4).
    apply inv_cls in Hdash as (a & -> & _ & ->).
    apply inv_rep in H4 as ((Hl4 & _) & ->).
    cbn [m_caps cap_get cap_set Nat.eqb]. eexists. split; [reflexivity|].
    rewrite !app_assoc, firstn_length_diff, !length_app, Hl5, Hl4.
    reflexivity.
  - right. injection H as <-. cbn [m_rest]. intros d4 rest [Hl4 Hd4] ->.
    refine (ReFacts.exec_complete
              (Seq (Cls is_dash) (Rep 4 (Cls is_digit))) (py "-" ++ d4) c c
              _ rest _ _ Hnone).
    + eapply (matches_seq _ _ (py "-")); [now apply matches_cls|].
      now apply rep_matches.
    + discriminate.
Qed.

Lemma match_at_location_zip s m :
  match_at re_location s = Some m ->
  (exists z, cap_get 4 (m_caps m) = Some z /\ length z = 10) \/
  (forall d4 rest, digits 4 d4 -> m_rest m <> py "-" ++ d4 ++ rest).
Proof.
  intros H.
  apply match_at_location_head in H as (city & ws1 & s3 & _ & _ & _ & H).
  apply exec_seq_sound in H as (x4 & s4 & c4 & _ & _ & H).
  apply exec_seq_sound in H as (x5 & s5 & c5 & _ & _ & H).
  apply exec_seq_sound in H as (x6 & s6 & c6 & _ & _ & H).
  exact (exec_zip_longest s6 c6 m H).
Qed.

(** What the search with the location pattern reads. *)
Lemma search_location_first l m :
  search re_location l = Some m ->
  exists pre x city county state zip,
    first_location l pre x (m_rest m) city county state zip /\
    m_caps m = location_caps city county state zip.
Proof.
  intros H. apply search_leftmost in H as (pre & s' & -> & Hm & Hmin).
  pose proof (ReFacts.match_at_sound _ _ _ Hm) as (x & Hs & Hx).
  apply location_sound in Hx as (city & county & state & zip & Hloc & Hc).
  exists pre, x, city, county, state, zip. split; [|exact Hc].
  split; [now rewrite Hs|]. split; [exact Hloc|]. split; [|split].
  - intros pre' x' post' city' county' state' zip' Heq Hloc'.
    destruct (Nat.le_gt_cases (length pre) (length pre')) as [Hle|Hlt];
      [exact Hle|].
    exfalso. specialize (Hmin pre' (x' ++ post') Heq Hlt).
    apply location_complete in Hloc'.
    unfold match_at in Hmin.
    now apply (ReFacts.exec_complete _ _ _ _ Hloc' post' kf) in Hmin.
  - intros -> x' post' city' g state' zip' Heq.
    apply app_inv_head in Heq.
    assert (Hcap : cap_get 2 (m_caps m) = None) by now rewrite Hc.
    exact (match_at_location_county s' m Hm Hcap x' post' city' g state' zip'
             Heq).
  - intros [Hl5 _] d4 rest Hd4.
    destruct (match_at_location_zip s' m Hm) as [(z & Hz & Hlz) | Hz];
      [|now apply Hz].
    rewrite Hc in Hz. cbn in Hz. injection Hz as <-. lia.
Qed.


(** The part of a location after the county: it is read in one way. *)
Lemma location_tail_unique wsa sta wa za posta wsb stb wb zb postb :
  is_blank wsa = true -> word sta -> wa <> [] -> is_blank wa = true ->
  zip_shape za ->
  is_blank wsb = true -> word stb -> wb <> [] -> is_blank wb = true ->
  zip_shape zb ->
  (digits 5 za -> forall d4 rest, digits 4 d4 -> posta <> py "-" ++ d4 ++ rest) ->
  (digits 5 zb -> forall d4 rest, digits 4 d4 -> postb <> py "-" ++ d4 ++ rest) ->
  wsa ++ sta ++ wa ++ za ++ posta = wsb ++ stb ++ wb ++ zb ++ postb ->
  sta = stb /\ za = zb.
Proof.
  intros Hwsa [Hsa1 Hsa2] Hwa1 Hwa2 Hza Hwsb [Hsb1 Hsb2] Hwb1 Hwb2 Hzb
         La Lb E.
  assert (Sst : forall st r, st <> [] -> forallb is_letter st = true ->
                             stops is_space (st ++ r)).
  { intros [|a st] r Hne Hl; [congruence|]. cbn in *.
    apply andb_prop in Hl as [Ha _]. apply letter_not_space in Ha.
    now apply negb_true_iff in Ha. }
  assert (Sw : forall w r, w <> [] -> is_blank w = true ->
                           stops is_letter (w ++ r)).
  { intros [|a w] r Hne Hb; [congruence|]. cbn in *.
    apply andb_prop in Hb as [Ha _]. now apply space_not_letter. }
  assert (Sz : forall z r, zip_shape z -> stops is_space (z ++ r)).
  { intros z r (d5 & [Hl Hd] & Hz).
    assert (Hs : stops is_space (d5 ++ py "-" ++ r)).
    { destruct d5 as [|a d5]; [discriminate|]. cbn in *.
      apply andb_prop in Hd as [Ha _]. apply digit_not_space in Ha.
      now apply negb_true_iff in Ha. }
    destruct d5 as [|a d5]; [discriminate|].
    destruct Hz as [-> | (d4 & _ & ->)]; exact Hs. }
  apply (span_eq is_space) in E as [_ E]; auto.
  apply (span_eq is_letter) in E as [Est E]; auto.
  apply (span_eq is_space) in E as [_ E]; auto.
  split; [exact Est|].
  destruct Hza as (a5 & Ha5 & Hza), Hzb as (b5 & Hb5 & Hzb).
  assert (E5 : a5 = b5).
  { destruct Ha5 as [La5 _], Hb5 as [Lb5 _].
    destruct Hza as [-> | (a4 & _ & ->)], Hzb as [-> | (b4 & _ & ->)];
      rewrite <- ?app_assoc in E;
      apply (app_same_length a5 b5 _ _) in E; congruence. }
  subst b5.
  destruct Hza as [-> | (a4 & Ha4 & ->)], Hzb as [-> | (b4 & Hb4 & ->)];
    rewrite <- ?app_assoc in E; apply app_inv_head in E.
  - reflexivity.
  - exfalso. exact (La Ha5 b4 postb Hb4 E).
  - exfalso. symmetry in E. exact (Lb Hb5 a4 posta Ha4 E).
  - cbn in E. injection E as E. f_equal. f_equal.
    destruct Ha4 as [La4 _], Hb4 as [Lb4 _].
    apply (app_same_length a4 b4 _ _) in E; congruence.
Qed.

End FirstLocation.

(** The description of the location that is read leaves no choice of
    fields: two locations that both fit it give the same city and county,
    up to white space around them, and the same state and ZIP code. *)
Lemma first_location_unique l pre1 x1 post1 city1 county1 state1 zip1
      pre2 x2 post2 city2 county2 state2 zip2 :
  first_location l pre1 x1 post1 city1 county1 state1 zip1 ->
  first_location l pre2 x2 post2 city2 county2 state2 zip2 ->
  strip city1 = strip city2 /\
  option_map strip county1 = option_map strip county2 /\
  state1 = state2 /\ zip1 = zip2.
Proof.
  intros (E1 & L1 & Min1 & Cty1 & Z1) (E2 & L2 & Min2 & Cty2 & Z2).
  assert (Hpre : pre1 = pre2).
  { apply (app_same_length pre1 pre2 (x1 ++ post1) (x2 ++ post2));
      [|congruence].
    apply Nat.le_antisymm; [exact (Min1 _ _ _ _ _ _ _ E2 L2)
                           |exact (Min2 _ _ _ _ _ _ _ E1 L1)]. }
  subst pre2.
  assert (E : x1 ++ post1 = x2 ++ post2).
  { apply (app_inv_head pre1). congruence. }
  inversion L1 as [c1 ws1 txt1 co1 st1 w1 z1 [Hc1 Hc1'] Hws1 Hco1 Hst1 Hw1
                      Hw1' Hz1 Hx1].
  inversion L2 as [c2 ws2 txt2 co2 st2 w2 z2 [Hc2 Hc2'] Hws2 Hco2 Hst2 Hw2
                      Hw2' Hz2 Hx2].
  subst c1 c2 co1 co2 st1 st2 z1 z2.
  rewrite <- Hx1, <- Hx2 in E. rewrite <- !app_assoc in E.
  apply (span_eq not_comma) in E as [<- E]; auto; try reflexivity.
  split; [reflexivity|]. injection E as E.
  destruct Hco1 as [[-> ->] | (g1 & wc1 & [Hg1 Hg1'] & Hwc1 & -> & ->)];
    destruct Hco2 as [[-> ->] | (g2 & wc2 & [Hg2 Hg2'] & Hwc2 & -> & ->)].
  - split; [reflexivity|]. cbn [app] in E.
    exact (location_tail_unique _ _ _ _ _ _ _ _ _ _ Hws1 Hst1 Hw1 Hw1' Hz1
             Hws2 Hst2 Hw2 Hw2' Hz2 Z1 Z2 E).
  - exfalso. exact (Cty1 eq_refl x2 post2 city1 g2 state2 zip2 E2 L2).
  - exfalso. exact (Cty2 eq_refl x1 post1 city1 g1 state1 zip1 E1 L1).
  - rewrite <- !app_assoc in E. rewrite !(app_assoc ws1), !(app_assoc ws2) in E.
    apply (span_eq not_comma) in E as [Eg E];
      [| now rewrite forallb_app, Hg1', (blank_not_comma ws1 Hws1)
       | now rewrite forallb_app, Hg2', (blank_not_comma ws2 Hws2)
       | reflexivity | reflexivity].
    injection E as E. split.
    + cbn [option_map]. f_equal.
      rewrite <- (strip_surrounded ws1 g1 [] Hws1 eq_refl),
        <- (strip_surrounded ws2 g2 [] Hws2 eq_refl), !app_nil_r.
      now rewrite Eg.
    + exact (location_tail_unique _ _ _ _ _ _ _ _ _ _ Hwc1 Hst1 Hw1 Hw1' Hz1
               Hwc2 Hst2 Hw2 Hw2' Hz2 Z1 Z2 E).
Qed.

(** What [txt_location] does, by the outcome of the search. *)
Lemma txt_location_first l a :
  match Re.search re_location l with
  | None => txt_location l a = a
  | Some m =>
      exists pre x city county state zip,
        first_location l pre x (Re.m_rest m) city county state zip /\
        txt_location l a = with_location city county state zip a
  end.
Proof.
  unfold txt_location.
  destruct (Re.search re_location l) as [m|] eqn:E; [|reflexivity].
  apply search_location_first in E
    as (pre & x & city & county & state & zip & Hfirst & Hc).
  exists pre, x, city, county, state, zip. split; [exact Hfirst|].
  destruct Hfirst as (_ & Hloc & _).
  unfold group_text, Re.group. rewrite Hc. unfold with_location.
  inversion Hloc as [? ? ? ? ? ? ? Hcity _ Hcounty Hword _ _ Hzip]; subst.
  destruct county as [g|]; cbn [location_caps Re.cap_get Re.cap_set Nat.eqb];
    rewrite (strip_word _ Hword), (strip_zip _ Hzip); [|reflexivity].
  destruct Hcounty as [[_ [=]] | (g' & ws & [Hg _] & _ & _ & [= ->])].
  destruct g' as [|? ?]; [congruence | reflexivity].
Qed.

(** C8 (as amended).  In a paragraph of three lines or more the city,
    county, state and ZIP fields depend on the last line alone.  When the
    last line has no location in it (a city segment without comma that ends
    at a comma, an optional county segment between two commas, a state word
    of letters, a ZIP code of five digits with an optional dash and four
    digits), none of the four is set.  When it has one, the fields are set
    from the location that the search reads: the one that starts leftmost in
    the line, so its city need not end at the first comma of the line; with
    a county whenever a location that starts there has one; with the dash
    and the four digits in its ZIP code whenever they follow.  City and
    county are stripped.  That description fixes the four fields: whatever
    location fits it, the fields are those of that location.  The paragraph
    of Acme Inc. yields the record of the scenario. *)
Theorem txt_location_fields (first_line : str) (lines : list str) :
  3 <= length lines ->
  let a := txt_address first_line lines in
  let l := last lines [] in
  (~ has_location l ->
   Dict.get k_city a = None /\ Dict.get k_county a = None /\
   Dict.get k_state a = None /\ Dict.get k_zip a = None) /\
  (has_location l ->
   exists pre x post city county state zip,
     first_location l pre x post city county state zip) /\
  (forall pre x post city county state zip,
     first_location l pre x post city county state zip ->
     Dict.get k_city a = Some (strip city) /\
     Dict.get k_county a = option_map strip county /\
     Dict.get k_state a = Some state /\
     Dict.get k_zip a = Some zip) /\
  txt_records acme_paragraph = [acme].
Proof.
  intros H a l.
  destruct (txt_address_base first_line lines H)
    as (base & Ha & Hb1 & Hb2 & Hb3 & Hb4).
  fold a l in Ha. pose proof (txt_location_first l base) as Hspec.
  pose proof (search_location_iff l) as Hiff.
  destruct (Re.search re_location l) as [m|].
  - destruct Hspec as (pre & x & city & county & state & zip & Hfirst & Hw).
    rewrite Hw in Ha.
    destruct (with_location_fields city county state zip base)
      as (F1 & F2 & F3 & F4).
    split; [|split; [|split; [|reflexivity]]].
    + intros Hno. exfalso. apply Hno, Hiff. discriminate.
    + intros _. now exists pre, x, (Re.m_rest m), city, county, state, zip.
    + intros pre' x' post' city' county' state' zip' Hfirst'.
      destruct (first_location_unique _ _ _ _ _ _ _ _ _ _ _ _ _ _ _
                  Hfirst' Hfirst) as (U1 & U2 & -> & ->).
      rewrite Ha, U1, U2. repeat split; auto.
      rewrite F2. destruct county; [reflexivity | exact Hb2].
  - rewrite Hspec in Ha. rewrite Ha.
    split; [|split; [|split; [|reflexivity]]].
    + intros _. auto.
    + intros Hloc. apply Hiff in Hloc. congruence.
    + intros pre' x' post' city' county' state' zip' (El & Hloc & _).
      exfalso. assert (Hl : has_location l)
        by now exists pre', x', post', city', county', state', zip'.
      apply Hiff in Hl. congruence.
Qed.

Lemma txt_location_fields_witness :
  3 <= length [py "Acme Inc."; py "123 Main St"; py "Springfield, IL 62704"] /\
  txt_address (py "Acme Inc.")
    [py "Acme Inc."; py "123 Main St"; py "Springfield, IL 62704"] = acme /\
  has_location (py "Springfield, IL 62704") /\
  exists pre x post city county state zip,
    first_location (py "Springfield, IL 62704") pre x post city county state
      zip.
Proof.
  assert (H : 3 <= length [py "Acme Inc."; py "123 Main St";
                           py "Springfield, IL 62704"]) by (cbn; lia).
  assert (Hl : has_location (py "Springfield, IL 62704")).
  { apply search_location_iff. vm_compute. discriminate. }
  split; [exact H|]. split; [reflexivity|]. split; [exact Hl|].
  pose proof (txt_location_fields (py "Acme Inc.") _ H) as T.
  cbv zeta in T. destruct T as (_ & T & _). exact (T Hl).
Defined.

(** C8 (as stated) fails: the search is not anchored, so the city need not
    be the text before the first comma.  In ["A, B, C, IL 62704"] that text
    is ["A"], and the city of the record is ["B"]. *)
Lemma city_after_first_comma :
  txt_records three_commas_paragraph = [three_commas] /\
  hd [] (split_on ","%char (py "A, B, C, IL 62704")) = py "A" /\
  Dict.get k_city three_commas = Some (py "B").
Proof. repeat split. Qed.

(* ================================================================== *)
(** * The free-text parser: splitting into paragraphs *)

Section BlankSeparator.
Import Re Split.

Lemma match_at_sep s :
  match_at re_blank_sep s =
  match s with
  | a :: s' => if is_nl a then star is_space s' sep_tail else None
  | [] => None
  end.
Proof.
  unfold match_at, re_blank_sep. cbn [exec].
  destruct s as [|a s]; [reflexivity|].
  destruct (is_nl a); [|reflexivity].
  f_equal.
Qed.

Lemma is_nl_space c : is_nl c = true -> is_space c = true.
Proof. unfold is_nl, is_char. intros H. apply Ascii.eqb_eq in H. now subst. Qed.

Lemma sep_tail_not_nl c s : is_nl c = false -> sep_tail (c :: s) = None.
Proof. intros H. cbn. now rewrite H. Qed.

(** A blank line and its newline are swallowed; the match ends there
    unless it can go on. *)
Lemma star_blank_line l t :
  is_blank l = true ->
  star is_space (l ++ nl :: t) sep_tail =
  Some match star is_space t sep_tail with
       | Some m => m
       | None => {| m_caps := []; m_rest := t |}
       end.
Proof.
  induction l as [|c l IH]; intros Hl.
  - cbn [app star]. change (is_space nl) with true. cbv iota.
    now destruct (star is_space t sep_tail).
  - cbn in Hl. apply andb_prop in Hl as [Hc Hl].
    cbn [app star]. rewrite Hc, (IH Hl). reflexivity.
Qed.

(** No match through a line that is not blank. *)
Lemma star_non_blank_line l t :
  no_nl l -> is_blank l = false -> star is_space (l ++ t) sep_tail = None.
Proof.
  unfold no_nl. induction l as [|c l IH]; intros Hn Hl; [discriminate|].
  cbn in Hn, Hl. apply andb_prop in Hn as [Hc Hn].
  apply negb_true_iff in Hc.
  cbn [app star]. destruct (is_space c) eqn:Es.
  - rewrite (IH Hn Hl). now apply sep_tail_not_nl.
  - now apply sep_tail_not_nl.
Qed.

(** No match through a last line. *)
Lemma star_last_line l : no_nl l -> star is_space l sep_tail = None.
Proof.
  unfold no_nl. induction l as [|c l IH]; intros Hn; [reflexivity|].
  cbn in Hn. apply andb_prop in Hn as [Hc Hn]. apply negb_true_iff in Hc.
  cbn [star]. rewrite (IH Hn).
  destruct (is_space c); now apply sep_tail_not_nl.
Qed.

Lemma join_cons l l' ls :
  join [nl] (l :: l' :: ls) = l ++ nl :: join [nl] (l' :: ls).
Proof. reflexivity. Qed.

(** The separator after its first newline, on a text given by its lines. *)
Lemma star_lines l ls :
  Forall no_nl (l :: ls) ->
  star is_space (join [nl] (l :: ls)) sep_tail =
  if blank_followed l ls
  then Some {| m_caps := []; m_rest := join [nl] (sep_drop (l :: ls)) |}
  else None.
Proof.
  revert l. induction ls as [|l' ls IH]; intros l Hall.
  - unfold blank_followed. rewrite andb_false_r. cbn [join].
    apply star_last_line. now inversion Hall.
  - inversion Hall as [|? ? Hl Hrest]; subst.
    rewrite join_cons.
    change (sep_drop (l :: l' :: ls))
      with (if blank_followed l (l' :: ls) then sep_drop (l' :: ls)
            else l :: l' :: ls).
    unfold blank_followed at 1 2.
    destruct (is_blank l) eqn:Eb; cbn [andb].
    + rewrite (star_blank_line _ _ Eb), (IH l' Hrest).
      destruct (blank_followed l' ls) eqn:E2; [reflexivity|].
      cbn [sep_drop]. now rewrite E2.
    + now apply star_non_blank_line.
Qed.

Lemma split_aux_skip r x cur s :
  split_aux r (length x) cur (x ++ s) = split_aux r 0 cur s.
Proof. induction x as [|c x IH]; [reflexivity | exact IH]. Qed.

(** A stretch without newline goes to the piece being collected. *)
Lemma split_aux_collect h : forall rcur s,
  no_nl h ->
  split_aux re_blank_sep 0 rcur (h ++ s)
  = split_aux re_blank_sep 0 (rev h ++ rcur) s.
Proof.
  unfold no_nl. induction h as [|c h IH]; intros rcur s Hn; [reflexivity|].
  cbn in Hn. apply andb_prop in Hn as [Hc Hn]. apply negb_true_iff in Hc.
  cbn [app split_aux]. rewrite match_at_sep, Hc, (IH _ _ Hn).
  cbn [rev]. now rewrite <- app_assoc.
Qed.

Lemma sep_drop_suffix ls :
  exists x, join [nl] ls = x ++ join [nl] (sep_drop ls).
Proof.
  induction ls as [|l ls (x & IH)]; [now exists []|].
  cbn [sep_drop]. destruct (blank_followed l ls) eqn:E; [|now exists []].
  destruct ls as [|l' ls]; [unfold blank_followed in E;
                            now rewrite andb_false_r in E|].
  exists (l ++ nl :: x). rewrite join_cons, IH. now rewrite <- app_assoc.
Qed.

Lemma sep_drop_not_nil ls : ls <> [] -> sep_drop ls <> [].
Proof.
  induction ls as [|l ls IH]; [congruence|]. intros _. cbn.
  destruct (blank_followed l ls) eqn:E; [|discriminate].
  apply IH. intros ->. unfold blank_followed in E.
  now rewrite andb_false_r in E.
Qed.

Lemma sep_drop_length ls : length (sep_drop ls) <= length ls.
Proof.
  induction ls as [|l ls IH]; [reflexivity|]. cbn.
  destruct (blank_followed l ls); cbn; lia.
Qed.

Lemma sep_drop_Forall (P : str -> Prop) ls :
  Forall P ls -> Forall P (sep_drop ls).
Proof.
  induction 1 as [|l ls Hl Hls IH]; [constructor|]. cbn.
  destruct (blank_followed l ls); [exact IH | now constructor].
Qed.

Lemma pieces_in_sep ls :
  pieces true [] ls =
  match sep_drop ls with
  | h :: rest => pieces false h rest
  | [] => [[]]
  end.
Proof.
  induction ls as [|l ls IH]; [reflexivity|]. cbn [pieces sep_drop].
  destruct (blank_followed l ls); [exact IH | reflexivity].
Qed.

(** After a line without newline: the end of the text, or a newline and
    the lines that follow. *)
Lemma split_aux_line (h : str) (rest : list str) (rcur : str) :
  no_nl h ->
  split_aux re_blank_sep 0 rcur (join [nl] (h :: rest)) =
  match rest with
  | [] => [rev rcur ++ h]
  | _ => split_aux re_blank_sep 0 (rev h ++ rcur) (nl :: join [nl] rest)
  end.
Proof.
  intros Hh. destruct rest as [|l rest].
  - cbn [join]. rewrite <- (app_nil_r h) at 1.
    rewrite split_aux_collect by exact Hh. cbn [split_aux].
    now rewrite rev_app_distr, rev_involutive.
  - rewrite join_cons. now apply split_aux_collect.
Qed.

(** [re.split] at a newline, told by the lines that follow it. *)
Lemma split_aux_lines n : forall ls rcur,
  length ls <= n -> ls <> [] -> Forall no_nl ls ->
  split_aux re_blank_sep 0 rcur (nl :: join [nl] ls)
  = pieces false (rev rcur) ls.
Proof.
  induction n as [|n IH]; intros [|l ls] rcur Hlen Hne Hall;
    try congruence; [cbn in Hlen; lia|].
  cbn [split_aux]. rewrite match_at_sep.
  change (is_nl nl) with true. cbv iota.
  rewrite (star_lines l ls Hall). cbn [pieces].
  inversion Hall as [|? ? Hl Hls]; subst.
  destruct (blank_followed l ls) eqn:E.
  - cbn [m_rest].
    destruct (sep_drop_suffix (l :: ls)) as (x & Hx).
    pose proof (sep_drop_not_nil (l :: ls) Hne) as Hd.
    pose proof (sep_drop_length (l :: ls)) as Hdl.
    pose proof (sep_drop_Forall no_nl (l :: ls) Hall) as Hda.
    rewrite pieces_in_sep.
    assert (Hsd : sep_drop (l :: ls) = sep_drop ls) by (cbn; now rewrite E).
    rewrite <- Hsd.
    replace (length (nl :: join [nl] (l :: ls))
             - length (join [nl] (sep_drop (l :: ls))))
      with (S (length x))
      by (rewrite Hx; cbn [length]; rewrite length_app; lia).
    rewrite Hx, split_aux_skip.
    destruct (sep_drop (l :: ls)) as [|h rest]; [congruence|].
    inversion Hda as [|? ? Hh Hrest]; subst.
    f_equal. rewrite (split_aux_line h rest [] Hh).
    destruct rest as [|l2 rest]; [reflexivity|].
    rewrite IH; [|cbn in *; lia | discriminate | exact Hrest].
    now rewrite app_nil_r, rev_involutive.
  - rewrite (split_aux_line l ls (nl :: rcur) Hl).
    destruct ls as [|l2 ls].
    + cbn [pieces rev]. now rewrite <- app_assoc.
    + rewrite IH; [|cbn in *; lia | discriminate | exact Hls].
      rewrite rev_app_distr, rev_involutive. cbn [rev].
      now rewrite <- app_assoc.
Qed.

Lemma split_on_no_nl s : Forall no_nl (split_on nl s).
Proof.
  induction s as [|c s IH]; cbn [split_on]; [now repeat constructor|].
  destruct (Ascii.eqb c nl) eqn:E; [constructor; [reflexivity | exact IH]|].
  destruct (split_on nl s) as [|w ws] eqn:Es;
    [now apply split_on_not_nil in Es|].
  inversion IH as [|? ? Hw Hws]; subst. constructor; [|exact Hws].
  unfold no_nl in *. cbn. unfold is_nl, is_char at 1. now rewrite E.
Qed.

Lemma join_split_on s : join [nl] (split_on nl s) = s.
Proof.
  induction s as [|c s IH]; [reflexivity|]. cbn [split_on].
  pose proof (split_on_not_nil nl s) as Hne.
  destruct (Ascii.eqb c nl) eqn:E.
  - apply Ascii.eqb_eq in E. subst c.
    destruct (split_on nl s) as [|w ws]; [congruence|].
    rewrite join_cons, IH. reflexivity.
  - destruct (split_on nl s) as [|w ws]; [congruence|].
    destruct ws as [|w' ws]; cbn [join] in *; now rewrite <- IH.
Qed.

(** [re.split] with the blank-line separator, by the lines of the text. *)
Lemma split_lines content :
  split re_blank_sep content =
  match lines_of content with
  | l :: ls => pieces false l ls
  | [] => [[]]
  end.
Proof.
  unfold split, lines_of.
  pose proof (split_on_no_nl content) as Hall.
  pose proof (split_on_not_nil nl content) as Hne.
  rewrite <- (join_split_on content) at 1.
  destruct (split_on nl content) as [|l ls]; [congruence|].
  inversion Hall as [|? ? Hl Hls]; subst.
  rewrite (split_aux_line l ls [] Hl).
  destruct ls as [|l2 ls]; [reflexivity|].
  rewrite (split_aux_lines (length (l2 :: ls)));
    [|reflexivity | discriminate | exact Hls].
  now rewrite app_nil_r, rev_involutive.
Qed.

End BlankSeparator.

(* ================================================================== *)
(** * The free-text parser: blank pieces *)

Lemma txt_record_blank p : is_blank p = true -> txt_record p = None.
Proof. intros H. unfold txt_record. now rewrite truthy_strip, H. Qed.

Lemma is_blank_add_line cur l :
  is_blank (cur ++ nl :: l) = is_blank cur && is_blank l.
Proof. now rewrite is_blank_app. Qed.

Lemma blank_followed_false l ls :
  blank_followed l ls = false -> is_blank l = true -> ls = [].
Proof.
  unfold blank_followed. intros H Hl. rewrite Hl in H. now destruct ls.
Qed.

(* ================================================================== *)
(** * Ways in which a file fails to parse, and runs on small inputs *)

(** The failures the driver meets: XML that is not well formed or cannot be
    read, a tabular file without lines, a tabular or text file that cannot
    be read, and an extension that is none of the three. *)
Lemma failing_files (w : world) (p : str) :
  let ext := lower (splitext_ext p) in
  (ext = py ".xml" /\ forall f root, w p = Some f -> f_xml f <> XmlTree root) \/
  (ext = py ".tsv" /\ exists f, w p = Some f /\ f_text f = Some []) \/
  ((ext = py ".tsv" \/ ext = py ".txt") /\
   forall f, w p = Some f -> f_text f = None) \/
  (ext <> py ".xml" /\ ext <> py ".tsv" /\ ext <> py ".txt") ->
  parses w p = None.
Proof.
  intros ext H. unfold parses, parse_outcome, parse_file. fold ext.
  destruct H as [[He Hx] | [[He (f & Hf & Ht)] | [[He Ht] | (H1 & H2 & H3)]]].
  - rewrite He. cbn [str_eqb]. change (str_eqb (py ".xml") (py ".xml")) with true.
    cbv iota. unfold parse_xml_file.
    destruct (w p) as [f|] eqn:Ef; [|reflexivity].
    specialize (Hx f). destruct (f_xml f); try reflexivity.
    now destruct (Hx root).
  - rewrite He. change (str_eqb (py ".tsv") (py ".xml")) with false.
    change (str_eqb (py ".tsv") (py ".tsv")) with true. cbv iota.
    unfold parse_tsv_file. rewrite Hf. destruct f as [t x]. cbn in Ht.
    now rewrite Ht.
  - destruct He as [He | He]; rewrite He.
    + change (str_eqb (py ".tsv") (py ".xml")) with false.
      change (str_eqb (py ".tsv") (py ".tsv")) with true. cbv iota.
      unfold parse_tsv_file. destruct (w p) as [[t x]|] eqn:Ef; [|reflexivity].
      specialize (Ht _ eq_refl). cbn in Ht. now rewrite Ht.
    + change (str_eqb (py ".txt") (py ".xml")) with false.
      change (str_eqb (py ".txt") (py ".tsv")) with false.
      change (str_eqb (py ".txt") (py ".txt")) with true. cbv iota.
      unfold parse_txt_file. destruct (w p) as [[t x]|] eqn:Ef; [|reflexivity].
      specialize (Ht _ eq_refl). cbn in Ht. now rewrite Ht.
  - apply str_eqb_neq in H1, H2, H3. now rewrite H1, H2, H3.
Qed.

(** On a match of the patterns with groups, the groups the script reads
    without a test took part in the match. *)
Lemma location_groups_set l m :
  Re.search re_location l = Some m ->
  Re.group m 1 <> None /\ Re.group m 3 <> None /\ Re.group m 4 <> None.
Proof.
  intros H. apply ReFacts.search_sound in H as (pre & x & _ & Hm).
  apply location_sound in Hm as (city & county & state & zip & _ & Hc).
  unfold Re.group. rewrite Hc. destruct county; repeat split; discriminate.
Qed.

Lemma zip5_group_set s m :
  Re.search re_zip5 s = Some m -> Re.group m 1 <> None.
Proof.
  intros H. pose proof (search_zip5 s) as Hs. rewrite H in Hs.
  destruct Hs as (i & w & _ & _ & Hg). congruence.
Qed.

Example normalize_zip_code_examples :
  normalize_zip_code (py "") = py "00000" /\
  normalize_zip_code (py "90210-1234") = py "90210" /\
  normalize_zip_code (py "ZIP 1234") = py "00000" /\
  normalize_zip_code (py "x1234 y567890") = py "56789".
Proof. repeat split. Qed.

Example splitext_examples :
  lower (splitext_ext (py "data/In.put.TSV")) = py ".tsv" /\
  splitext_ext (py ".hidden") = py "" /\
  splitext_ext (py "a.d/file") = py "" /\
  splitext_ext (py "b.csv") = py ".csv".
Proof. repeat split. Qed.

Example txt_records_example :
  txt_records
    (paragraph [py "  "; py "Acme Inc."; py "123 Main St";
                py "Springfield, IL 62704"; py ""; py " "; py "Solo"; py ""])
  = [acme; [(k_name, py "Solo")]].
Proof. vm_compute. reflexivity. Qed.

Example run_example :
  run {| file_at := fun p =>
           if str_eqb p (py "a.txt")
           then Some {| f_text := Some (py "Solo"); f_xml := XmlParseError |}
           else if str_eqb p (py "b.xml")
           then Some {| f_text := None; f_xml := XmlTree jane_doe_root |}
           else None;
         output_writable := true |}
      [py "a.txt"; py "b.xml"]
  = (Exit 0,
     {| stdout := [OutJson [[(k_name, py "Solo")]; jane_doe]; OutSuccess 2];
        stderr := [];
        output_json := Some [[(k_name, py "Solo")]; jane_doe] |}).
Proof. vm_compute. reflexivity. Qed.

(* ================================================================== *)
(** * The free-text parser: the record of each paragraph *)

Lemma join_cons_ne l rest :
  rest <> [] -> join [nl] (l :: rest) = l ++ nl :: join [nl] rest.
Proof. destruct rest; [congruence | reflexivity]. Qed.

Lemma join_app a b :
  a <> [] -> b <> [] -> join [nl] (a ++ b) = join [nl] a ++ nl :: join [nl] b.
Proof.
  intros Ha Hb. induction a as [|l a IH]; [congruence|].
  destruct a as [|l' a].
  - cbn [app]. now apply join_cons_ne.
  - cbn [app] in *. rewrite !join_cons, IH by discriminate.
    now rewrite <- app_assoc.
Qed.

Lemma is_blank_join ls : is_blank (join [nl] ls) = forallb is_blank ls.
Proof.
  induction ls as [|l ls IH]; [reflexivity|].
  destruct ls as [|l' ls]; [cbn; now rewrite andb_true_r|].
  rewrite join_cons, is_blank_add_line, IH. reflexivity.
Qed.

Lemma no_nl_app a b : no_nl (a ++ b) <-> no_nl a /\ no_nl b.
Proof. unfold no_nl. rewrite forallb_app. apply andb_true_iff. Qed.

Lemma no_nl_lstrip s : no_nl s -> no_nl (lstrip s).
Proof.
  destruct (lstrip_decompose s) as (pre & _ & Hs). intros H.
  rewrite Hs in H. now apply no_nl_app in H.
Qed.

Lemma no_nl_rstrip s : no_nl s -> no_nl (rstrip s).
Proof.
  destruct (rstrip_decompose s) as (post & _ & Hs). intros H.
  rewrite Hs in H. now apply no_nl_app in H.
Qed.

Lemma split_on_line l : no_nl l -> split_on nl l = [l].
Proof.
  unfold no_nl. induction l as [|c l IH]; intros H; [reflexivity|].
  cbn in H. apply andb_prop in H as [Hc Hl]. apply negb_true_iff in Hc.
  cbn [split_on]. unfold is_nl, is_char in Hc. now rewrite Hc, (IH Hl).
Qed.

Lemma split_on_line_cons l t :
  no_nl l -> split_on nl (l ++ nl :: t) = l :: split_on nl t.
Proof.
  unfold no_nl. induction l as [|c l IH]; intros H.
  - cbn [app split_on]. now rewrite Ascii.eqb_refl.
  - cbn in H. apply andb_prop in H as [Hc Hl]. apply negb_true_iff in Hc.
    cbn [app split_on]. unfold is_nl, is_char in Hc. now rewrite Hc, (IH Hl).
Qed.

Lemma split_on_join ls :
  ls <> [] -> Forall no_nl ls -> split_on nl (join [nl] ls) = ls.
Proof.
  intros Hne Hall. induction Hall as [|l ls Hl Hls IH]; [congruence|].
  destruct ls as [|l' ls]; [now apply split_on_line|].
  rewrite join_cons, (split_on_line_cons _ _ Hl), IH by discriminate.
  reflexivity.
Qed.

Lemma rstrip_app_non_blank y z :
  is_blank z = false -> rstrip (y ++ z) = y ++ rstrip z.
Proof.
  intros H. unfold rstrip.
  rewrite rev_app_distr, lstrip_app_non_blank by now rewrite is_blank_rev.
  now rewrite rev_app_distr, rev_involutive.
Qed.

Lemma strip_lstrip s : strip (lstrip s) = strip s.
Proof. unfold strip. now rewrite lstrip_idem. Qed.

Lemma strip_rstrip s : strip (rstrip s) = strip s.
Proof.
  destruct (rstrip_decompose s) as (post & Hb & Hs).
  rewrite Hs at 2. rewrite <- (app_nil_l (rstrip s ++ post)).
  symmetry. now apply strip_surrounded.
Qed.

Lemma lstrip_join l rest :
  is_blank l = false -> lstrip (join [nl] (l :: rest)) = join [nl] (lstrip l :: rest).
Proof.
  intros H. destruct rest as [|l' rest]; [reflexivity|].
  now rewrite !join_cons, lstrip_app_non_blank.
Qed.

Lemma rstrip_join front m :
  is_blank m = false ->
  rstrip (join [nl] (front ++ [m])) = join [nl] (front ++ [rstrip m]).
Proof.
  intros H. induction front as [|l front IH]; [reflexivity|].
  cbn [app]. rewrite !join_cons_ne by (now destruct front).
  change (l ++ nl :: join [nl] (front ++ [m]))
    with (l ++ [nl] ++ join [nl] (front ++ [m])).
  rewrite app_assoc, rstrip_app_non_blank, IH.
  - now rewrite <- app_assoc.
  - rewrite is_blank_join, forallb_app. cbn. rewrite H.
    now rewrite andb_false_r.
Qed.

(** The stripped lines of the stripped text of a paragraph are the
    stripped lines of the paragraph. *)
Lemma stripped_lines (par : list str) :
  par <> [] -> Forall no_nl par -> forallb non_blank_line par = true ->
  map strip (split_on nl (strip (join [nl] par))) = map strip par.
Proof.
  intros Hne Hall Hnb. destruct par as [|n rest]; [congruence|].
  cbn [forallb] in Hnb. apply andb_prop in Hnb as [Hn Hrest].
  apply negb_true_iff in Hn. inversion Hall as [|? ? Hnn Hrn]; subst.
  change (strip (join [nl] (n :: rest)))
    with (rstrip (lstrip (join [nl] (n :: rest)))).
  rewrite (lstrip_join n rest Hn).
  assert (Hl : lstrip n :: rest <> []) by discriminate.
  destruct (exists_last Hl) as (front & m & Hfm). rewrite Hfm.
  assert (Hall' : Forall no_nl (front ++ [m])).
  { rewrite <- Hfm. constructor; [now apply no_nl_lstrip | exact Hrn]. }
  assert (Hm : is_blank m = false).
  { assert (Hin : In m (lstrip n :: rest)) by (rewrite Hfm; apply in_or_app;
                                              right; now left).
    destruct Hin as [<- | Hin]; [now rewrite is_blank_lstrip|].
    rewrite forallb_forall in Hrest. specialize (Hrest _ Hin).
    now apply negb_true_iff in Hrest. }
  rewrite (rstrip_join front m Hm).
  rewrite split_on_join.
  - rewrite map_app. cbn [map]. rewrite strip_rstrip.
    change [strip m] with (map strip [m]). rewrite <- map_app, <- Hfm.
    cbn [map]. now rewrite strip_lstrip.
  - now destruct front.
  - apply Forall_app in Hall' as [Hf Hm']. apply Forall_app. split; [exact Hf|].
    inversion Hm'; subst. constructor; [now apply no_nl_rstrip | constructor].
Qed.

(** A piece of blank lines, a paragraph and blank lines again gives the
    record of the paragraph; a piece of blank lines gives none. *)
Lemma txt_record_join (b par b' : list str) :
  Forall no_nl par ->
  forallb is_blank b = true -> forallb non_blank_line par = true ->
  forallb is_blank b' = true ->
  txt_record (join [nl] (b ++ par ++ b')) =
  match par with
  | [] => None
  | _ => Some (record_of_paragraph par)
  end.
Proof.
  intros Hall Hb Hpar Hb'. destruct par as [|n rest].
  - apply txt_record_blank. cbn [app].
    now rewrite is_blank_join, forallb_app, Hb, Hb'.
  - set (par := n :: rest) in *.
    assert (Hne : par <> []) by discriminate.
    assert (Hs : strip (join [nl] (b ++ par ++ b')) = strip (join [nl] par)).
    { assert (H1 : exists post, is_blank post = true /\
                     join [nl] (par ++ b') = join [nl] par ++ post).
      { destruct b' as [|l' b'].
        - exists []. now rewrite !app_nil_r.
        - exists (nl :: join [nl] (l' :: b')). split.
          + change (is_blank (join [nl] (l' :: b')) = true).
            now rewrite is_blank_join.
          + now apply join_app. }
      destruct H1 as (post & Hpost & Hj).
      destruct b as [|l b].
      - cbn [app]. rewrite Hj, <- (app_nil_l (join [nl] par ++ post)).
        now apply strip_surrounded.
      - rewrite join_app; [|discriminate | now destruct par].
        rewrite Hj.
        change (join [nl] (l :: b) ++ nl :: join [nl] par ++ post)
          with (join [nl] (l :: b) ++ [nl] ++ join [nl] par ++ post).
        rewrite app_assoc. apply strip_surrounded; [|exact Hpost].
        now rewrite is_blank_app, is_blank_join, Hb. }
    assert (Hnb : is_blank (join [nl] par) = false).
    { rewrite is_blank_join. unfold par. cbn [forallb] in *.
      apply andb_prop in Hpar as [Hn _]. unfold non_blank_line in Hn.
      apply negb_true_iff in Hn. now rewrite Hn. }
    unfold txt_record. rewrite Hs, truthy_strip, Hnb. cbn [negb].
    rewrite (stripped_lines par Hne Hall Hpar).
    unfold record_of_paragraph. reflexivity.
Qed.

Lemma paragraphs_acc_end par :
  paragraphs_acc (rev par) [] = match par with [] => [] | _ => [par] end.
Proof.
  cbn. destruct par as [|n rest]; [reflexivity|].
  destruct (rev (n :: rest)) eqn:E; [|now rewrite <- E, rev_involutive].
  apply (f_equal (@rev str)) in E. rewrite rev_involutive in E. discriminate.
Qed.

Lemma paragraphs_acc_blank par l ls :
  is_blank l = true ->
  paragraphs_acc (rev par) (l :: ls) =
  match par with
  | [] => paragraphs_acc [] ls
  | _ => par :: paragraphs_acc [] ls
  end.
Proof.
  intros H. cbn [paragraphs_acc]. rewrite H.
  destruct par as [|n rest]; [reflexivity|].
  destruct (rev (n :: rest)) eqn:E; [|now rewrite <- E, rev_involutive].
  apply (f_equal (@rev str)) in E. rewrite rev_involutive in E. discriminate.
Qed.

Lemma paragraphs_acc_non_blank par l ls :
  is_blank l = false ->
  paragraphs_acc (rev par) (l :: ls) = paragraphs_acc (rev (par ++ [l])) ls.
Proof.
  intros H. cbn [paragraphs_acc]. rewrite H. now rewrite rev_app_distr.
Qed.

Lemma filter_map_one (p : str) (r : option address) :
  txt_record p = r ->
  filter_map txt_record [p] = match r with Some a => [a] | None => [] end.
Proof. intros <-. cbn. now destruct (txt_record p). Qed.

(** The records of the pieces are the records of the paragraphs, in
    order.  The piece being collected holds blank lines [b] and then the
    lines [par] of the paragraph being read. *)
Lemma pieces_paragraphs ls :
  Forall no_nl ls ->
  (forall b par,
      b ++ par <> [] -> Forall no_nl (b ++ par) ->
      forallb is_blank b = true -> forallb non_blank_line par = true ->
      filter_map txt_record (pieces false (join [nl] (b ++ par)) ls)
      = map record_of_paragraph (paragraphs_acc (rev par) ls)) /\
  filter_map txt_record (pieces true [] ls)
  = map record_of_paragraph (paragraphs ls).
Proof.
  induction 1 as [|l ls Hl Hls [IHf IHt]].
  - split; [|reflexivity].
    intros b par Hne Hall Hb Hpar. cbn [pieces].
    rewrite paragraphs_acc_end.
    assert (Hp : Forall no_nl par) by now apply Forall_app in Hall.
    pose proof (txt_record_join b par [] Hp Hb Hpar eq_refl) as Hr.
    rewrite app_nil_r in Hr. rewrite (filter_map_one _ _ Hr).
    now destruct par.
  - split.
    + intros b par Hne Hall Hb Hpar. cbn [pieces].
      assert (Hp : Forall no_nl par) by now apply Forall_app in Hall.
      destruct (blank_followed l ls) eqn:E.
      * assert (Hbl : is_blank l = true)
          by (unfold blank_followed in E; now apply andb_prop in E).
        rewrite (paragraphs_acc_blank par l ls Hbl).
        pose proof (txt_record_join b par [] Hp Hb Hpar eq_refl) as Hr.
        rewrite app_nil_r in Hr.
        cbn [filter_map]. rewrite Hr, IHt. now destruct par.
      * destruct (is_blank l) eqn:Hbl.
        -- rewrite (blank_followed_false l ls E Hbl).
           rewrite (paragraphs_acc_blank par l [] Hbl). cbn [pieces].
           assert (Hj : join [nl] (b ++ par) ++ nl :: l
                        = join [nl] (b ++ par ++ [l])).
           { rewrite app_assoc. symmetry. now apply join_app. }
           rewrite Hj.
           assert (Hb' : forallb is_blank [l] = true) by (cbn; now rewrite Hbl).
           pose proof (txt_record_join b par [l] Hp Hb Hpar Hb') as Hr.
           rewrite (filter_map_one _ _ Hr). now destruct par.
        -- rewrite (paragraphs_acc_non_blank par l ls Hbl).
           assert (Hj : join [nl] (b ++ par) ++ nl :: l
                        = join [nl] (b ++ par ++ [l])).
           { rewrite app_assoc. symmetry. now apply join_app. }
           rewrite Hj. apply IHf.
           ++ intros Hc. apply app_eq_nil in Hc as [_ Hc].
              apply app_eq_nil in Hc as [_ Hc]. discriminate.
           ++ rewrite app_assoc. apply Forall_app. split; [exact Hall|].
              now constructor.
           ++ exact Hb.
           ++ rewrite forallb_app, Hpar. cbn. unfold non_blank_line.
              now rewrite Hbl.
    + cbn [pieces]. unfold paragraphs. cbn [paragraphs_acc].
      destruct (blank_followed l ls) eqn:E.
      * assert (Hbl : is_blank l = true)
          by (unfold blank_followed in E; now apply andb_prop in E).
        rewrite Hbl. exact IHt.
      * destruct (is_blank l) eqn:Hbl.
        -- apply (IHf [l] []); [discriminate | now constructor | |reflexivity].
           cbn. now rewrite Hbl.
        -- apply (IHf [] [l]); [discriminate | now constructor | reflexivity|].
           cbn. unfold non_blank_line. now rewrite Hbl.
Qed.

(** The free-text parser, paragraph by paragraph. *)
Lemma txt_records_paragraphs (content : str) :
  txt_records content
  = map record_of_paragraph (paragraphs (lines_of content)).
Proof.
  unfold txt_records. rewrite split_lines.
  pose proof (split_on_no_nl content) as Hall. fold (lines_of content) in Hall.
  destruct (lines_of content) as [|l ls]; [reflexivity|].
  inversion Hall as [|? ? Hl Hls]; subst.
  destruct (pieces_paragraphs ls Hls) as [Hf _].
  unfold paragraphs. cbn [paragraphs_acc].
  destruct (is_blank l) eqn:Hbl.
  - apply (Hf [l] []); [discriminate | now constructor | |reflexivity].
    cbn. now rewrite Hbl.
  - apply (Hf [] [l]); [discriminate | now constructor | reflexivity|].
    cbn. unfold non_blank_line. now rewrite Hbl.
Qed.

(** The paragraphs are runs of lines that are not blank, and together
    they are the lines of the text that are not blank, in order. *)
Lemma paragraphs_acc_runs ls : forall cur,
  forallb non_blank_line cur = true ->
  Forall (fun par => par <> [] /\ forallb non_blank_line par = true)
         (paragraphs_acc cur ls) /\
  concat (paragraphs_acc cur ls) = rev cur ++ filter non_blank_line ls.
Proof.
  assert (Hrev : forall (c : str) cur, rev (c :: cur) <> []).
  { intros c cur E. apply (f_equal (@length str)) in E.
    rewrite length_rev in E. discriminate. }
  induction ls as [|l ls IH]; intros cur Hcur.
  - cbn [paragraphs_acc filter]. destruct cur as [|c cur]; [now split|].
    split; [|cbn [concat]; now rewrite !app_nil_r].
    constructor; [|constructor]. split; [apply Hrev | now rewrite forallb_rev].
  - change (filter non_blank_line (l :: ls))
      with (if non_blank_line l then l :: filter non_blank_line ls
            else filter non_blank_line ls).
    cbn [paragraphs_acc].
    assert (Hnb : non_blank_line l = negb (is_blank l)) by reflexivity.
    rewrite Hnb. clear Hnb.
    destruct (is_blank l) eqn:Hl; cbn [negb].
    + destruct (IH [] eq_refl) as [IH1 IH2].
      destruct cur as [|c cur]; [now split|].
      split; [|cbn [concat]; now rewrite IH2].
      constructor; [|exact IH1].
      split; [apply Hrev | now rewrite forallb_rev].
    + assert (Hc : forallb non_blank_line (l :: cur) = true)
        by (cbn; unfold non_blank_line at 1; now rewrite Hl).
      destruct (IH (l :: cur) Hc) as [IH1 IH2]. split; [exact IH1|].
      rewrite IH2. cbn [rev]. now rewrite <- app_assoc.
Qed.

(** C7.  The free-text parser returns one record for each paragraph of
    the text, a paragraph being a maximal run of lines that are not blank:
    the records are those of the paragraphs, in order, each built from the
    stripped lines of its paragraph without any test on them, so there are
    as many records as paragraphs. *)
Theorem txt_records_one_per_paragraph (content : str) :
  txt_records content
  = map record_of_paragraph (paragraphs (lines_of content)) /\
  length (txt_records content) = length (paragraphs (lines_of content)).
Proof.
  split; [apply txt_records_paragraphs|].
  rewrite txt_records_paragraphs. apply length_map.
Qed.

(* ================================================================== *)
(** * Further properties: the sort key *)

Lemma normalize_zip_code_search s :
  normalize_zip_code s =
  match Re.search re_zip5 s with
  | Some m => group_text m 1
  | None => fallback_key
  end.
Proof. destruct s; reflexivity. Qed.

Lemma normalize_zip_code_digits s : digits 5 (normalize_zip_code s).
Proof.
  rewrite normalize_zip_code_search. pose proof (search_zip5 s) as H.
  destruct (Re.search re_zip5 s) as [m|]; [|now split].
  destruct H as (i & w & (pre & post & _ & _ & Hl & Hd) & _ & Hg).
  unfold group_text. rewrite Hg. now split.
Qed.

Lemma normalize_zip_code_prefix d rest :
  digits 5 d -> normalize_zip_code (d ++ rest) = d.
Proof.
  intros [Hl Hd]. rewrite normalize_zip_code_search.
  assert (Hm : exists m, Re.match_at re_zip5 (d ++ rest) = Some m /\
                         Re.group m 1 = Some d).
  { destruct (Re.match_at re_zip5 (d ++ rest)) as [m|] eqn:E.
    - exists m. split; [reflexivity|].
      apply match_at_zip5_some in E as (w & Hs & Hlw & _ & Hg).
      rewrite Hg. f_equal. symmetry.
      apply (app_same_length d w rest (Re.m_rest m)); congruence.
    - exfalso. exact (match_at_zip5_none _ d rest E eq_refl Hl Hd). }
  destruct Hm as (m & Hm & Hg).
  destruct (d ++ rest); cbn [Re.search]; rewrite Hm; unfold group_text;
    now rewrite Hg.
Qed.

(** X1.  The sort key is always a string of five decimal digits, and the
    normaliser leaves a sort key as it is: normalising twice is normalising
    once. *)
Theorem normalize_zip_code_key (s : str) :
  digits 5 (normalize_zip_code s) /\
  normalize_zip_code (normalize_zip_code s) = normalize_zip_code s.
Proof.
  split; [apply normalize_zip_code_digits|].
  rewrite <- (app_nil_r (normalize_zip_code s)) at 1.
  apply normalize_zip_code_prefix, normalize_zip_code_digits.
Qed.

(** X2.  A record whose [zip] value starts with five digits is sorted by
    those digits, whatever follows them: an extension after a dash, more
    digits or other text. *)
Theorem sort_key_zip_prefix (a : address) (d rest : str) :
  Dict.get k_zip a = Some (d ++ rest) -> digits 5 d -> sort_key a = d.
Proof.
  intros Hg Hd. unfold sort_key, Dict.get_default. rewrite Hg.
  now apply normalize_zip_code_prefix.
Qed.

Lemma sort_key_zip_prefix_witness :
  Dict.get k_zip john_smith = Some (py "90210" ++ py "-1234") /\
  digits 5 (py "90210") /\ sort_key john_smith = py "90210".
Proof.
  assert (Hd : digits 5 (py "90210")) by (split; reflexivity).
  split; [reflexivity|]. split; [exact Hd|].
  exact (sort_key_zip_prefix john_smith (py "90210") (py "-1234") eq_refl Hd).
Defined.

Lemma zeros_least r :
  forallb is_digit r = true ->
  str_compare r (repeat "0"%char (length r)) <> Lt.
Proof.
  induction r as [|x r IH]; [discriminate|]. cbn [forallb length repeat].
  intros H. apply andb_prop in H as [Hx Hr]. cbn [str_compare].
  unfold is_digit, between in Hx. apply andb_prop in Hx as [Hlo _].
  apply Nat.leb_le in Hlo. change (code "0"%char) with 48.
  destruct (Nat.compare_spec (code x) 48); [now apply IH | lia | discriminate].
Qed.

(** X3.  The fallback key is the least sort key: a record without [zip]
    is never after another record in the order of the keys, so the records
    without a usable ZIP code come first in the output. *)
Theorem sort_key_missing_zip_least (a b : address) :
  Dict.get k_zip a = None -> key_le sort_key a b.
Proof.
  intros Ha. unfold key_le, str_le, str_leb, str_ltb, sort_key at 2.
  unfold Dict.get_default. rewrite Ha.
  change (normalize_zip_code []) with (repeat "0"%char 5).
  destruct (normalize_zip_code_digits (Dict.get_default k_zip [] b))
    as [Hl Hd].
  fold (sort_key b) in *. pose proof (zeros_least _ Hd) as H.
  rewrite Hl in H. now destruct (str_compare (sort_key b) _).
Qed.

Lemma sort_key_missing_zip_least_witness :
  Dict.get k_zip [(k_name, py "Solo")] = None /\
  key_le sort_key [(k_name, py "Solo")] jane_doe.
Proof.
  split; [reflexivity|].
  exact (sort_key_missing_zip_least [(k_name, py "Solo")] jane_doe eq_refl).
Defined.

(* ================================================================== *)
(** * Further properties: the stable sort *)

Section SortedUnique.
Variable A : Type.
Variable key : A -> str.

Lemma with_key_head k x l :
  with_key key k (x :: l)
  = if str_eqb (key x) k then x :: with_key key k l else with_key key k l.
Proof. reflexivity. Qed.

Lemma with_key_In k x l : In x (with_key key k l) -> In x l.
Proof. unfold with_key. intros H. now apply filter_In in H. Qed.

(** A list sorted by key is determined by the elements it has for each
    key, in their order. *)
Lemma sorted_determined l1 : forall l2,
  StronglySorted (key_le key) l1 -> StronglySorted (key_le key) l2 ->
  (forall k, with_key key k l1 = with_key key k l2) ->
  l1 = l2.
Proof.
  induction l1 as [|x l1 IH]; intros l2 H1 H2 Hk.
  - destruct l2 as [|y l2]; [reflexivity|].
    specialize (Hk (key y)). rewrite with_key_head, str_eqb_refl in Hk.
    discriminate.
  - destruct l2 as [|y l2].
    + specialize (Hk (key x)). rewrite with_key_head, str_eqb_refl in Hk.
      discriminate.
    + inversion H1 as [|? ? Hs1 Hx]; subst.
      inversion H2 as [|? ? Hs2 Hy]; subst.
      rewrite Forall_forall in Hx, Hy.
      assert (Hxy : key_le key x y).
      { pose proof (Hk (key y)) as E.
        rewrite (with_key_head (key y) y), str_eqb_refl in E.
        assert (Hin : In y (with_key key (key y) (x :: l1)))
          by (rewrite E; now left).
        apply with_key_In in Hin. destruct Hin as [<- | Hin];
          [apply str_le_refl | now apply Hx]. }
      assert (Hyx : key_le key y x).
      { pose proof (Hk (key x)) as E.
        rewrite (with_key_head (key x) x), str_eqb_refl in E.
        assert (Hin : In x (with_key key (key x) (y :: l2)))
          by (rewrite <- E; now left).
        apply with_key_In in Hin. destruct Hin as [<- | Hin];
          [apply str_le_refl | now apply Hy]. }
      assert (Hkey : key x = key y) by now apply str_le_antisym.
      assert (Hxe : x = y).
      { pose proof (Hk (key x)) as E.
        rewrite !with_key_head, <- Hkey, str_eqb_refl in E. congruence. }
      subst y. f_equal. apply IH; [exact Hs1 | exact Hs2|].
      intros k. specialize (Hk k). rewrite !with_key_head in Hk.
      destruct (str_eqb (key x) k); congruence.
Qed.

End SortedUnique.

(** X4.  The output of the driver's sort depends on the order of its
    input only through the order of the records that share a key: two record
    lists that have, for every key, the same records with that key in the
    same order are sorted to the same list.  So the order of the files
    matters only among records with equal keys. *)
Theorem sorted_addresses_order_independent (l1 l2 : list address) :
  (forall k, with_key sort_key k l1 = with_key sort_key k l2) ->
  sorted sort_key l1 = sorted sort_key l2.
Proof.
  intros H. apply (sorted_determined address sort_key); try apply sorted_sorted.
  intros k. now rewrite !sorted_with_key.
Qed.

Lemma sorted_addresses_order_independent_witness :
  (forall k, with_key sort_key k [john_smith; jane_doe]
             = with_key sort_key k [jane_doe; john_smith]) /\
  sorted sort_key [john_smith; jane_doe] = sorted sort_key [jane_doe; john_smith].
Proof.
  assert (H : forall k, with_key sort_key k [john_smith; jane_doe]
                        = with_key sort_key k [jane_doe; john_smith]).
  { intros k. unfold with_key. cbn [filter].
    destruct (str_eqb (sort_key john_smith) k) eqn:E1;
      destruct (str_eqb (sort_key jane_doe) k) eqn:E2; try reflexivity.
    apply str_eqb_eq in E1, E2. rewrite <- E2 in E1. vm_compute in E1.
    discriminate. }
  split; [exact H|].
  exact (sorted_addresses_order_independent _ _ H).
Defined.

(** X5.  Sorting is idempotent: a list that is already sorted by key is
    returned as it is, so sorting the output again changes nothing. *)
Theorem sorted_addresses_idempotent (l : list address) :
  sorted sort_key (sorted sort_key l) = sorted sort_key l.
Proof.
  apply (sorted_determined address sort_key); try apply sorted_sorted.
  intros k. apply sorted_with_key.
Qed.

(* ================================================================== *)
(** * Further properties: the keys of a record *)

Ltac ordered_keys_by_name :=
  exists k_name; split; [now left|]; split; vm_compute; reflexivity.
Ltac ordered_keys_by_org :=
  exists k_organization; split; [now right|]; split; vm_compute; reflexivity.

Lemma xml_record_ordered record a :
  xml_record record = Some a -> ordered_keys a.
Proof.
  unfold xml_record, xml_component.
  destruct (xml_text (ET.find k_name record)) as [t|];
    [|destruct (xml_text (ET.find k_organization record)) as [t|];
      [|discriminate]];
    intros [= <-];
    repeat match goal with
           | |- context [xml_text ?e] => destruct (xml_text e)
           end;
    first [ordered_keys_by_name | ordered_keys_by_org].
Qed.

Lemma tsv_address_ordered cd :
  tsv_accept (tsv_address cd) = true -> ordered_keys (tsv_address cd).
Proof.
  unfold tsv_address, tsv_copy.
  destruct (present cd k_organization NA) as [o|];
    [|destruct (Dict.get (py "first") cd) as [first|];
      [destruct (Dict.get (py "last") cd) as [last|]|]];
    try match goal with
        | |- context [join ?sep ?parts] => generalize (join sep parts); intros nm
        end;
    (destruct (present cd k_zip NA) as [z|];
     [match goal with
      | |- context [Dict.set k_zip ?v _] => generalize v; intros zv
      end|]);
    destruct (present cd (py "address") NA);
    destruct (present cd k_city NA);
    destruct (present cd k_county NA);
    destruct (present cd k_state NA);
    intros Hacc; try (discriminate Hacc);
    first [ordered_keys_by_name | ordered_keys_by_org].
Qed.

Lemma txt_address_ordered first_line lines :
  ordered_keys (txt_address first_line lines).
Proof.
  unfold txt_address, txt_location.
  destruct (is_match _); destruct (2 <=? _); destruct (3 <=? _);
    try destruct (Re.search re_location _) as [m|];
    try destruct (Re.group m 2) as [g|]; try destruct (truthy g);
    first [ordered_keys_by_name | ordered_keys_by_org].
Qed.

(** X6.  In every record that a parser returns the first key is the
    identity key, [name] or [organization], and the keys after it are some of
    [street], [city], [county], [state], [zip], in that order and each at
    most once: the records are printed with their fields in that order. *)
Theorem emitted_keys_ordered (f : format) (a : address) :
  emitted_by f a ->
  exists identity,
    (identity = k_name \/ identity = k_organization) /\
    hd_error (Dict.keys a) = Some identity /\
    is_subseq (Dict.keys a) (field_order identity) = true.
Proof.
  intros [root a' Hin | lines rs a' Hrs Hin | content a' Hin].
  - apply In_filter_map in Hin as (r & _ & Hr).
    exact (xml_record_ordered _ _ Hr).
  - destruct lines as [|first rest]; [discriminate|].
    injection Hrs as <-.
    apply In_filter_map in Hin as (line & _ & Hr).
    apply tsv_row_some in Hr as (-> & Hacc & _).
    now apply tsv_address_ordered.
  - apply In_filter_map in Hin as (r & _ & Hr).
    apply txt_record_some in Hr as (fl & rest & _ & ->).
    apply txt_address_ordered.
Qed.

Lemma emitted_keys_ordered_witness :
  emitted_by Markup jane_doe /\
  exists identity,
    (identity = k_name \/ identity = k_organization) /\
    hd_error (Dict.keys jane_doe) = Some identity /\
    is_subseq (Dict.keys jane_doe) (field_order identity) = true.
Proof.
  split; [exact jane_doe_emitted|].
  exact (emitted_keys_ordered Markup jane_doe jane_doe_emitted).
Defined.

(* ================================================================== *)
(** * Further properties: the markup parser *)

Lemma xml_text_none el_opt :
  xml_text el_opt = None <->
  (forall el, el_opt = Some el -> ET.text el = None \/ ET.text el = Some []).
Proof.
  unfold xml_text. destruct el_opt as [el|]; [|split; [intros _ ? [=] | auto]].
  destruct (ET.text el) as [[|c t]|] eqn:E; cbn; split; auto.
  - intros _ el' [= <-]. now right.
  - discriminate.
  - intros H. destruct (H el eq_refl) as [H'|H']; rewrite E in H'; discriminate.
  - intros _ el' [= <-]. now left.
Qed.

(** X7.  In the markup parser the [name] element comes first: when the
    first [name] child of a record has a text that is not empty, the record
    is returned with that text, stripped, as its [name] and without
    [organization], whatever the [organization] child holds, also when the
    text of [name] is all white space. *)
Theorem xml_record_name_first (record : ET.element) (t : str) :
  xml_text (ET.find k_name record) = Some t ->
  exists a, xml_record record = Some a /\
            Dict.get k_name a = Some (strip t) /\
            Dict.mem k_organization a = false.
Proof.
  intros H. unfold xml_record. rewrite H. eexists. split; [reflexivity|].
  unfold xml_component. generalize (strip t) as v. intros v.
  repeat match goal with
         | |- context [xml_text ?e] => destruct (xml_text e) as [?t|]
         end;
    repeat match goal with
           | |- context [strip ?x] => generalize (strip x); intro
           end;
    split; reflexivity.
Qed.

Lemma xml_record_name_first_witness :
  xml_text (ET.find k_name shadowed_org_record) = Some (py " ") /\
  xml_record shadowed_org_record = Some [(k_name, py "")].
Proof.
  split; [reflexivity|].
  destruct (xml_record_name_first shadowed_org_record (py " ") eq_refl)
    as (a & Ha & _). reflexivity.
Defined.

(** X8.  The markup parser skips a record exactly when neither its first
    [name] child nor its first [organization] child has a text that is not
    empty: the child is missing, has no text, or has the empty text.  Later
    children with the same tag are not looked at. *)
Theorem xml_record_skipped (record : ET.element) :
  xml_record record = None <->
  (forall tag el,
      tag = k_name \/ tag = k_organization ->
      ET.find tag record = Some el ->
      ET.text el = None \/ ET.text el = Some []).
Proof.
  unfold xml_record. split.
  - intros H tag el [-> | ->] Hf.
    + destruct (xml_text (ET.find k_name record)) eqn:E; [discriminate|].
      exact (proj1 (xml_text_none _) E el Hf).
    + destruct (xml_text (ET.find k_name record)); [discriminate|].
      destruct (xml_text (ET.find k_organization record)) eqn:E; [discriminate|].
      exact (proj1 (xml_text_none _) E el Hf).
  - intros H.
    assert (Hn : xml_text (ET.find k_name record) = None)
      by (apply xml_text_none; intros el; apply H; now left).
    assert (Ho : xml_text (ET.find k_organization record) = None)
      by (apply xml_text_none; intros el; apply H; now right).
    now rewrite Hn, Ho.
Qed.

(* ================================================================== *)
(** * Further properties: the tabular parser *)

Lemma fill_columns_get k header : forall fields cd,
  Dict.get k (fill_columns header fields cd)
  = match last_value k header fields with
    | Some v => Some (strip v)
    | None => Dict.get k cd
    end.
Proof.
  induction header as [|h hs IH]; intros [|v vs] cd; try reflexivity.
  cbn [fill_columns last_value]. rewrite IH.
  destruct (last_value k hs vs); [reflexivity|].
  rewrite DictFacts.get_set. now destruct (str_eqb h k).
Qed.

(** X9.  The column data of a row maps a column name to the stripped
    value of the last column with that name, among the columns that have
    both a header and a value: values beyond the header are ignored, a row
    shorter than the header leaves the later columns out, and of two columns
    with the same name the later one counts. *)
Theorem column_data_lookup (k : str) (header fields : list str) :
  Dict.get k (column_data header fields)
  = option_map strip (last_value k header fields).
Proof.
  unfold column_data. rewrite fill_columns_get.
  now destruct (last_value k header fields).
Qed.

Lemma fill_columns_firstn header : forall fields cd,
  fill_columns header fields cd
  = fill_columns header (firstn (length header) fields) cd.
Proof.
  induction header as [|h hs IH]; intros [|v vs] cd; try reflexivity.
  cbn [fill_columns length firstn]. apply IH.
Qed.

(** X10.  A row with more values than the header has columns is read as
    the row cut to the length of the header: the values beyond it change
    neither the column data nor the record. *)
Theorem tsv_address_ignores_extra_values (header fields : list str) :
  column_data header fields
  = column_data header (firstn (length header) fields) /\
  tsv_address (column_data header fields)
  = tsv_address (column_data header (firstn (length header) fields)).
Proof.
  assert (H : column_data header fields
              = column_data header (firstn (length header) fields))
    by apply fill_columns_firstn.
  split; [exact H | now rewrite <- H].
Qed.

Lemma filter_map_filter {A B : Type} (f : A -> option B) (p : A -> bool) l :
  (forall x, p x = false -> f x = None) ->
  filter_map f (filter p l) = filter_map f l.
Proof.
  intros H. induction l as [|x l IH]; [reflexivity|]. cbn [filter].
  destruct (p x) eqn:E; cbn [filter_map]; rewrite IH; [reflexivity|].
  now rewrite (H x E).
Qed.

(** X11.  Blank data lines of a tabular file add nothing: the records of
    the file are those of the file without its blank data lines. *)
Theorem tsv_records_skip_blank_lines (first : str) (rest : list str) :
  tsv_records (first :: rest)
  = tsv_records (first :: filter non_blank_line rest).
Proof.
  cbn [tsv_records]. f_equal. symmetry. apply filter_map_filter.
  intros line H. unfold non_blank_line in H. apply negb_false_iff in H.
  unfold tsv_row. now rewrite truthy_strip, H.
Qed.

Lemma readlines_nil content : readlines content = [] <-> content = [].
Proof.
  destruct content as [|c s]; [tauto|]. cbn [readlines].
  destruct (Ascii.eqb c nl); [split; discriminate|].
  destruct (readlines s); split; discriminate.
Qed.

(** X12.  A tabular file that can be read fails to parse only when it has
    no character at all: then the parser prints the empty-file diagnostic
    and returns nothing.  Any other content, a lone header or blank lines
    included, gives a list of records and no diagnostic. *)
Theorem parse_tsv_file_empty (w : world) (filepath content : str) (x : xml_result)
        (s : io) :
  w filepath = Some {| f_text := Some content; f_xml := x |} ->
  (content = [] ->
   parse_tsv_file w filepath s
   = (Ret None, {| stdout := stdout s;
                   stderr := stderr s ++ [ErrTsvEmpty filepath];
                   output_json := output_json s |})) /\
  (content <> [] ->
   exists addresses, parse_tsv_file w filepath s = (Ret (Some addresses), s)).
Proof.
  intros Hw. unfold parse_tsv_file. rewrite Hw. split.
  - intros ->. reflexivity.
  - intros Hne. destruct (readlines content) as [|l ls] eqn:E.
    + apply readlines_nil in E. congruence.
    + cbn [tsv_records]. eexists. reflexivity.
Qed.

Lemma parse_tsv_file_empty_witness :
  one_file_world (py "a.tsv") [nl] (py "a.tsv")
  = Some {| f_text := Some [nl]; f_xml := XmlParseError |} /\
  parse_tsv_file (one_file_world (py "a.tsv") [nl]) (py "a.tsv") io0
  = (Ret (Some []), io0).
Proof.
  split; [reflexivity|].
  destruct (parse_tsv_file_empty (one_file_world (py "a.tsv") [nl])
              (py "a.tsv") [nl] XmlParseError io0 eq_refl) as [_ H].
  destruct (H ltac:(discriminate)) as (addresses & Ha). reflexivity.
Defined.

Ltac case_columns cd :=
  unfold tsv_address, tsv_copy, Dict.mem;
  repeat match goal with
         | |- context [present cd ?k ?s] => destruct (present cd k s)
         end;
  destruct (Dict.get (py "first") cd); destruct (Dict.get (py "last") cd).

(** X13.  In the tabular parser an organization that is neither empty nor
    [N/A] is the identity of the row, also when the row has first and last
    names; without one, the row gets a [name] exactly when it has both a
    [first] and a [last] column, whatever they hold. *)
Theorem tsv_address_identity (cd : Dict.t) :
  Dict.get k_organization (tsv_address cd) = present cd k_organization NA /\
  (Dict.mem k_name (tsv_address cd) = true <->
   present cd k_organization NA = None /\
   Dict.mem (py "first") cd = true /\ Dict.mem (py "last") cd = true).
Proof.
  split.
  - case_columns cd; vm_compute; reflexivity.
  - case_columns cd; vm_compute;
      intuition (try discriminate; try congruence).
Qed.

(** X14.  The [zip] field of a tabular record comes from the [zip] column:
    without a usable [zip] column the record has no [zip], also when the row
    has a [zip4]; with one, the field is the column value, followed by a dash
    and the [zip4] value when that is usable too. *)
Theorem tsv_address_zip (cd : Dict.t) :
  Dict.get k_zip (tsv_address cd)
  = match present cd k_zip NA with
    | None => None
    | Some z =>
        Some match present cd (py "zip4") NA with
             | Some z4 => z ++ py "-" ++ z4
             | None => z
             end
    end.
Proof. case_columns cd; vm_compute; reflexivity. Qed.

(* ================================================================== *)
(** * Further properties: the free-text parser *)

Lemma paragraphs_blank ls :
  forallb is_blank ls = true -> paragraphs ls = [].
Proof.
  unfold paragraphs. induction ls as [|l ls IH]; [reflexivity|].
  cbn. intros H. apply andb_prop in H as [Hl Hls]. rewrite Hl. now apply IH.
Qed.

(** X15.  A text file that holds nothing but white space, the empty file
    included, gives no record (and no failure: the parser returns the empty
    list). *)
Theorem txt_records_blank (content : str) :
  is_blank content = true -> txt_records content = [].
Proof.
  intros H. rewrite txt_records_paragraphs, paragraphs_blank; [reflexivity|].
  rewrite <- is_blank_join. unfold lines_of. now rewrite join_split_on.
Qed.

Lemma txt_records_blank_witness :
  is_blank (py " " ++ [nl; nl; tab]) = true /\
  txt_records (py " " ++ [nl; nl; tab]) = [].
Proof.
  split; [reflexivity|].
  exact (txt_records_blank (py " " ++ [nl; nl; tab]) eq_refl).
Defined.

Lemma txt_address_identity_value first_line lines :
  Dict.get k_name (txt_address first_line lines) = Some first_line \/
  Dict.get k_organization (txt_address first_line lines) = Some first_line.
Proof.
  unfold txt_address, txt_location.
  destruct (is_match _); destruct (2 <=? _); destruct (3 <=? _);
    try destruct (Re.search re_location _) as [m|];
    try destruct (Re.group m 2) as [g|]; try destruct (truthy g);
    vm_compute; auto.
Qed.

(** X16.  The identity of a free-text record is never blank: it is the
    first line of its paragraph, stripped, and that line has a character that
    is not white space. *)
Theorem txt_records_identity_non_blank (content : str) (a : address) :
  In a (txt_records content) ->
  exists v, non_blank v /\ strip v = v /\
            (Dict.get k_name a = Some v \/ Dict.get k_organization a = Some v).
Proof.
  rewrite txt_records_paragraphs. intros H.
  apply in_map_iff in H as (par & <- & Hin).
  destruct (paragraphs_acc_runs (lines_of content) [] eq_refl) as [Hruns _].
  rewrite Forall_forall in Hruns. destruct (Hruns par Hin) as [Hne Hnb].
  destruct par as [|n rest]; [congruence|].
  cbn [forallb] in Hnb. apply andb_prop in Hnb as [Hn _].
  unfold non_blank_line in Hn. apply negb_true_iff in Hn.
  exists (strip n). split; [|split].
  - unfold non_blank. now rewrite is_blank_strip.
  - apply strip_idem.
  - unfold record_of_paragraph. cbn [map hd].
    apply txt_address_identity_value.
Qed.

Lemma txt_records_identity_non_blank_witness :
  In acme (txt_records acme_paragraph) /\
  exists v, non_blank v /\ strip v = v /\
            (Dict.get k_name acme = Some v \/
             Dict.get k_organization acme = Some v).
Proof.
  assert (E : txt_records acme_paragraph = [acme]) by (vm_compute; reflexivity).
  assert (H : In acme (txt_records acme_paragraph))
    by (rewrite E; left; reflexivity).
  split; [exact H|].
  exact (txt_records_identity_non_blank acme_paragraph acme H).
Defined.

Lemma inv_lit m : forall x c c',
  Re.matches (Re.Lit m) x c c' -> x = m /\ c' = c.
Proof.
  induction m as [|a m IH]; intros x c c' H.
  - now apply inv_eps in H.
  - destruct m as [|b m].
    + apply inv_cls in H as (a' & -> & Ha & ->).
      apply Ascii.eqb_eq in Ha. now subst.
    + change (Re.Lit (a :: b :: m))
        with (Re.Seq (Re.Cls (is_char a)) (Re.Lit (b :: m))) in H.
      apply inv_seq in H as (x1 & x2 & c1 & -> & H1 & H2).
      apply inv_cls in H1 as (a' & -> & Ha & ->).
      apply Ascii.eqb_eq in Ha. subst a'.
      apply IH in H2 as [-> ->]. now split.
Qed.

Lemma lit_matches m c : Re.matches (Re.Lit m) m c c.
Proof.
  induction m as [|a m IH]; [constructor|].
  destruct m as [|b m].
  - constructor. apply Ascii.eqb_refl.
  - change (Re.Lit (a :: b :: m))
      with (Re.Seq (Re.Cls (is_char a)) (Re.Lit (b :: m))).
    apply (Re.matches_seq _ _ [a] (b :: m) c c c); [|exact IH].
    constructor. apply Ascii.eqb_refl.
Qed.

Lemma occurs_org s : Re.occurs re_org s <-> has_org_marker s.
Proof.
  unfold Re.occurs, has_org_marker, re_org. split.
  - intros (pre & x & post & c & -> & H).
    apply inv_group in H as (c1 & H & _).
    exists x, pre, post. split; [|reflexivity].
    repeat (apply inv_alt in H as [H|H];
            [apply inv_lit in H as [-> _]; cbn; auto 10|]).
    apply inv_lit in H as [-> _]. cbn. auto 10.
  - intros (m & pre & post & Hin & ->).
    exists pre, m, post. eexists. split; [reflexivity|].
    apply Re.matches_group.
    cbn in Hin.
    destruct Hin as [<-|[<-|[<-|[<-|[<-|[<-|[]]]]]]].
    + apply Re.matches_alt_l, lit_matches.
    + apply Re.matches_alt_r, Re.matches_alt_l, lit_matches.
    + do 2 apply Re.matches_alt_r. apply Re.matches_alt_l, lit_matches.
    + do 3 apply Re.matches_alt_r. apply Re.matches_alt_l, lit_matches.
    + do 4 apply Re.matches_alt_r. apply Re.matches_alt_l, lit_matches.
    + do 5 apply Re.matches_alt_r. apply lit_matches.
Qed.

Lemma txt_address_org_key first_line lines :
  Dict.mem k_organization (txt_address first_line lines)
  = is_match (Re.search re_org first_line) /\
  Dict.mem k_name (txt_address first_line lines)
  = negb (is_match (Re.search re_org first_line)).
Proof.
  unfold txt_address, txt_location.
  destruct (is_match _); destruct (2 <=? _); destruct (3 <=? _);
    try destruct (Re.search re_location _) as [m|];
    try destruct (Re.group m 2) as [g|]; try destruct (truthy g);
    split; vm_compute; reflexivity.
Qed.

(** X17.  A free-text record is an organization exactly when the first
    line of its paragraph contains one of the markers [Inc.], [LLC], [Ltd.],
    [Company], [Corp.], [Corporation], in that spelling and anywhere in the
    line; otherwise the line is its [name]. *)
Theorem txt_address_organization (first_line : str) (lines : list str) :
  (Dict.mem k_organization (txt_address first_line lines) = true <->
   has_org_marker first_line) /\
  (Dict.mem k_name (txt_address first_line lines) = true <->
   ~ has_org_marker first_line).
Proof.
  destruct (txt_address_org_key first_line lines) as [-> ->].
  rewrite <- occurs_org, <- ReFacts.search_occurs.
  destruct (Re.search re_org first_line); cbn; split; split;
    try congruence; try discriminate; intros H; now destruct H.
Qed.

Lemma txt_address_short_fields first_line lines :
  length lines < 3 ->
  let a := txt_address first_line lines in
  Dict.get k_street a = nth_error lines 1 /\
  Dict.get k_city a = None /\ Dict.get k_county a = None /\
  Dict.get k_state a = None /\ Dict.get k_zip a = None.
Proof.
  intros H a. subst a. unfold txt_address.
  assert (H3 : (3 <=? length lines) = false) by (apply Nat.leb_gt; lia).
  rewrite H3.
  destruct lines as [|l0 [|l1 [|l2 lines]]]; [| | |cbn in H; lia];
    cbn [length Nat.leb nth nth_error];
    destruct (is_match _); repeat split.
Qed.

(** X18.  A paragraph of fewer than three lines gets no location: its
    record has no [city], [county], [state] or [zip], also when its second
    line reads like a location, and its [street] is the second line when
    there is one. *)
Theorem txt_address_short (first_line : str) (lines : list str) :
  length lines < 3 ->
  Dict.get k_street (txt_address first_line lines) = nth_error lines 1 /\
  Dict.get k_city (txt_address first_line lines) = None /\
  Dict.get k_county (txt_address first_line lines) = None /\
  Dict.get k_state (txt_address first_line lines) = None /\
  Dict.get k_zip (txt_address first_line lines) = None.
Proof. intros H. exact (txt_address_short_fields first_line lines H). Qed.

Lemma txt_address_short_witness :
  length two_line_lines < 3 /\
  Re.search re_location (nth 1 two_line_lines []) <> None /\
  Dict.get k_street (txt_address (py "Acme Inc.") two_line_lines)
  = Some (py "Springfield, IL 62704") /\
  Dict.get k_zip (txt_address (py "Acme Inc.") two_line_lines) = None.
Proof.
  assert (H : length two_line_lines < 3) by (cbn; lia).
  split; [exact H|]. split; [vm_compute; discriminate|].
  destruct (txt_address_short (py "Acme Inc.") two_line_lines H)
    as (Hs & _ & _ & _ & Hz).
  split; [exact Hs | exact Hz].
Defined.

(** X19.  The [zip] of a free-text record, when it has one, is five digits
    with, optionally, a dash and four more digits, and the record is sorted
    by its first five characters: a free-text record with a [zip] never
    falls back to the key of the records without ZIP code. *)
Theorem txt_address_zip_key (first_line : str) (lines : list str) (z : str) :
  Dict.get k_zip (txt_address first_line lines) = Some z ->
  zip_shape z /\ sort_key (txt_address first_line lines) = firstn 5 z.
Proof.
  intros Hz.
  destruct (Nat.lt_ge_cases (length lines) 3) as [Hlt | Hge].
  { destruct (txt_address_short_fields first_line lines Hlt)
      as (_ & _ & _ & _ & Hn).
    cbv zeta in Hn. congruence. }
  destruct (txt_address_base first_line lines Hge)
    as (base & Ha & _ & _ & _ & Hb).
  pose proof (txt_location_spec (last lines []) base) as Hspec.
  destruct (Re.search re_location (last lines [])) as [m|].
  - destruct Hspec as (pre & x & city & county & state & zip & _ & Hloc & Hw).
    destruct (with_location_fields city county state zip base)
      as (_ & _ & _ & F4).
    cbv zeta in F4. rewrite <- Hw, <- Ha in F4. rewrite Hz in F4.
    injection F4 as <-.
    inversion Hloc as [? ? ? ? ? ? ? _ _ _ _ _ _ Hzip]; subst.
    split; [exact Hzip|].
    unfold sort_key, Dict.get_default. rewrite Hz.
    destruct Hzip as (d5 & Hd & [-> | (d4 & _ & ->)]).
    + rewrite <- (app_nil_r d5) at 1.
      rewrite (normalize_zip_code_prefix _ _ Hd).
      destruct Hd as [Hl _]. rewrite <- Hl. now rewrite firstn_all.
    + rewrite (normalize_zip_code_prefix _ _ Hd).
      destruct Hd as [Hl _]. rewrite <- Hl.
      now rewrite firstn_app, firstn_all, Nat.sub_diag, firstn_O, app_nil_r.
  - rewrite Hspec in Ha. congruence.
Qed.

Lemma txt_address_zip_key_witness :
  Dict.get k_zip
    (txt_address (py "Acme Inc.")
       [py "Acme Inc."; py "123 Main St"; py "Springfield, IL 62704-1234"])
  = Some (py "62704-1234") /\
  sort_key
    (txt_address (py "Acme Inc.")
       [py "Acme Inc."; py "123 Main St"; py "Springfield, IL 62704-1234"])
  = py "62704".
Proof.
  assert (H : Dict.get k_zip
    (txt_address (py "Acme Inc.")
       [py "Acme Inc."; py "123 Main St"; py "Springfield, IL 62704-1234"])
  = Some (py "62704-1234")) by (vm_compute; reflexivity).
  split; [exact H|].
  exact (proj2 (txt_address_zip_key _ _ _ H)).
Defined.

(* ================================================================== *)
(** * Further properties: the driver *)



Lemma check_files_missing (w : world) files p s :
  first_missing w files = Some p ->
  check_files w files s =
  (Exit 1, {| stdout := stdout s; stderr := stderr s ++ [ErrNotFound p];
              output_json := output_json s |}).
Proof.
  unfold first_missing. induction files as [|q files IH]; cbn; [discriminate|].
  destruct (w q); [exact IH|]. now intros [= <-].
Qed.

Lemma run_missing_file_eq (w : world) files p :
  first_missing w files = Some p ->
  run w files =
  (Exit 1, {| stdout := []; stderr := [ErrNotFound p]; output_json := None |}).
Proof.
  intros H.
  assert (Hne : files <> []) by (intros ->; discriminate H).
  rewrite (run_nonempty w files Hne). unfold bind.
  now rewrite (check_files_missing w files p io0 H).
Qed.

(** X20.  The existence check comes before any parsing: when some argument
    is not a file, the run exits with status 1 and its only diagnostic names
    the first such argument, whatever the files before it hold; nothing is
    printed on standard output and [output.json] is not written. *)
Theorem run_missing_file (w : world) (files : list str) (p : str) :
  first_missing w files = Some p ->
  run w files =
  (Exit 1, {| stdout := []; stderr := [ErrNotFound p]; output_json := None |}).
Proof.
  exact (run_missing_file_eq w files p).
Qed.

Lemma run_missing_file_witness :
  first_missing (one_file_world (py "a.xml") []) [py "a.xml"; py "b.txt"]
  = Some (py "b.txt") /\
  parses (one_file_world (py "a.xml") []) (py "a.xml") = None /\
  run (one_file_world (py "a.xml") []) [py "a.xml"; py "b.txt"] =
  (Exit 1, {| stdout := []; stderr := [ErrNotFound (py "b.txt")];
              output_json := None |}).
Proof.
  assert (H : first_missing (one_file_world (py "a.xml") [])
                [py "a.xml"; py "b.txt"] = Some (py "b.txt")) by reflexivity.
  split; [exact H|]. split; [reflexivity|].
  exact (run_missing_file _ _ _ H).
Defined.












(* ================================================================== *)
(** * Further properties: the dispatcher *)

Lemma split_on_app sep a b :
  split_on sep (a ++ sep :: b) = split_on sep a ++ split_on sep b.
Proof.
  induction a as [|c a IH]; cbn [app split_on].
  - now rewrite Ascii.eqb_refl.
  - destruct (Ascii.eqb c sep); rewrite IH; [reflexivity|].
    pose proof (split_on_not_nil sep a) as Hne.
    destruct (split_on sep a) as [|x xs]; [congruence | reflexivity].
Qed.

Lemma split_on_no_char sep s : no_char sep s -> split_on sep s = [s].
Proof.
  unfold no_char, is_char. induction s as [|c s IH]; [reflexivity|].
  cbn [forallb split_on]. intros H. apply andb_prop in H as [Hc Hs].
  apply negb_true_iff in Hc. now rewrite Hc, (IH Hs).
Qed.

Lemma file_name_last path name :
  file_name path name -> last (split_on "/"%char path) [] = name.
Proof.
  intros [Hn [-> | [dir ->]]].
  - now rewrite (split_on_no_char _ _ Hn).
  - rewrite split_on_app, (split_on_no_char _ _ Hn). apply last_last.
Qed.

Lemma from_last_dot_none s : no_char "."%char s -> from_last_dot s = None.
Proof.
  unfold no_char. induction s as [|c s IH]; [reflexivity|].
  cbn [forallb from_last_dot]. intros H. apply andb_prop in H as [Hc Hs].
  rewrite (IH Hs). apply negb_true_iff in Hc. unfold is_dot. now rewrite Hc.
Qed.

Lemma from_last_dot_app x e :
  no_char "."%char e ->
  from_last_dot (x ++ "."%char :: e) = Some ("."%char :: e).
Proof.
  intros He. induction x as [|c x IH]; cbn [app from_last_dot].
  - now rewrite (from_last_dot_none e He).
  - now rewrite IH.
Qed.

Lemma drop_dots_app s t : drop_dots s <> [] -> drop_dots (s ++ t) = drop_dots s ++ t.
Proof.
  induction s as [|c s IH]; cbn [app drop_dots]; [congruence|].
  destruct (is_dot c); [exact IH | reflexivity].
Qed.

Lemma drop_dots_repeat k name :
  no_char "."%char name -> drop_dots (repeat "."%char k ++ name) = name.
Proof.
  intros Hn. induction k as [|k IH]; cbn [repeat app drop_dots].
  - destruct name as [|c name]; [reflexivity|]. cbn [drop_dots].
    unfold no_char in Hn. cbn [forallb] in Hn.
    apply andb_prop in Hn as [Hc _]. apply negb_true_iff in Hc.
    unfold is_dot. now rewrite Hc.
  - exact IH.
Qed.

Lemma splitext_ext_dot path stem e :
  file_name path (stem ++ "."%char :: e) -> drop_dots stem <> [] ->
  no_char "."%char e -> splitext_ext path = "."%char :: e.
Proof.
  intros Hf Hs He. unfold splitext_ext. rewrite (file_name_last _ _ Hf).
  now rewrite (drop_dots_app _ _ Hs), (from_last_dot_app _ _ He).
Qed.

(** X24.  The parser is chosen by the text after the last dot of the file
    name, whatever the case of its letters and whatever the directory and
    the dots before it: [xml], [tsv] and [txt] select the three parsers, and
    everything else is reported, in lower case, as unsupported. *)
Theorem parse_file_by_extension (w : world) (path stem e : str) :
  file_name path (stem ++ "."%char :: e) -> drop_dots stem <> [] ->
  no_char "."%char e ->
  parse_file w path =
  if str_eqb (lower e) (py "xml") then parse_xml_file w path
  else if str_eqb (lower e) (py "tsv") then parse_tsv_file w path
  else if str_eqb (lower e) (py "txt") then parse_txt_file w path
  else eprint (ErrUnsupported ("."%char :: lower e)) ;;; ret None.
Proof.
  intros Hf Hs He. unfold parse_file.
  rewrite (splitext_ext_dot path stem e Hf Hs He). reflexivity.
Qed.

Lemma parse_file_by_extension_witness :
  file_name (py "in/a.b.TSV") (py "a.b" ++ "."%char :: py "TSV") /\
  parse_file empty_files (py "in/a.b.TSV")
  = parse_tsv_file empty_files (py "in/a.b.TSV").
Proof.
  assert (Hf : file_name (py "in/a.b.TSV") (py "a.b" ++ "."%char :: py "TSV")).
  { split; [reflexivity|]. right. now exists (py "in"). }
  split; [exact Hf|].
  assert (Hs : drop_dots (py "a.b") <> []) by discriminate.
  exact (parse_file_by_extension empty_files _ _ _ Hf Hs eq_refl).
Defined.

(** X25.  A file name without a dot, or whose only dots are at its start
    (as [.xml] or [..txt]), has no extension: the file is not opened, the
    empty extension is reported as unsupported, and the result is [None]. *)
Theorem parse_file_no_extension (w : world) (path name : str) (k : nat) (s : io) :
  file_name path (repeat "."%char k ++ name) -> no_char "."%char name ->
  parse_file w path s =
  (Ret None, {| stdout := stdout s; stderr := stderr s ++ [ErrUnsupported []];
                output_json := output_json s |}).
Proof.
  intros Hf Hn. unfold parse_file, splitext_ext.
  rewrite (file_name_last _ _ Hf), (drop_dots_repeat _ _ Hn),
    (from_last_dot_none _ Hn).
  reflexivity.
Qed.

Lemma parse_file_no_extension_witness :
  file_name (py "in/.xml") (repeat "."%char 1 ++ py "xml") /\
  parse_file empty_files (py "in/.xml") io0 =
  (Ret None, {| stdout := []; stderr := [ErrUnsupported []];
                output_json := None |}).
Proof.
  assert (Hf : file_name (py "in/.xml") (repeat "."%char 1 ++ py "xml")).
  { split; [reflexivity|]. right. now exists (py "in"). }
  split; [exact Hf|].
  exact (parse_file_no_extension empty_files _ _ 1 io0 Hf eq_refl).
Defined.
